(** * Keypoint utilities of [lib/pymafx/utils/keypoints.py]

    A shallow embedding of the module and the properties of its functions:
    the COCO keypoint flip, the heatmap-label encoder, the argmax and the
    soft-integral heatmap decoders, the OKS similarity and the greedy
    OKS suppression.

    Number model.  numpy's and torch's floating-point values are idealised
    as real numbers ([R]): rounding is not modelled.  The encoder, whose
    scale factors come from an unguarded division, is evaluated over
    [npfloat]: the reals extended with the IEEE special values [inf],
    [-inf] and [nan] that numpy produces when a float array is divided by
    zero.

    Effects.  numpy arrays are mutable objects: the functions that write
    into arrays ([flip_keypoints], [scores_to_probs],
    [heatmaps_to_keypoints]) run in a state-and-exception monad over a
    store of arrays; a Python exception leaves the store as it was when the
    exception was raised. *)

From Stdlib Require Import Reals Lra Lia ZArith.
From stdpp Require Import gmap strings list sorting.
From Equations Require Import Equations.

Set Default Proof Using "Type".

(* ===================================================================== *)
(** * Python exceptions and the two monads *)
(* ===================================================================== *)

Inductive pyerr : Type :=
| NameError (name : string)
| AttributeError (name : string)
| IndexError
| ValueError
| AssertionError
| RuntimeError
| NoSuchObject.

#[global] Instance R_eq_dec : EqDecision R := Req_dec_T.
#[global] Instance R_inhabited : Inhabited R := populate 0%R.

(** A pure computation that may raise. *)
Definition result (A : Type) : Type := pyerr + A.

Definition Ok {A} (a : A) : result A := inr a.
Definition Raise {A} (e : pyerr) : result A := inl e.

Definition rbind {A B} (m : result A) (k : A → result B) : result B :=
  match m with
  | inl e => inl e
  | inr a => k a
  end.

Declare Scope res_scope.
Delimit Scope res_scope with res.
Notation "x <- m ;; k" := (rbind m (λ x, k))
  (at level 100, m at next level, right associativity) : res_scope.

(** [None] from a list access is Python's [IndexError]. *)
Definition index_or_raise {A} (o : option A) : result A :=
  match o with
  | Some a => Ok a
  | None => Raise IndexError
  end.

(** Arrays with two, three and four axes, as nested lists in C order. *)
Abbreviation arr1 := (list R).
Abbreviation arr2 := (list (list R)).
Abbreviation arr3 := (list (list (list R))).
Abbreviation arr4 := (list (list (list (list R)))).

Inductive ndarray : Type :=
| Arr2 (a : arr2)
| Arr3 (a : arr3)
| Arr4 (a : arr4).

(** The store of array objects; a location is the identity of an array. *)
Abbreviation loc := nat (only parsing).
Abbreviation store := (gmap nat ndarray).

(** A computation over the store that may raise.  The store is returned in
    both cases. *)
Definition M (A : Type) : Type := store → result A * store.

Definition mret {A} (a : A) : M A := λ σ, (Ok a, σ).
Definition mraise {A} (e : pyerr) : M A := λ σ, (Raise e, σ).
Definition mbind {A B} (m : M A) (k : A → M B) : M B :=
  λ σ, match m σ with
       | (inl e, σ') => (inl e, σ')
       | (inr a, σ') => k a σ'
       end.
Definition lift {A} (r : result A) : M A := λ σ, (r, σ).

Declare Scope py_scope.
Delimit Scope py_scope with py.
Notation "x <- m ;; k" := (mbind m (λ x, k))
  (at level 100, m at next level, right associativity) : py_scope.
Notation "m ;; k" := (mbind m (λ _, k))
  (at level 100, right associativity) : py_scope.

(** A new array object: its location is not in use. *)
Definition alloc (v : ndarray) : M loc :=
  λ σ, let l := fresh (dom σ) in (Ok l, <[l := v]> σ).

(** The contents of an array object.  A Python reference always denotes a
    live object; [NoSuchObject] is the model's answer for a location that
    is not in the store. *)
Definition load (l : loc) : M ndarray :=
  λ σ, match σ !! l with
       | Some v => (Ok v, σ)
       | None => (Raise NoSuchObject, σ)
       end.

(** In-place update of an array object. *)
Definition write (l : loc) (v : ndarray) : M unit :=
  λ σ, (Ok tt, <[l := v]> σ).

Definition load3 (l : loc) : M arr3 :=
  (v <- load l ;;
   match v with
   | Arr3 a => mret a
   | _ => mraise IndexError
   end)%py.

Definition load4 (l : loc) : M arr4 :=
  (v <- load l ;;
   match v with
   | Arr4 a => mret a
   | _ => mraise IndexError
   end)%py.

(** [np.transpose(a, axes)] with four axes: a view of the same object, so
    nothing is copied; numpy raises when [a] does not have four axes. *)
Definition np_transpose4 (l : loc) : M unit :=
  (v <- load l ;;
   match v with
   | Arr4 _ => mret tt
   | _ => mraise ValueError
   end)%py.

(** [for x in xs: body x] *)
Fixpoint for_each {A} (xs : list A) (body : A → M unit) : M unit :=
  match xs with
  | [] => mret tt
  | x :: xs' => (body x ;; for_each xs' body)%py
  end.

(** [wp m σ Q]: running [m] in [σ] ends, with a value or an exception, in a
    result and a store that satisfy [Q]. *)
Definition wp {A} (m : M A) (σ : store) (Q : result A → store → Prop) : Prop :=
  Q (m σ).1 (m σ).2.

(** [a.copy()] *)
Definition np_copy (l : loc) : M loc :=
  (v <- load l ;; alloc v)%py.

(* ===================================================================== *)
(** * Module globals *)
(* ===================================================================== *)

(** [cfg.KRCNN]: the three configuration values the module reads. *)
Record KRCNN_cfg : Type := {
  NUM_KEYPOINTS : nat;
  HEATMAP_SIZE : Z;
  INFERENCE_MIN_SIZE : Z
}.

Inductive pyobj : Type :=
| PyModule (name : string)
| PyFunction (name : string)
| PyFeature (name : string)
| PyConfig (KRCNN : KRCNN_cfg).

Abbreviation globals := (gmap string pyobj).

(** The names bound at module level by [keypoints.py]: the [__future__]
    features, the four imports and the functions it defines.  Lines 30 and
    31, which would bind [cfg] and [blob_utils], are comments. *)
Definition module_globals : globals :=
  list_to_map
    [ ("absolute_import", PyFeature "absolute_import");
      ("division", PyFeature "division");
      ("print_function", PyFeature "print_function");
      ("unicode_literals", PyFeature "unicode_literals");
      ("cv2", PyModule "cv2");
      ("np", PyModule "numpy");
      ("torch", PyModule "torch");
      ("F", PyModule "torch.nn.functional");
      ("get_keypoints", PyFunction "get_keypoints");
      ("get_person_class_index", PyFunction "get_person_class_index");
      ("flip_keypoints", PyFunction "flip_keypoints");
      ("flip_heatmaps", PyFunction "flip_heatmaps");
      ("heatmaps_to_keypoints", PyFunction "heatmaps_to_keypoints");
      ("keypoints_to_heatmap_labels", PyFunction "keypoints_to_heatmap_labels");
      ("scores_to_probs", PyFunction "scores_to_probs");
      ("nms_oks", PyFunction "nms_oks");
      ("compute_oks", PyFunction "compute_oks");
      ("get_max_preds", PyFunction "get_max_preds");
      ("generate_3d_integral_preds_tensor",
        PyFunction "generate_3d_integral_preds_tensor");
      ("softmax_integral_tensor", PyFunction "softmax_integral_tensor") ].

(** The module as it is upstream, with the two imports in place. *)
Definition globals_with (c : KRCNN_cfg) : globals :=
  <["cfg" := PyConfig c]> (<["blob_utils" := PyModule "utils.blob"]> module_globals).

(** Reading a global name. *)
Definition global (g : globals) (name : string) : result pyobj :=
  match g !! name with
  | Some o => Ok o
  | None => Raise (NameError name)
  end.

(** [cfg.KRCNN] *)
Definition cfg_KRCNN (g : globals) : result KRCNN_cfg :=
  (o <- global g "cfg" ;;
   match o with
   | PyConfig c => Ok c
   | _ => Raise (AttributeError "KRCNN")
   end)%res.

(** [blob_utils.zeros]: resolving the attribute of the module object. *)
Definition blob_utils_zeros (g : globals) : result unit :=
  (o <- global g "blob_utils" ;;
   match o with
   | PyModule _ => Ok tt
   | _ => Raise (AttributeError "zeros")
   end)%res.

(* ===================================================================== *)
(** * Array indexing *)
(* ===================================================================== *)

(** [a[i, c, k]] *)
Definition get3 (a : arr3) (i c k : nat) : option R :=
  a !! i ≫= (λ inst, inst !! c ≫= (λ row : list R, row !! k)).

(** [a[i, c]] of a two-axis array *)
Definition get2 (v : arr2) (i c : nat) : option R :=
  v !! i ≫= (λ row : list R, row !! c).

(** The lengths along the last axis: two arrays of the same [shape3] have
    the same entries in use. *)
Definition shape3 (a : arr3) : list (list nat) :=
  (λ inst : arr2, length <$> inst) <$> a.
Definition shape2 (v : arr2) : list nat := length <$> v.
Definition shape4 (m : arr4) : list (list (list nat)) := shape3 <$> m.

Definition same_shape (v w : ndarray) : Prop :=
  match v, w with
  | Arr2 a, Arr2 b => shape2 a = shape2 b
  | Arr3 a, Arr3 b => shape3 a = shape3 b
  | Arr4 a, Arr4 b => shape4 a = shape4 b
  | _, _ => False
  end.

(** Every row of the array has [K] entries. *)
Definition rows_of (K : nat) (a : arr3) : Prop :=
  Forall (Forall (λ row : list R, length row = K)) a.

(** [a[:, :, k]] *)
Definition get_joint (a : arr3) (k : nat) : result arr2 :=
  index_or_raise (mapM (mapM (λ row : list R, row !! k)) a).

(** [a[:, :, k] = v] *)
Definition set_joint (a : arr3) (k : nat) (v : arr2) : result arr3 :=
  (_ <- get_joint a k ;;
   if decide (shape2 v = length <$> a)
   then Ok (zip_with (zip_with (λ (row : list R) x, <[k := x]> row)) a v)
   else Raise ValueError)%res.

(** [a[:, c, :]] *)
Definition get_channel (a : arr3) (c : nat) : result arr2 :=
  index_or_raise (mapM (λ inst : arr2, inst !! c) a).

(** [a[:, c, :] = v] *)
Definition set_channel (a : arr3) (c : nat) (v : arr2) : result arr3 :=
  (old <- get_channel a c ;;
   if decide (shape2 v = shape2 old)
   then Ok (zip_with (λ (inst : arr2) row, <[c := row]> inst) a v)
   else Raise ValueError)%res.

(** [np.where(v == 0)] on a two-axis array: the index pairs, row by row. *)
Definition where_eq0_row (row : list R) : list nat :=
  filter (λ k, row !! k = Some 0%R) (seq 0 (length row)).

Definition np_where_eq0 (v : arr2) : list (nat * nat) :=
  concat (imap (λ i row, (λ k, (i, k)) <$> where_eq0_row row) v).

(** [a[inds[0], c, inds[1]] = x] *)
Definition set_points (a : arr3) (c : nat) (inds : list (nat * nat)) (x : R) : arr3 :=
  foldl (λ b '(i, k), alter (alter (<[k := x]>) c) i b) a inds.

(** [l.index(x)] *)
Fixpoint list_index (l : list string) (x : string) : result nat :=
  match l with
  | [] => Raise ValueError
  | y :: l' =>
      if decide (y = x) then Ok 0
      else (i <- list_index l' x ;; Ok (S i))%res
  end.

(* ===================================================================== *)
(** * [get_keypoints] and [flip_keypoints] *)
(* ===================================================================== *)

Definition get_keypoints : list string * list (string * string) :=
  let keypoints :=
    [ "nose"; "left_eye"; "right_eye"; "left_ear"; "right_ear";
      "left_shoulder"; "right_shoulder"; "left_elbow"; "right_elbow";
      "left_wrist"; "right_wrist"; "left_hip"; "right_hip";
      "left_knee"; "right_knee"; "left_ankle"; "right_ankle" ] in
  let keypoint_flip_map :=
    [ ("left_eye", "right_eye"); ("left_ear", "right_ear");
      ("left_shoulder", "right_shoulder"); ("left_elbow", "right_elbow");
      ("left_wrist", "right_wrist"); ("left_hip", "right_hip");
      ("left_knee", "right_knee"); ("left_ankle", "right_ankle") ] in
  (keypoints, keypoint_flip_map).

(** The body of the loop over [keypoint_flip_map.items()]. *)
Definition flip_pair (keypoints : list string) (keypoint_coords flipped_kps : loc)
    (item : string * string) : M unit :=
  (let '(lkp, rkp) := item in
   lid <- lift (list_index keypoints lkp) ;;
   rid <- lift (list_index keypoints rkp) ;;
   src <- load3 keypoint_coords ;;
   v <- lift (get_joint src rid) ;;
   dst <- load3 flipped_kps ;;
   dst <- lift (set_joint dst lid v) ;;
   write flipped_kps (Arr3 dst) ;;
   src <- load3 keypoint_coords ;;
   v <- lift (get_joint src lid) ;;
   dst <- load3 flipped_kps ;;
   dst <- lift (set_joint dst rid v) ;;
   write flipped_kps (Arr3 dst))%py.

Definition flip_keypoints (keypoints : list string)
    (keypoint_flip_map : list (string * string))
    (keypoint_coords : loc) (width : R) : M loc :=
  (flipped_kps <- np_copy keypoint_coords ;;
   for_each keypoint_flip_map (flip_pair keypoints keypoint_coords flipped_kps) ;;
   (* Flip x coordinates *)
   cur <- load3 flipped_kps ;;
   xs <- lift (get_channel cur 0) ;;
   cur <- load3 flipped_kps ;;
   cur <- lift (set_channel cur 0
            ((λ row : list R, (λ x, width - x - 1)%R <$> row) <$> xs)) ;;
   write flipped_kps (Arr3 cur) ;;
   (* Maintain COCO convention that if visibility == 0, then x, y = 0 *)
   cur <- load3 flipped_kps ;;
   vis <- lift (get_channel cur 2) ;;
   let inds := np_where_eq0 vis in
   cur <- load3 flipped_kps ;;
   write flipped_kps (Arr3 (set_points cur 0 inds 0)) ;;
   mret flipped_kps)%py.



(** The joint indices the loop of [flip_keypoints] works with: one pair
    [(lid, rid)] per item of the flip map. *)
Fixpoint joint_ids (keypoints : list string) (items : list (string * string))
  : result (list (nat * nat)) :=
  match items with
  | [] => Ok []
  | (lkp, rkp) :: rest =>
      (lid <- list_index keypoints lkp ;;
       rid <- list_index keypoints rkp ;;
       ids <- joint_ids keypoints rest ;;
       Ok ((lid, rid) :: ids))%res
  end.

(** Where the joint in slot [j] of [flipped_kps] comes from.  After the two
    assignments for the pair [(lid, rid)], slot [rid] holds the input's
    joint [lid] and slot [lid] the input's joint [rid]; a later pair
    overwrites an earlier one. *)
Definition swap_src (f : nat → nat) (lid rid : nat) : nat → nat :=
  λ j, if decide (j = rid) then lid else if decide (j = lid) then rid else f j.

Definition src_from (f : nat → nat) (ids : list (nat * nat)) : nat → nat :=
  foldl (λ f p, swap_src f p.1 p.2) f ids.

Definition src_map (ids : list (nat * nat)) : nat → nat := src_from (λ j, j) ids.

(** The entry [[i, c, j]] of the array one flip returns, from the input
    [a], the joint sources [f] and the width. *)
Definition flipped_entry (f : nat → nat) (width : R) (a : arr3) (i c j : nat) : option R :=
  if decide (c = 0) then
    if decide (get3 a i 2 (f j) = Some 0%R)
    then const 0%R <$> get3 a i 0 (f j)
    else (λ x, width - x - 1)%R <$> get3 a i 0 (f j)
  else get3 a i c (f j).


(** A keypoint array: every instance has the channels x, y and visibility
    (and possibly more), each with one entry per joint. *)
Definition kp_array (K : nat) (a : arr3) : Prop :=
  Forall (λ inst : arr2, 3 ≤ length inst) a
  ∧ rows_of K a.



(** What holds of the store all along a call: the input is as it was, and
    the copy has the input's shape. *)
Definition flip_inv (kp fl : nat) (v : ndarray) (σ : store) : Prop :=
  σ !! kp = Some v ∧ ∃ w, σ !! fl = Some w ∧ same_shape v w.

(* ===================================================================== *)
(** * numpy floats with the IEEE special values *)
(* ===================================================================== *)

#[global] Instance Rlt_decision : RelDecision Rlt := Rlt_dec.
#[global] Instance Rle_decision : RelDecision Rle := Rle_dec.

(** A finite value, [inf], [-inf] or [nan].  Signed zeros are not told
    apart: a zero divisor is [+0.0], as the difference of two equal floats
    is. *)
Inductive npfloat : Type :=
| Fin (r : R)
| PInf
| NInf
| NaN.

Definition of_Z (z : Z) : npfloat := Fin (IZR z).

(** The infinity with the sign of [r], [nan] for zero. *)
Definition inf_signed (r : R) : npfloat :=
  if decide (0 < r)%R then PInf
  else if decide (r < 0)%R then NInf
  else NaN.

Definition np_neg (a : npfloat) : npfloat :=
  match a with
  | Fin r => Fin (- r)
  | PInf => NInf
  | NInf => PInf
  | NaN => NaN
  end.

Definition np_add (a b : npfloat) : npfloat :=
  match a, b with
  | NaN, _ | _, NaN => NaN
  | Fin r, Fin s => Fin (r + s)
  | PInf, NInf | NInf, PInf => NaN
  | PInf, _ | _, PInf => PInf
  | NInf, _ | _, NInf => NInf
  end.

Definition np_sub (a b : npfloat) : npfloat := np_add a (np_neg b).

Definition np_mul (a b : npfloat) : npfloat :=
  match a, b with
  | NaN, _ | _, NaN => NaN
  | Fin r, Fin s => Fin (r * s)
  | Fin r, PInf | PInf, Fin r => inf_signed r
  | Fin r, NInf | NInf, Fin r => inf_signed (- r)
  | PInf, PInf | NInf, NInf => PInf
  | PInf, NInf | NInf, PInf => NInf
  end.

Definition np_div (a b : npfloat) : npfloat :=
  match a, b with
  | NaN, _ | _, NaN => NaN
  | Fin r, Fin s => if decide (s = 0)%R then inf_signed r else Fin (r / s)
  | Fin _, (PInf | NInf) => Fin 0
  | PInf, Fin s => if decide (s < 0)%R then NInf else PInf
  | NInf, Fin s => if decide (s < 0)%R then PInf else NInf
  | (PInf | NInf), (PInf | NInf) => NaN
  end.

(** [np.floor] *)
Definition np_floor (a : npfloat) : npfloat :=
  match a with
  | Fin r => of_Z (Int_part r)
  | _ => a
  end.

(** The comparisons: every comparison with [nan] is false. *)
Definition np_ltb (a b : npfloat) : bool :=
  match a, b with
  | NaN, _ | _, NaN => false
  | Fin r, Fin s => bool_decide (r < s)%R
  | NInf, (Fin _ | PInf) => true
  | Fin _, PInf => true
  | _, _ => false
  end.

Definition np_geb (a b : npfloat) : bool :=
  match a, b with
  | NaN, _ | _, NaN => false
  | Fin r, Fin s => bool_decide (s <= r)%R
  | PInf, _ => true
  | _, NInf => true
  | _, _ => false
  end.

(* ===================================================================== *)
(** * [keypoints_to_heatmap_labels] *)
(* ===================================================================== *)

(** A row of the [rois] array: [(x1, y1, x2, y2)]. *)
Record roi : Type := { x1 : R; y1 : R; x2 : R; y2 : R }.

#[global] Instance roi_inhabited : Inhabited roi :=
  populate {| x1 := 0; y1 := 0; x2 := 0; y2 := 0 |}.

(** [a.shape[2]]; an array without entries reads 0 here. *)
Definition shape_2 (a : arr3) : nat :=
  match a with
  | (row :: _) :: _ => length row
  | _ => 0
  end.

(** [a[:, c, k]] *)
Definition get_col (a : arr3) (c k : nat) : result (list R) :=
  index_or_raise (mapM (λ inst : arr2, inst !! c ≫= (λ row : list R, row !! k)) a).

(** [np.where(x == edge)[0]] *)
Definition where_eq (x edge : list R) : list nat :=
  filter (λ i, x !! i = edge !! i) (seq 0 (length x)).

(** [x[inds] = v] *)
Definition set_at (x : list npfloat) (inds : list nat) (v : npfloat) : list npfloat :=
  foldl (λ x i, <[i := v]> x) x inds.

(** One axis of one joint, for all instances: the boundary indices of the
    raw coordinate, the scaled and floored coordinate, and the boundary
    entries set to [HEATMAP_SIZE - 1]. *)
Definition discretize (size : Z) (raw offset : list R) (scale : list npfloat)
    (edge : list R) : list npfloat :=
  let boundary_inds := where_eq raw edge in
  let x := zip_with (λ (xo : R * R) s, np_mul (np_sub (Fin xo.1) (Fin xo.2)) s)
             (zip raw offset) scale in
  let x := np_floor <$> x in
  if decide (0 < length boundary_inds) then set_at x boundary_inds (of_Z (size - 1))
  else x.

Definition valid_loc (size : Z) (x y : npfloat) : bool :=
  (np_geb x (of_Z 0) && np_geb y (of_Z 0))
  && (np_ltb x (of_Z size) && np_ltb y (of_Z size)).

(** [valid.astype(np.int32)] *)
Definition of_bool (b : bool) : npfloat := of_Z (Z.b2z b).

(** The scale factors of an axis: [HEATMAP_SIZE / (rois[:, hi] - rois[:, lo])]. *)
Definition scale_of (size : Z) (lo hi : roi → R) (rois : list roi) : list npfloat :=
  (λ r, np_div (of_Z size) (Fin (hi r - lo r))) <$> rois.

(** The body of the loop over the joints: the columns [heatmaps[:, kp]] and
    [weights[:, kp]]. *)
Definition encode_joint (size : Z) (keypoints : arr3) (rois : list roi)
    (scale_x scale_y : list npfloat) (kp : nat)
  : result (list npfloat * list npfloat) :=
  (v <- get_col keypoints 2 kp ;;
   let vis := (λ v, bool_decide (0 < v)%R) <$> v in
   x <- get_col keypoints 0 kp ;;
   y <- get_col keypoints 1 kp ;;
   if decide (length x = length rois) then
     let x := discretize size x (x1 <$> rois) scale_x (x2 <$> rois) in
     let y := discretize size y (y1 <$> rois) scale_y (y2 <$> rois) in
     let valid_loc := zip_with (valid_loc size) x y in
     let valid := zip_with andb valid_loc vis in
     let lin_ind := zip_with (λ y x, np_add (np_mul y (of_Z size)) x) y x in
     Ok (zip_with (λ l v, np_mul l (of_bool v)) lin_ind valid, of_bool <$> valid)
   else Raise ValueError)%res.

(** [h[:, kp] = col] *)
Definition set_column (h : list (list npfloat)) (kp : nat) (col : list npfloat)
  : result (list (list npfloat)) :=
  if decide (Forall (λ row, kp < length row) h) then
    if decide (length col = length h)
    then Ok (zip_with (λ row v, <[kp := v]> row) h col)
    else Raise ValueError
  else Raise IndexError.

Fixpoint encode_joints (size : Z) (keypoints : arr3) (rois : list roi)
    (scale_x scale_y : list npfloat) (kps : list nat)
    (heatmaps weights : list (list npfloat))
  : result (list (list npfloat) * list (list npfloat)) :=
  match kps with
  | [] => Ok (heatmaps, weights)
  | kp :: kps' =>
      (cols <- encode_joint size keypoints rois scale_x scale_y kp ;;
       heatmaps <- set_column heatmaps kp cols.1 ;;
       weights <- set_column weights kp cols.2 ;;
       encode_joints size keypoints rois scale_x scale_y kps' heatmaps weights)%res
  end.

(** The configuration is read from the global [cfg] at each use; the first
    read is the one in the assertion. *)
Definition keypoints_to_heatmap_labels (g : globals) (keypoints : arr3) (rois : list roi)
  : result (list (list npfloat) * list (list npfloat)) :=
  (c <- cfg_KRCNN g ;;
   if decide (shape_2 keypoints = NUM_KEYPOINTS c) then
     _ <- blob_utils_zeros g ;;
     let heatmaps := replicate (length rois) (replicate (NUM_KEYPOINTS c) (of_Z 0)) in
     let weights := replicate (length rois) (replicate (NUM_KEYPOINTS c) (of_Z 0)) in
     let scale_x := scale_of (HEATMAP_SIZE c) x1 x2 rois in
     let scale_y := scale_of (HEATMAP_SIZE c) y1 y2 rois in
     encode_joints (HEATMAP_SIZE c) keypoints rois scale_x scale_y
       (seq 0 (shape_2 keypoints)) heatmaps weights
   else Raise AssertionError)%res.

(** ** The encoder entry by entry *)








Definition one_joint_cfg : KRCNN_cfg :=
  {| NUM_KEYPOINTS := 1; HEATMAP_SIZE := 56; INFERENCE_MIN_SIZE := 0 |}.

(** A keypoint on the right edge of its ROI. *)
Definition edge_keypoint : arr3 := [ [ [10]; [3]; [1] ] ]%R.
Definition square_roi : roi := {| x1 := 0; y1 := 0; x2 := 10; y2 := 10 |}.

(* ===================================================================== *)
(** * [scores_to_probs] and [heatmaps_to_keypoints] *)
(* ===================================================================== *)

(** [np.ceil] of a float, as the integer it denotes. *)
Definition np_ceil (r : R) : Z := (- Int_part (- r))%Z.

(** [a.max()] over all entries; numpy raises on an array without
    entries. *)
Definition np_max (l : list R) : result R :=
  match l with
  | [] => Raise ValueError
  | x :: l' => Ok (foldl Rmax x l')
  end.

(** [a.argmax()]: the first flat index of the maximum. *)
Fixpoint argmax_from (best_i : nat) (best : R) (i : nat) (l : list R) : nat :=
  match l with
  | [] => best_i
  | y :: l' =>
      if decide (best < y)%R then argmax_from i y (S i) l'
      else argmax_from best_i best (S i) l'
  end.

Definition np_argmax (l : list R) : result nat :=
  match l with
  | [] => Raise ValueError
  | x :: l' => Ok (argmax_from 0 x 1 l')
  end.

(** [np.sum] *)
Definition sum_list (l : list R) : R := foldr Rplus 0%R l.

(** Exchange of the two axes of a matrix. *)
Fixpoint transpose {A} (m : list (list A)) : list (list A) :=
  match m with
  | [] => []
  | row :: rest =>
      match rest with
      | [] => (λ x, [x]) <$> row
      | _ => zip_with cons row (transpose rest)
      end
  end.

(** [np.transpose(m, [1, 2, 0])]: CHW to HWC. *)
Definition hwc_of_chw (m : arr3) : arr3 := transpose <$> transpose m.

(** [np.transpose(m, [2, 0, 1])]: HWC to CHW. *)
Definition chw_of_hwc (m : arr3) : arr3 := transpose ((λ x : arr2, transpose x) <$> m).

(** [np.exp(temp - max_score) / np.sum(np.exp(temp - max_score))] *)
Definition softmax_plane (temp : arr2) (max_score : R) : arr2 :=
  let e := (λ row : list R, (λ t, exp (t - max_score)) <$> row) <$> temp in
  let total := sum_list (concat e) in
  (λ row : list R, (λ v, v / total)%R <$> row) <$> e.

(** The body of the loop of [scores_to_probs]: channel [c] of the array at
    [scores] is replaced, in place, by its softmax. *)
Definition softmax_channel (scores : loc) (c : nat) : M unit :=
  (s <- load3 scores ;;
   temp <- lift (index_or_raise (s !! c)) ;;
   max_score <- lift (np_max (concat temp)) ;;
   let temp := softmax_plane temp max_score in
   s <- load3 scores ;;
   write scores (Arr3 (<[c := temp]> s)))%py.

Definition scores_to_probs (scores : loc) : M loc :=
  (s <- load3 scores ;;
   let channels := length s in
   for_each (seq 0 channels) (softmax_channel scores) ;;
   mret scores)%py.

(** [a[i, c, k] = v] *)
Definition write_entry (l : loc) (i c k : nat) (v : R) : M unit :=
  (a <- load3 l ;;
   write l (Arr3 (alter (alter (<[k := v]>) c) i a)))%py.

Section decoder.

(** [cv2.resize(src, (width, height), interpolation=cv2.INTER_CUBIC)] of
    an HWC array: OpenCV's resampling is outside the module. *)
Variable cv2_resize : arr3 → Z → Z → arr3.

(** The body of the loop over the joints.  [roi_map] is the location of
    the array [cv2.resize] returned, read through the CHW view
    [np.transpose(roi_map, [2, 0, 1])]. *)
Definition decode_joint (roi_map roi_map_probs xy_preds : loc) (i w : nat)
    (width_correction height_correction offset_x offset_y : R) (k : nat) : M unit :=
  (rm <- load3 roi_map ;;
   plane <- lift (index_or_raise (chw_of_hwc rm !! k)) ;;
   pos <- lift (np_argmax (concat plane)) ;;
   let x_int := pos mod w in
   let y_int := (pos - x_int) / w in
   probs <- load3 roi_map_probs ;;
   probs_k <- lift (index_or_raise (probs !! k)) ;;
   p <- lift (index_or_raise (probs_k !! y_int ≫= (λ row : list R, row !! x_int))) ;;
   p_max <- lift (np_max (concat probs_k)) ;;
   if decide (p = p_max) then
     let x := ((INR x_int + 0.5) * width_correction)%R in
     let y := ((INR y_int + 0.5) * height_correction)%R in
     write_entry xy_preds i 0 k (x + offset_x)%R ;;
     write_entry xy_preds i 1 k (y + offset_y)%R ;;
     rm <- load3 roi_map ;;
     score <- lift (index_or_raise (get3 (chw_of_hwc rm) k y_int x_int)) ;;
     write_entry xy_preds i 2 k score ;;
     probs <- load3 roi_map_probs ;;
     prob <- lift (index_or_raise (get3 probs k y_int x_int)) ;;
     write_entry xy_preds i 3 k prob
   else mraise AssertionError)%py.

(** The body of the loop over the ROIs.  [maps] is the caller's array,
    read through the NHWC view [np.transpose(maps, [0, 2, 3, 1])]. *)
Definition decode_roi (c : KRCNN_cfg) (maps xy_preds : loc)
    (offset_x offset_y widths heights : list R) (widths_ceil heights_ceil : list Z)
    (i : nat) : M unit :=
  (let min_size := INFERENCE_MIN_SIZE c in
   width_ceil <- lift (index_or_raise (widths_ceil !! i)) ;;
   height_ceil <- lift (index_or_raise (heights_ceil !! i)) ;;
   let roi_map_width :=
     if decide (0 < min_size)%Z then Z.max width_ceil min_size else width_ceil in
   let roi_map_height :=
     if decide (0 < min_size)%Z then Z.max height_ceil min_size else height_ceil in
   width <- lift (index_or_raise (widths !! i)) ;;
   height <- lift (index_or_raise (heights !! i)) ;;
   let width_correction := (width / IZR roi_map_width)%R in
   let height_correction := (height / IZR roi_map_height)%R in
   m <- load4 maps ;;
   maps_i <- lift (index_or_raise ((hwc_of_chw <$> m) !! i)) ;;
   roi_map <- alloc (Arr3 (cv2_resize maps_i roi_map_width roi_map_height)) ;;
   (* Bring back to CHW *)
   rm <- load3 roi_map ;;
   roi_map_copy <- alloc (Arr3 (chw_of_hwc rm)) ;;
   roi_map_probs <- scores_to_probs roi_map_copy ;;
   rm <- load3 roi_map ;;
   let w := shape_2 (chw_of_hwc rm) in
   ox <- lift (index_or_raise (offset_x !! i)) ;;
   oy <- lift (index_or_raise (offset_y !! i)) ;;
   for_each (seq 0 (NUM_KEYPOINTS c))
     (decode_joint roi_map roi_map_probs xy_preds i w
        width_correction height_correction ox oy))%py.

Definition heatmaps_to_keypoints (g : globals) (maps : loc) (rois : list roi) : M loc :=
  (let offset_x := x1 <$> rois in
   let offset_y := y1 <$> rois in
   let widths := (λ r, x2 r - x1 r)%R <$> rois in
   let heights := (λ r, y2 r - y1 r)%R <$> rois in
   let widths := (λ w, Rmax w 1) <$> widths in
   let heights := (λ h, Rmax h 1) <$> heights in
   let widths_ceil := np_ceil <$> widths in
   let heights_ceil := np_ceil <$> heights in
   (* NCHW to NHWC for use with OpenCV *)
   _ <- np_transpose4 maps ;;
   c <- lift (cfg_KRCNN g) ;;
   xy_preds <- alloc (Arr3 (replicate (length rois)
                             (replicate 4 (replicate (NUM_KEYPOINTS c) 0%R)))) ;;
   for_each (seq 0 (length rois))
     (decode_roi c maps xy_preds offset_x offset_y widths heights
        widths_ceil heights_ceil) ;;
   mret xy_preds)%py.

End decoder.

(** ** The decoder entry by entry *)

(** The clamped extents of a ROI and the side of the working map. *)
Definition roi_width (r : roi) : R := Rmax (x2 r - x1 r) 1.
Definition roi_height (r : roi) : R := Rmax (y2 r - y1 r) 1.

Definition roi_map_side (min_size : Z) (extent : R) : Z :=
  if decide (0 < min_size)%Z then Z.max (np_ceil extent) min_size else np_ceil extent.

(** The maximum of a plane ([0] for a plane without entries, where numpy
    raises). *)
Definition max_of (l : list R) : R :=
  match l with
  | [] => 0%R
  | x :: l' => foldl Rmax x l'
  end.

(** The per-joint softmax of a CHW array. *)
Definition softmax_planes (a : arr3) : arr3 :=
  (λ plane : arr2, softmax_plane plane (max_of (concat plane))) <$> a.

(** A matrix with [h] rows of [w] entries. *)
Definition matrix_of {A} (h w : nat) (m : list (list A)) : Prop :=
  length m = h ∧ Forall (λ row, length row = w) m.

(** A CHW array: [c] planes of [h] rows of [w] entries. *)
Definition chw_array (c h w : nat) (a : arr3) : Prop :=
  length a = c ∧ Forall (matrix_of h w) a.

(** An HWC array: [h] rows of [w] pixels of [c] channels. *)
Definition hwc_array (h w c : nat) (a : arr3) : Prop :=
  length a = h ∧ Forall (matrix_of w c) a.

(** [a.argmax()] as a total function ([0] for an array without entries,
    where numpy raises). *)
Definition argmax_of (l : list R) : nat :=
  match l with
  | [] => 0
  | x :: l' => argmax_from 0 x 1 l'
  end.

(** The column and the row of the first maximum of a plane whose rows have
    [w] entries: [x_int] and [y_int] of the source. *)
Definition peak_x (plane : arr2) (w : nat) : nat := argmax_of (concat plane) mod w.
Definition peak_y (plane : arr2) (w : nat) : nat :=
  (argmax_of (concat plane) - peak_x plane w) / w.

(** Entry [c] of a joint after the four assignments of [decode_joint]:
    channel [c < 4] holds [vals[c]], the other channels are as before. *)
Definition assigned (vals : list R) (c : nat) (old : option R) : option R :=
  match vals !! c with
  | Some v => const v <$> old
  | None => old
  end.

(** The function [t ↦ exp(t - max_score) / total] that [softmax_plane]
    applies to every entry. *)
Definition softmax_entry (plane : arr2) (t : R) : R :=
  (exp (t - max_of (concat plane))
   / sum_list (concat ((λ row : list R,
        (λ t, exp (t - max_of (concat plane))) <$> row) <$> plane)))%R.

(** The four values [decode_joint] assigns for a joint whose resized
    heatmap is [plane]: [x], [y], the raw score and the probability at the
    peak. *)
Definition joint_values (plane : arr2) (w : nat) (wc hc ox oy : R) : list R :=
  [ ((INR (peak_x plane w) + 0.5) * wc + ox)%R;
    ((INR (peak_y plane w) + 0.5) * hc + oy)%R;
    max_of (concat plane);
    max_of (concat (softmax_plane plane (max_of (concat plane)))) ].

Definition joint_values_at (roi_map : arr3) (w : nat) (wc hc ox oy : R) (k : nat) : list R :=
  match roi_map !! k with
  | Some plane => joint_values plane w wc hc ox oy
  | None => []
  end.

(** What the model asks of [cv2.resize]: an HWC image with [c] channels is
    resized to an HWC image of the requested size with [c] channels. *)
Definition resize_keeps_layout (cv2_resize : arr3 → Z → Z → arr3) : Prop :=
  ∀ src (width height : Z) h0 w0 c,
    hwc_array h0 w0 c src → 0 < h0 → 0 < w0 → (0 < width)%Z → (0 < height)%Z →
    hwc_array (Z.to_nat height) (Z.to_nat width) c (cv2_resize src width height).

(** The working map of instance [i]: the resized heatmaps, back in CHW. *)
Definition roi_map_of (cv2_resize : arr3 → Z → Z → arr3) (min_size : Z)
    (maps_i : arr3) (r : roi) : arr3 :=
  chw_of_hwc (cv2_resize (hwc_of_chw maps_i)
                (roi_map_side min_size (roi_width r))
                (roi_map_side min_size (roi_height r))).

(** The four values of joint [k] of instance [i], from the caller's
    heatmaps [m], the ROIs and the configuration. *)
Definition roi_values (cv2_resize : arr3 → Z → Z → arr3) (c : KRCNN_cfg)
    (m : arr4) (rois : list roi) (i k : nat) : list R :=
  match m !! i, rois !! i with
  | Some maps_i, Some r =>
      let map_w := roi_map_side (INFERENCE_MIN_SIZE c) (roi_width r) in
      let map_h := roi_map_side (INFERENCE_MIN_SIZE c) (roi_height r) in
      joint_values_at (roi_map_of cv2_resize (INFERENCE_MIN_SIZE c) maps_i r)
        (Z.to_nat map_w)
        (roi_width r / IZR map_w) (roi_height r / IZR map_h) (x1 r) (y1 r) k
  | _, _ => []
  end.

(** A stand-in for [cv2.resize] that keeps the layout: every pixel of the
    result is the top-left pixel of the source. *)
Definition corner_resize (src : arr3) (width height : Z) : arr3 :=
  replicate (Z.to_nat height)
    (replicate (Z.to_nat width)
       (match src with
        | (px :: _) :: _ => px
        | _ => []
        end)).

(** One heatmap of one channel and one cell. *)
Definition one_cell_maps : arr4 := [ [ [ [1%R] ] ] ].

(** A COCO pose array of shape (1, 3, 17) with every joint invisible. *)
Definition coco_blank_pose : arr3 := replicate 1 (replicate 3 (replicate 17 0%R)).

(* ===================================================================== *)
(** * [compute_oks] and [nms_oks] *)
(* ===================================================================== *)

(** The per-joint falloff constants of COCO. *)
Definition sigmas : list R :=
  (λ s, s / 10)%R <$>
    [ 0.26; 0.25; 0.25; 0.35; 0.35; 0.79; 0.79; 0.72; 0.72; 0.62; 0.62;
      1.07; 1.07; 0.87; 0.87; 0.89; 0.89 ]%R.

Definition oks_vars : list R := (λ s, (s * 2) ^ 2)%R <$> sigmas.

(** [np.spacing(1)]: the gap between 1.0 and the next double. *)
Definition np_spacing_1 : R := (/ 2 ^ 52)%R.

(** [a op b] for a two-axis [a] and a one-axis [b], which numpy applies
    row by row; the last axes must agree.  (Broadcasting of an axis of
    length 1 is not modelled: it raises here.) *)
Definition broadcast_rows (f : R → R → R) (a : arr2) (b : list R) : result arr2 :=
  if decide (Forall (λ row : list R, length row = length b) a)
  then Ok ((λ row : list R, zip_with f row b) <$> a)
  else Raise ValueError.

(** [a op b] for two-axis arrays of one shape. *)
Definition elementwise (f : R → R → R) (a b : arr2) : result arr2 :=
  if decide (shape2 a = shape2 b)
  then Ok (zip_with (zip_with f) a b)
  else Raise ValueError.

(** [src_keypoints] is 4 x K, [dst_keypoints] is M x 4 x K; [dst_roi] is
    not used. *)
Definition compute_oks (src_keypoints : arr2) (src_roi : roi)
    (dst_keypoints : arr3) (dst_roi : list roi) : result (list R) :=
  (let vars := oks_vars in
   (* area *)
   let src_area :=
     ((x2 src_roi - x1 src_roi + 1) * (y2 src_roi - y1 src_roi + 1))%R in
   (* measure the per-keypoint distance if keypoints visible *)
   dst_x <- get_channel dst_keypoints 0 ;;
   src_x <- index_or_raise (src_keypoints !! 0) ;;
   dx <- broadcast_rows Rminus dst_x src_x ;;
   dst_y <- get_channel dst_keypoints 1 ;;
   src_y <- index_or_raise (src_keypoints !! 1) ;;
   dy <- broadcast_rows Rminus dst_y src_y ;;
   d2 <- elementwise (λ dx dy, dx ^ 2 + dy ^ 2)%R dx dy ;;
   e <- broadcast_rows (λ d v, d / v / (src_area + np_spacing_1) / 2)%R d2 vars ;;
   Ok ((λ row : list R,
          sum_list ((λ e, exp (- e)) <$> row) / INR (length vars))%R <$> e))%res.

(** [np.mean] of a row *)
Definition np_mean (l : list R) : R := (sum_list l / INR (length l))%R.

(** [a.argsort()]: the indices in ascending order of their value.  numpy
    leaves the order of equal values to the sorting algorithm; here equal
    values keep the order of their indices. *)
Fixpoint insert_by (scores : list R) (i : nat) (sorted : list nat) : list nat :=
  match sorted with
  | [] => [i]
  | j :: rest =>
      if decide (scores !!! i < scores !!! j)%R then i :: j :: rest
      else j :: insert_by scores i rest
  end.

Definition argsort (scores : list R) : list nat :=
  foldl (λ sorted i, insert_by scores i sorted) [] (seq 0 (length scores)).

(** [a[inds]] for a list of indices *)
Definition take_indices {A} (a : list A) (inds : list nat) : result (list A) :=
  index_or_raise (mapM (λ j, a !! j) inds).

(** [np.where(ovr <= thresh)[0]] *)
Definition where_le (ovr : list R) (thresh : R) : list nat :=
  filter (λ j, ovr !!! j <= thresh)%R (seq 0 (length ovr)).

Definition inspect {A} (a : A) : {b : A | a = b} := exist _ a eq_refl.

(** One round of the loop of [nms_oks], for [order = i :: rest]: the OKS of
    the pending instances with instance [i], and the new [order]. *)
Definition nms_step (kp_predictions : arr3) (rois : list roi) (thresh : R)
    (i : nat) (rest : list nat) : result (list nat) :=
  (src <- index_or_raise (kp_predictions !! i) ;;
   src_roi <- index_or_raise (rois !! i) ;;
   dst <- take_indices kp_predictions rest ;;
   dst_roi <- take_indices rois rest ;;
   ovr <- compute_oks src src_roi dst dst_roi ;;
   let inds := where_le ovr thresh in
   take_indices (i :: rest) ((λ j, j + 1) <$> inds))%res.

(** [while order.size > 0: ...]: every round shortens [order]. *)
Equations? nms_loop (kp_predictions : arr3) (rois : list roi) (thresh : R)
    (order : list nat) : result (list nat) by wf (length order) lt :=
nms_loop kp_predictions rois thresh [] := Ok [];
nms_loop kp_predictions rois thresh (i :: rest)
  with inspect (nms_step kp_predictions rois thresh i rest) := {
  | exist _ (inl e) _ => Raise e
  | exist _ (inr order') Hstep =>
      rbind (nms_loop kp_predictions rois thresh order') (λ keep, Ok (i :: keep)) }.
Proof.
  unfold nms_step, take_indices in Hstep.
  repeat match type of Hstep with
         | rbind ?m _ = _ => destruct m; simpl in Hstep; [discriminate|]
         end.
  destruct (mapM _ (_ <$> where_le _ thresh)) as [l'|] eqn:Hl; simpl in Hstep; [|discriminate].
  injection Hstep as <-.
  rewrite <-(length_mapM _ _ _ Hl), length_fmap.
  apply mapM_Some_1 in Hl. apply Forall2_fmap_l in Hl.
  enough (length (where_le l2 thresh) ≤ length rest) by (simpl; lia).
  rewrite <-(length_seq (length rest) 0).
  apply NoDup_incl_length.
  - apply NoDup_ListNoDup, NoDup_filter, NoDup_seq.
  - intros j Hj%list_elem_of_In. apply list_elem_of_In, elem_of_seq.
    apply list_elem_of_lookup in Hj as [n Hn].
    destruct (Forall2_lookup_l _ _ _ _ _ Hl Hn) as (y & _ & Hy). simpl in Hy.
    apply lookup_lt_Some in Hy. simpl in Hy. lia.
Qed.

Definition nms_oks (kp_predictions : arr3) (rois : list roi) (thresh : R)
  : result (list nat) :=
  (rows <- get_channel kp_predictions 2 ;;
   let scores := np_mean <$> rows in
   let order := reverse (argsort scores) in
   nms_loop kp_predictions rois thresh order)%res.

(** ** OKS by its formula *)

(** A pose: the rows x and y (and possibly more), one entry per joint. *)
Definition pose_array (K : nat) (pose : arr2) : Prop :=
  2 ≤ length pose ∧ Forall (λ row : list R, length row = K) pose.

(** The mean over the 17 joints of
    [exp(-(dx^2 + dy^2) / (2 * (2 * sigma_k)^2 * (area_src + epsilon)))]. *)
Definition oks_similarity (src : arr2) (src_roi : roi) (cand : arr2) : R :=
  let area_src := ((x2 src_roi - x1 src_roi + 1) * (y2 src_roi - y1 src_roi + 1))%R in
  (sum_list
     ((λ k,
         let dx := ((cand !!! 0%nat) !!! k - (src !!! 0%nat) !!! k)%R in
         let dy := ((cand !!! 1%nat) !!! k - (src !!! 1%nat) !!! k)%R in
         let sigma_k := sigmas !!! k in
         exp (- ((dx ^ 2 + dy ^ 2)
                 / (2 * (2 * sigma_k) ^ 2 * (area_src + np_spacing_1))))%R)
      <$> seq 0 17)
   / 17)%R.

(** A source pose and a candidate: every joint of the candidate is the
    source's. *)
Definition coco_zero_pose : arr2 := replicate 4 (replicate 17 0%R).

(** ** Greedy suppression by its description *)

(** The OKS similarity of instance [j] to instance [i], taken with the ROI
    of [i]. *)
Definition oks_between (kp_predictions : arr3) (rois : list roi) (i j : nat) : R :=
  oks_similarity (kp_predictions !!! i) (rois !!! i) (kp_predictions !!! j).

(** The mean of the score channel of every instance. *)
Definition mean_scores (kp_predictions : arr3) : list R :=
  (λ inst : arr2, np_mean (inst !!! 2)) <$> kp_predictions.

(** Greedy suppression of a list of pending instances: the first one is
    kept, the pending ones it suppresses are dropped, and so on until none
    remain.  The kept instances come in the order they are accepted. *)
Inductive greedy_keep (suppresses : nat → nat → Prop)
    `{!∀ i j, Decision (suppresses i j)} : list nat → list nat → Prop :=
| greedy_done : greedy_keep suppresses [] []
| greedy_accept i pending keep :
    greedy_keep suppresses (filter (λ j, ¬ suppresses i j) pending) keep →
    greedy_keep suppresses (i :: pending) (i :: keep).

(** Instance [i] suppresses instance [j]: the OKS similarity of [j] to [i]
    exceeds the threshold. *)
Definition oks_exceeds (kp_predictions : arr3) (rois : list roi) (thresh : R)
    (i j : nat) : Prop :=
  (thresh < oks_between kp_predictions rois i j)%R.

#[global] Instance oks_exceeds_dec kp_predictions rois thresh i j :
  Decision (oks_exceeds kp_predictions rois thresh i j).
Proof. unfold oks_exceeds. apply _. Defined.

Definition two_rois : list roi := [square_roi; square_roi].

(* ===================================================================== *)
(** * Soft-integral decoding: [softmax_integral_tensor] *)
(* ===================================================================== *)

(** A torch tensor: its shape and its entries in row-major order.  The
    sizes are natural numbers, and the device of a tensor is not part of
    the model. *)
Record tensor := Tensor { shape : list nat; data : list R }.

(** The number of entries of a shape *)
Definition numel (s : list nat) : nat := foldr Nat.mul 1 s.

(** [sum of f(k) for k in range(n)] *)
Definition sum_upto (n : nat) (f : nat → R) : R := sum_list (f <$> seq 0 n).

(** [t.reshape(s)] for a shape [s] without [-1] *)
Definition reshape (t : tensor) (s : list nat) : result tensor :=
  if decide (numel s = length (data t)) then Ok (Tensor s (data t))
  else Raise RuntimeError.

(** [t.reshape((n, j, -1))]: the last size is what remains, which torch
    refuses to infer when [n * j] is 0 or does not divide the number of
    entries. *)
Definition reshape_infer (t : tensor) (n j : nat) : result tensor :=
  if decide (n * j = 0) then Raise RuntimeError
  else if decide (length (data t) mod (n * j) = 0)
       then Ok (Tensor [n; j; length (data t) / (n * j)] (data t))
       else Raise RuntimeError.

(** Along an axis of [n] entries with [inner] entries between two
    neighbours, the entry [k] of the lane through flat index [q] has flat
    index [(o * n + k) * inner + r], where [o] counts the axes before and
    [r] those after. *)

(** The softmax along an axis, at the entry of flat index [q] *)
Definition softmax_axis (n inner : nat) (g : nat → R) (q : nat) : R :=
  (exp (g q)
   / sum_upto n (λ k : nat,
       exp (g ((q / (n * inner) * n + k) * inner + q mod inner)%nat)))%R.

(** The sum along an axis, at the entry of flat index [q] of the result *)
Definition sum_axis (n inner : nat) (g : nat → R) (q : nat) : R :=
  sum_upto n (λ k : nat, g ((q / inner * n + k) * inner + q mod inner)%nat).

(** [F.softmax(t, dim)] *)
Definition F_softmax (t : tensor) (dim : nat) : result tensor :=
  match shape t !! dim with
  | None => Raise IndexError
  | Some n =>
      let inner := numel (drop (S dim) (shape t)) in
      Ok (Tensor (shape t)
            (softmax_axis n inner (λ q, data t !!! q) <$> seq 0 (length (data t))))
  end.

(** [t.sum(dim=dim, keepdim=keepdim)] *)
Definition torch_sum (t : tensor) (dim : nat) (keepdim : bool) : result tensor :=
  match shape t !! dim with
  | None => Raise IndexError
  | Some n =>
      let outer := numel (take dim (shape t)) in
      let inner := numel (drop (S dim) (shape t)) in
      Ok (Tensor (take dim (shape t) ++ (if keepdim then [1] else [])
                  ++ drop (S dim) (shape t))
            (sum_axis n inner (λ q, data t !!! q) <$> seq 0 (outer * inner)))
  end.

(** [torch.arange(n, dtype=torch.float32)] *)
Definition torch_arange (n : nat) : tensor := Tensor [n] (INR <$> seq 0 n).

(** [g * v] along the last axis of [m] entries, at flat index [q] *)
Definition mul_last (m : nat) (g v : nat → R) (q : nat) : R :=
  (g q * v (q mod m))%R.

(** [t * v] for a one-axis [v] as long as the last axis of [t].
    (Broadcasting of an axis of length 1 is not modelled: it raises here.) *)
Definition torch_mul (t v : tensor) : result tensor :=
  match shape v with
  | [m] =>
      if decide (last (shape t) = Some m)
      then Ok (Tensor (shape t)
                 (mul_last m (λ q, data t !!! q) (λ i, data v !!! i)
                  <$> seq 0 (length (data t))))
      else Raise RuntimeError
  | _ => Raise RuntimeError
  end.

(** The size of the last of three axes, when the first two are [n] and
    [j]. *)
Definition last_size (n j : nat) (t : tensor) : option nat :=
  match shape t with
  | [n'; j'; c] => if decide (n' = n ∧ j' = j) then Some c else None
  | _ => None
  end.

(** [torch.cat(ts, dim=2)] for tensors of three axes *)
Definition torch_cat_2 (ts : list tensor) : result tensor :=
  match shape <$> ts with
  | [n; j; _] :: _ =>
      match mapM (last_size n j) ts with
      | Some sizes =>
          Ok (Tensor [n; j; foldr Nat.add 0 sizes]
                (concat ((λ o,
                            concat ((λ t, let c := default 0 (last_size n j t) in
                                          take c (drop (o * c) (data t))) <$> ts))
                         <$> seq 0 (n * j))))
      | None => Raise RuntimeError
      end
  | _ => Raise RuntimeError
  end.

Section integral.

(** [torch.cuda.comm.broadcast(tensor, devices)]: the copies of [tensor],
    one per device. *)
Variable cuda_comm_broadcast : tensor → list tensor.

(** [z_dim] is [None] or a size; the third result is [None] with it. *)
Definition generate_3d_integral_preds_tensor (heatmaps : tensor)
    (num_joints x_dim y_dim : nat) (z_dim : option nat)
  : result (tensor * tensor * option tensor) :=
  match z_dim with
  | Some z_dim =>
      (n <- index_or_raise (shape heatmaps !! 0) ;;
       heatmaps <- reshape heatmaps [n; num_joints; z_dim; y_dim; x_dim] ;;
       accu_x <- torch_sum heatmaps 2 false ;;
       accu_x <- torch_sum accu_x 2 false ;;
       accu_y <- torch_sum heatmaps 2 false ;;
       accu_y <- torch_sum accu_y 3 false ;;
       accu_z <- torch_sum heatmaps 3 false ;;
       accu_z <- torch_sum accu_z 3 false ;;
       range_x <- index_or_raise (cuda_comm_broadcast (torch_arange x_dim) !! 0) ;;
       accu_x <- torch_mul accu_x range_x ;;
       range_y <- index_or_raise (cuda_comm_broadcast (torch_arange y_dim) !! 0) ;;
       accu_y <- torch_mul accu_y range_y ;;
       range_z <- index_or_raise (cuda_comm_broadcast (torch_arange z_dim) !! 0) ;;
       accu_z <- torch_mul accu_z range_z ;;
       accu_x <- torch_sum accu_x 2 true ;;
       accu_y <- torch_sum accu_y 2 true ;;
       accu_z <- torch_sum accu_z 2 true ;;
       Ok (accu_x, accu_y, Some accu_z))%res
  | None =>
      (n <- index_or_raise (shape heatmaps !! 0) ;;
       heatmaps <- reshape heatmaps [n; num_joints; y_dim; x_dim] ;;
       accu_x <- torch_sum heatmaps 2 false ;;
       accu_y <- torch_sum heatmaps 3 false ;;
       range_x <- index_or_raise (cuda_comm_broadcast (torch_arange x_dim) !! 0) ;;
       accu_x <- torch_mul accu_x range_x ;;
       range_y <- index_or_raise (cuda_comm_broadcast (torch_arange y_dim) !! 0) ;;
       accu_y <- torch_mul accu_y range_y ;;
       accu_x <- torch_sum accu_x 2 true ;;
       accu_y <- torch_sum accu_y 2 true ;;
       Ok (accu_x, accu_y, None))%res
  end.

Definition softmax_integral_tensor (preds : tensor)
    (num_joints hm_width hm_height : nat) (hm_depth : option nat) : result tensor :=
  ((* global soft max *)
   n <- index_or_raise (shape preds !! 0) ;;
   preds <- reshape_infer preds n num_joints ;;
   preds <- F_softmax preds 2 ;;
   (* integrate heatmap into joint location *)
   match hm_depth with
   | Some hm_depth =>
       xyz <- generate_3d_integral_preds_tensor preds num_joints hm_width hm_height
                (Some hm_depth) ;;
       match xyz with
       | (x, y, Some z) => torch_cat_2 [x; y; z]
       | (_, _, None) => Raise RuntimeError
       end
   | None =>
       xyz <- generate_3d_integral_preds_tensor preds num_joints hm_width hm_height None ;;
       torch_cat_2 [xyz.1.1; xyz.1.2]
   end)%res.

End integral.

(** ** The expectation by its description *)

(** The softmax of the entries of joint [j] of instance [n], each with [D]
    entries: the probability of the position with flat index [d]. *)
Definition joint_prob (preds : tensor) (J D n j d : nat) : R :=
  (exp (data preds !!! ((n * J + j) * D + d)%nat)
   / sum_upto D (λ d' : nat, exp (data preds !!! ((n * J + j) * D + d')%nat)))%R.

(** The expectation of a coordinate of the positions [0 .. D-1] under the
    probabilities [p]. *)
Definition expectation (D : nat) (p : nat → R) (coord : nat → nat) : R :=
  sum_upto D (λ d : nat, (p d * INR (coord d))%R).

(** The marginal probability that the coordinate is [i]: the sum over the
    positions that have it. *)
Definition marginal (D : nat) (p : nat → R) (coord : nat → nat) (i : nat) : R :=
  sum_upto D (λ d : nat, if decide (coord d = i) then p d else 0%R).

(** The marginal weighted by the index values [0 .. extent-1] and summed. *)
Definition weighted_marginal (D : nat) (p : nat → R) (coord : nat → nat)
    (extent : nat) : R :=
  sum_upto extent (λ i : nat, (marginal D p coord i * INR i)%R).

(** The coordinates of the position with flat index [d] in a map of [y]
    rows of [x] entries, and its plane. *)
Definition x_of (x : nat) (d : nat) : nat := d mod x.
Definition y_of (x y : nat) (d : nat) : nat := d / x mod y.
Definition z_of (x y : nat) (d : nat) : nat := d / (x * y).

(** The number of positions of a joint, and of coordinates in the result. *)
Definition positions (x y : nat) (z : option nat) : nat :=
  match z with Some z => z * y * x | None => y * x end.
Definition coordinates (z : option nat) : nat :=
  match z with Some _ => 3 | None => 2 end.

(** [out[n, j, c]] of a tensor of shape (N, J, C) *)
Definition entry3 (out : tensor) (J C n j c : nat) : option R :=
  data out !! ((n * J + j) * C + c).

(** The tensor of shape [s] whose entry of flat index [q] is [g q]. *)
Definition tab (s : list nat) (g : nat → R) : tensor :=
  Tensor s (g <$> seq 0 (numel s)).

(** A broadcast that returns the tensor itself for the one device. *)
Definition broadcast_here (t : tensor) : list tensor := [t].

(** The scores of one joint of one instance at two positions, both 0. *)
Definition pair_map : tensor := Tensor [1; 2] [0; 0]%R.


(* ===================================================================== *)
(** * Further functions of the module and what their results are
      measured against *)
(* ===================================================================== *)

(** ** The cells of the label grid *)


(** ** One flip of a keypoint array *)

(** Joint [j] of the flipped array [b] is joint [j'] of the input [a],
    mirrored: every channel but x is copied, and x is [width - x - 1], or 0
    when the visibility of the joint is 0. *)
Definition mirrored_joint (width : R) (a b : arr3) (j j' : nat) : Prop :=
  ∀ i,
    (∀ c, c ≠ 0 → get3 b i c j = get3 a i c j')
    ∧ get3 b i 0 j
      = (λ x, if decide (get3 a i 2 j' = Some 0%R) then 0%R else (width - x - 1)%R)
          <$> get3 a i 0 j'.

(** The joint indices of the COCO flip map. *)
Definition coco_ids : list (nat * nat) :=
  [(1, 2); (3, 4); (5, 6); (7, 8); (9, 10); (11, 12); (13, 14); (15, 16)].

(** A schema of two joints and a flip map that names a third. *)
Definition two_joint_schema : list string := ["left_eye"; "right_eye"].
Definition stray_flip_map : list (string * string) := [("left_eye", "right_ear")].
Definition two_joint_pose : arr3 := [ [ [1; 2]; [10; 20]; [1; 1] ] ]%R.

(** ** Scores and their shifts *)



(** ** Poses moved in the image *)




(** Two instances at the same place with the scores 1 and 2. *)
Definition twin_poses : arr3 :=
  [ [ replicate 17 0; replicate 17 0; replicate 17 1; replicate 17 1 ];
    [ replicate 17 0; replicate 17 0; replicate 17 2; replicate 17 1 ] ]%R.

(** ** Scores of the soft-integral decoder *)


(* ===================================================================== *)
(** * [flip_heatmaps] *)
(* ===================================================================== *)

(** [a[n, c, y, x]] *)
Definition get4 (a : arr4) (n c y x : nat) : option R :=
  a !! n ≫= (λ inst : arr3, get3 inst c y x).

(** [a[:, c, :, :]] *)
Definition get_plane (a : arr4) (c : nat) : result arr3 :=
  index_or_raise (mapM (λ inst : arr3, inst !! c) a).

(** [a[:, c, :, :] = v] *)
Definition set_plane (a : arr4) (c : nat) (v : arr3) : result arr4 :=
  (old <- get_plane a c ;;
   if decide (shape3 v = shape3 old)
   then Ok (zip_with (λ (inst : arr3) (plane : arr2), <[c := plane]> inst) a v)
   else Raise ValueError)%res.

(** The body of the loop over [flip_map.items()]: the right-hand side of
    each assignment is read from the caller's array. *)
Definition flip_heatmap_pair (keypoints : list string) (heatmaps heatmaps_flipped : loc)
    (item : string * string) : M unit :=
  (let '(lkp, rkp) := item in
   lid <- lift (list_index keypoints lkp) ;;
   rid <- lift (list_index keypoints rkp) ;;
   src <- load4 heatmaps ;;
   v <- lift (get_plane src lid) ;;
   dst <- load4 heatmaps_flipped ;;
   dst <- lift (set_plane dst rid v) ;;
   write heatmaps_flipped (Arr4 dst) ;;
   src <- load4 heatmaps ;;
   v <- lift (get_plane src rid) ;;
   dst <- load4 heatmaps_flipped ;;
   dst <- lift (set_plane dst lid v) ;;
   write heatmaps_flipped (Arr4 dst))%py.

(** [a[:, :, :, ::-1]] *)
Definition reverse_last (a : arr4) : arr4 :=
  (λ inst : arr3, (λ plane : arr2, reverse <$> plane) <$> inst) <$> a.

(** [heatmaps_flipped[:, :, :, ::-1]] is a view of the copy; the copy is
    reachable through this view only, so the view is modelled as a new
    array with the entries in reversed order. *)
Definition flip_heatmaps (heatmaps : loc) : M loc :=
  (let '(keypoints, flip_map) := get_keypoints in
   heatmaps_flipped <- np_copy heatmaps ;;
   for_each flip_map (flip_heatmap_pair keypoints heatmaps heatmaps_flipped) ;;
   cur <- load4 heatmaps_flipped ;;
   alloc (Arr4 (reverse_last cur)))%py.

(** Two calls in a row, the second on the array the first returned. *)
Definition flip_heatmaps_twice (heatmaps : loc) : M loc :=
  (once <- flip_heatmaps heatmaps ;; flip_heatmaps once)%py.

(** The channels of an instance taken in the order [f]. *)
Definition permute_channels (f : nat → nat) (inst : arr3) : arr3 :=
  (λ c, inst !!! f c) <$> seq 0 (length inst).

(** Heatmaps of one instance with 17 channels of 1 x 2 cells, channel [c]
    holding [c] and [c + 100]; and heatmaps with two channels only. *)
Definition coco_heatmaps : arr4 :=
  [ (λ c, [ [INR c; (INR c + 100)%R] ]) <$> seq 0 17 ].
Definition two_channel_heatmaps : arr4 := [ [ [ [1; 2] ]; [ [3; 4] ] ] ]%R.

(** The channel the COCO flip map exchanges with channel [c]: the left and
    the right joint of a pair sit in the channels [2 i + 1] and [2 i + 2];
    the nose (channel 0) and channels beyond the schema have no partner. *)
Definition coco_partner (c : nat) : nat :=
  if decide (c = 0 ∨ 17 ≤ c) then c else if Nat.odd c then c + 1 else c - 1.

(* ===================================================================== *)
(** * [get_max_preds] *)
(* ===================================================================== *)

(** A function that can raise, applied along an axis. *)
Fixpoint res_mapM {A B} (f : A → result B) (l : list A) : result (list B) :=
  match l with
  | [] => Ok []
  | x :: l' => (y <- f x ;; ys <- res_mapM f l' ;; Ok (y :: ys))%res
  end.

(** [a.shape[1]] and [a.shape[3]] of rectangular heatmaps.  Nested lists
    do not record the sizes behind an axis of size 0; in those cases the
    function raises before the sizes are used. *)
Definition shape_1 (a : arr4) : nat :=
  match a with
  | inst :: _ => length inst
  | [] => 0
  end.

Definition shape_3 (a : arr4) : nat :=
  match a with
  | ((row :: _) :: _) :: _ => length row
  | _ => 0
  end.

(** [a.reshape((batch_size, num_joints, -1))]: numpy cannot infer the last
    size when the sizes it is given multiply to 0. *)
Definition reshape_planes (batch_size num_joints : nat) (a : arr4) : result arr3 :=
  if decide (batch_size * num_joints = 0) then Raise ValueError
  else Ok ((λ inst : arr3, (λ plane : arr2, concat plane) <$> inst) <$> a).

(** [x % w] and [np.floor(x / w)] on floats, for [w] other than 0. *)
Definition np_mod (x w : R) : R := (x - w * IZR (Int_part (x / w)))%R.
Definition np_floor_div (x w : R) : R := IZR (Int_part (x / w)).

(** [a[:, :, c] = f(a[:, :, c])] *)
Definition map_last (c : nat) (f : R → R) (a : arr3) : arr3 :=
  (λ inst : arr2, (λ row : list R, alter f c row) <$> inst) <$> a.

(** [np.tile(a, (1, 1, 2))] *)
Definition tile_last {A} (a : list (list (list A))) : list (list (list A)) :=
  (λ inst : list (list A), (λ row : list A, row ++ row) <$> inst) <$> a.

(** [np.greater(x, 0.0)] as a float. *)
Definition greater_0 (x : R) : R := if decide (0 < x)%R then 1%R else 0%R.

(** [a *= b] on arrays of one shape. *)
Definition mul3 (a b : arr3) : arr3 :=
  zip_with (zip_with (zip_with Rmult)) a b.

(** The indices are small integers, which [astype(np.float32)] keeps as
    they are. *)
Definition get_max_preds (batch_heatmaps : loc) : M (loc * loc) :=
  (v <- load batch_heatmaps ;;
   match v with
   | Arr4 a =>
       let batch_size := length a in
       let num_joints := shape_1 a in
       let width := shape_3 a in
       heatmaps_reshaped <- lift (reshape_planes batch_size num_joints a) ;;
       idx <- lift (res_mapM (res_mapM np_argmax) heatmaps_reshaped) ;;
       maxvals <- lift (res_mapM (res_mapM np_max) heatmaps_reshaped) ;;
       let maxvals : arr3 := (λ inst : list R, (λ v : R, [v]) <$> inst) <$> maxvals in
       let idx : list (list (list nat)) :=
         (λ inst : list nat, (λ i : nat, [i]) <$> inst) <$> idx in
       let preds : arr3 :=
         (λ inst : list (list nat), (λ row : list nat, INR <$> row) <$> inst)
           <$> tile_last idx in
       let preds := map_last 0 (λ p, np_mod p (INR width)) preds in
       let preds := map_last 1 (λ p, np_floor_div p (INR width)) preds in
       let pred_mask : arr3 :=
         tile_last ((λ inst : arr2, (λ row : list R, greater_0 <$> row) <$> inst) <$> maxvals) in
       let preds := mul3 preds pred_mask in
       preds <- alloc (Arr3 preds) ;;
       maxvals <- alloc (Arr3 maxvals) ;;
       mret (preds, maxvals)
   | _ => mraise AssertionError
   end)%py.

(** What [get_max_preds] returns for one heatmap with [w] columns: the
    column and the row of the first maximum when the maximum is positive,
    the origin otherwise. *)
Definition max_pred (plane : arr2) (w : nat) : list R :=
  if decide (0 < max_of (concat plane))%R
  then [INR (peak_x plane w); INR (peak_y plane w)]
  else [0%R; 0%R].

(** Heatmaps of one instance and two joints on a 2 x 3 grid: the first
    with its maximum in row 1, column 2, the second without a positive
    score. *)
Definition two_joint_heatmaps : arr4 :=
  [ [ [ [0; 1; 0]; [0; 2; 5] ]; [ [-1; -2; -3]; [-4; -5; -6] ] ] ]%R.

(** Heatmaps of one instance and one joint without cells. *)
Definition cellless_heatmaps : arr4 := [ [ [ []; [] ] ] ].


(* ===================================================================== *)
(** * Reasoning about the monad: postconditions on result and store *)
(* ===================================================================== *)


Lemma wp_ret {A} (a : A) σ Q : Q (Ok a) σ → wp (mret a) σ Q.
Proof. done. Qed.

Lemma wp_raise {A} e σ (Q : result A → store → Prop) : Q (Raise e) σ → wp (mraise e) σ Q.
Proof. done. Qed.

Lemma wp_lift {A} (r : result A) σ Q : Q r σ → wp (lift r) σ Q.
Proof. done. Qed.

Lemma wp_bind {A B} (m : M A) (k : A → M B) σ Q :
  wp m σ (λ r σ', match r with
                  | inl e => Q (inl e) σ'
                  | inr a => wp (k a) σ' Q
                  end) →
  wp (mbind m k) σ Q.
Proof. unfold wp, mbind. by destruct (m σ) as [[e|a] σ']. Qed.

Lemma wp_mono {A} (m : M A) σ (Q Q' : result A → store → Prop) :
  wp m σ Q → (∀ r σ', Q r σ' → Q' r σ') → wp m σ Q'.
Proof. unfold wp. auto. Qed.

Lemma wp_load l σ Q :
  match σ !! l with
  | Some v => Q (Ok v) σ
  | None => Q (Raise NoSuchObject) σ
  end →
  wp (load l) σ Q.
Proof. unfold wp, load. by destruct (σ !! l). Qed.

Lemma wp_load3 l σ Q :
  match σ !! l with
  | Some (Arr3 a) => Q (Ok a) σ
  | Some _ => Q (Raise IndexError) σ
  | None => Q (Raise NoSuchObject) σ
  end →
  wp (load3 l) σ Q.
Proof. unfold wp, load3, mbind, load. by destruct (σ !! l) as [[]|]. Qed.

Lemma wp_load4 l σ Q :
  match σ !! l with
  | Some (Arr4 a) => Q (Ok a) σ
  | Some _ => Q (Raise IndexError) σ
  | None => Q (Raise NoSuchObject) σ
  end →
  wp (load4 l) σ Q.
Proof. unfold wp, load4, mbind, load. by destruct (σ !! l) as [[]|]. Qed.

Lemma wp_write l v σ Q : Q (Ok tt) (<[l := v]> σ) → wp (write l v) σ Q.
Proof. done. Qed.

Lemma wp_alloc v σ Q :
  (∀ l, l ∉ dom σ → Q (Ok l) (<[l := v]> σ)) → wp (alloc v) σ Q.
Proof. intros H. apply H, is_fresh. Qed.

(** A loop keeps an invariant of the store that each iteration keeps,
    whether the iteration returns or raises. *)
Lemma wp_for_each_inv {A} (I : store → Prop) (xs : list A) body σ :
  I σ →
  (∀ x σ1, x ∈ xs → I σ1 → wp (body x) σ1 (λ _ σ2, I σ2)) →
  wp (for_each xs body) σ (λ _ σ', I σ').
Proof.
  revert σ. induction xs as [|x xs IH]; intros σ HI Hbody; [done|].
  simpl. apply wp_bind.
  eapply wp_mono; [apply Hbody; [left|done]|].
  intros [e|[]] σ' HI'; [done|].
  apply IH; [done|]. intros y σ1 Hy. apply Hbody. by right.
Qed.

(* ===================================================================== *)
(** * Arrays: shape and entries *)
(* ===================================================================== *)

Lemma shape3_lookup (a : arr3) i :
  shape3 a !! i = (λ inst : arr2, length <$> inst) <$> a !! i.
Proof. unfold shape3. by rewrite list_lookup_fmap. Qed.

Lemma shape3_length (a b : arr3) : shape3 a = shape3 b → length a = length b.
Proof. intros H%(f_equal length). unfold shape3 in H. by rewrite !length_fmap in H. Qed.

Lemma fmap_length_eq_lookup {A B} (l : list (list A)) (k : list (list B)) c :
  length <$> l = length <$> k → length <$> l !! c = length <$> k !! c.
Proof. intros H. by rewrite <-!list_lookup_fmap, H. Qed.


Lemma get3_lookup (a : arr3) i c k inst row :
  a !! i = Some inst → inst !! c = Some row → get3 a i c k = row !! k.
Proof. intros Ha Hc. unfold get3. rewrite Ha. simpl. by rewrite Hc. Qed.


Lemma rows_of_shape3 K (a b : arr3) : shape3 a = shape3 b → rows_of K a → rows_of K b.
Proof.
  intros Hs Ha. apply Forall_lookup. intros i ib Hib.
  apply Forall_lookup. intros c rb Hrb.
  assert (Hi := f_equal (λ s, s !! i) Hs). simpl in Hi. rewrite !shape3_lookup, Hib in Hi.
  destruct (a !! i) as [ia|] eqn:Hia; simplify_eq/=.
  assert (Hc := fmap_length_eq_lookup ia ib c Hi). rewrite Hrb in Hc.
  destruct (ia !! c) as [ra|] eqn:Hra; simplify_eq/=.
  assert (Forall (λ row : list R, length row = K) ia) as Hia'
    by (eapply Forall_lookup_1; eauto).
  rewrite <-Hc. exact (Forall_lookup_1 _ _ _ _ Hia' Hra).
Qed.

Lemma get3_is_Some_shape (a b : arr3) i c k :
  shape3 a = shape3 b → is_Some (get3 a i c k) → is_Some (get3 b i c k).
Proof.
  intros Hs. unfold get3.
  assert (Hi := f_equal (λ s, s !! i) Hs). simpl in Hi. rewrite !shape3_lookup in Hi.
  destruct (a !! i) as [ia|] eqn:Hia, (b !! i) as [ib|] eqn:Hib; simplify_eq/=;
    [|by intros [? ?]].
  assert (Hc := fmap_length_eq_lookup ia ib c Hi).
  destruct (ia !! c) as [ra|] eqn:Hra, (ib !! c) as [rb|] eqn:Hrb; simplify_eq/=;
    [|by intros [? ?]].
  rewrite !lookup_lt_is_Some. by rewrite Hc.
Qed.

Lemma mapM_lookup {A B} (f : A → option B) (l : list A) (k : list B) i :
  mapM f l = Some k → k !! i = l !! i ≫= f.
Proof.
  intros H%mapM_Some_1. revert i.
  induction H as [|x y l k Hxy _ IH]; intros [|i]; simpl; auto.
Qed.

Lemma lookup_same_length {A B} (l : list A) (k : list B) i x :
  length l = length k → l !! i = Some x → ∃ y, k !! i = Some y.
Proof.
  intros Hlen Hx%lookup_lt_Some. apply lookup_lt_is_Some. lia.
Qed.

Lemma lookup_None_same_length {A B} (l : list A) (k : list B) i :
  length l = length k → l !! i = None → k !! i = None.
Proof. intros Hlen Hx%lookup_ge_None. apply lookup_ge_None. lia. Qed.

Lemma lengths_lookup {A B} (l : list (list A)) (k : list (list B)) i x :
  length <$> l = length <$> k → l !! i = Some x →
  ∃ y, k !! i = Some y ∧ length y = length x.
Proof.
  intros H Hx. assert (Hi := fmap_length_eq_lookup l k i H).
  rewrite Hx in Hi. destruct (k !! i) as [y|]; simplify_eq/=. eauto.
Qed.

Lemma lengths_lookup_None {A B} (l : list (list A)) (k : list (list B)) i :
  length <$> l = length <$> k → l !! i = None → k !! i = None.
Proof.
  intros H Hx. assert (Hi := fmap_length_eq_lookup l k i H).
  rewrite Hx in Hi. by destruct (k !! i).
Qed.

(** ** [a[:, :, k]] *)

Lemma get_joint_Ok (a : arr3) k v :
  get_joint a k = Ok v →
  shape2 v = length <$> a ∧ ∀ i c, get2 v i c = get3 a i c k.
Proof.
  unfold get_joint. destruct (mapM _ a) as [v'|] eqn:Hm; intros ?; simplify_eq/=.
  split.
  - apply mapM_Some_1 in Hm. unfold shape2.
    induction Hm as [|inst vi a v Hi _ IH]; [done|]. simpl. f_equal; [|done].
    symmetry. by eapply length_mapM.
  - intros i c. unfold get2, get3. rewrite (mapM_lookup _ _ _ i Hm).
    destruct (a !! i) as [inst|] eqn:Ha; [simpl|done].
    destruct (mapM _ inst) as [vi|] eqn:Hvi; simpl.
    + by rewrite (mapM_lookup _ _ _ c Hvi).
    + apply mapM_Some_1 in Hm.
      destruct (Forall2_lookup_l _ _ _ _ _ Hm Ha) as (vi & _ & Hvi'). congruence.
Qed.

Lemma get_joint_in_range (a : arr3) k v i c inst (row : list R) :
  get_joint a k = Ok v → a !! i = Some inst → inst !! c = Some row →
  k < length row.
Proof.
  unfold get_joint. destruct (mapM _ a) as [v'|] eqn:Hm; intros ? Ha Hc; simplify_eq/=.
  apply mapM_Some_1 in Hm.
  destruct (Forall2_lookup_l _ _ _ _ _ Hm Ha) as (vi & _ & Hvi).
  apply mapM_Some_1 in Hvi.
  destruct (Forall2_lookup_l _ _ _ _ _ Hvi Hc) as (x & _ & Hx).
  by eapply lookup_lt_Some.
Qed.

Lemma get_joint_is_Ok K (a : arr3) k :
  rows_of K a → k < K → ∃ v, get_joint a k = Ok v.
Proof.
  intros Ha Hk. unfold get_joint.
  destruct (mapM_is_Some_2 (mapM (λ row : list R, row !! k)) a) as [v Hv].
  - eapply Forall_impl; [exact Ha|]. intros inst Hinst. simpl.
    apply mapM_is_Some_2. eapply Forall_impl; [exact Hinst|].
    intros row Hrow. simpl in *. apply lookup_lt_is_Some. lia.
  - exists v. by rewrite Hv.
Qed.

(** ** [a[:, :, k] = v] *)

Lemma set_joint_Ok (a : arr3) k v b :
  set_joint a k v = Ok b →
  shape3 b = shape3 a ∧
  ∀ i c j, get3 b i c j = if decide (j = k) then get2 v i c else get3 a i c j.
Proof.
  unfold set_joint. destruct (get_joint a k) as [e|v0] eqn:Hg; [done|]. simpl.
  case_decide as Hs; [|done]. intros ?; simplify_eq/=.
  unfold shape2 in Hs.
  assert (∀ i, zip_with (zip_with (λ (row : list R) x, <[k:=x]> row)) a v !! i
    = inst ← a !! i; vi ← v !! i; Some (zip_with (λ (row : list R) x, <[k:=x]> row) inst vi))
    as Hb by (intros; apply lookup_zip_with).
  split.
  - apply list_eq. intros i. rewrite !shape3_lookup, Hb.
    destruct (a !! i) as [inst|] eqn:Ha; [simpl|done].
    destruct (lengths_lookup a v i inst) as (vi & -> & Hlen); [done..|]. simpl.
    f_equal. apply list_eq. intros c. rewrite !list_lookup_fmap, lookup_zip_with.
    destruct (inst !! c) as [row|] eqn:Hc; [simpl|done].
    destruct (lookup_same_length inst vi c row) as [x ->]; [done..|]. simpl.
    by rewrite length_insert.
  - intros i c j. unfold get3 at 1. rewrite Hb. unfold get2, get3.
    destruct (a !! i) as [inst|] eqn:Ha; simpl.
    + destruct (lengths_lookup a v i inst) as (vi & -> & Hlen); [done..|]. simpl.
      rewrite lookup_zip_with.
      destruct (inst !! c) as [row|] eqn:Hc; simpl.
      * destruct (lookup_same_length inst vi c row) as [x ->]; [done..|]. simpl.
        assert (k < length row) by eauto using get_joint_in_range.
        rewrite list_lookup_insert. repeat case_decide; try done; intuition lia.
      * rewrite (lookup_None_same_length inst vi c); [|done..]. by case_decide.
    + assert (v !! i = None) as -> by (symmetry in Hs; eauto using lengths_lookup_None).
      by case_decide.
Qed.

Lemma set_joint_is_Ok K (a : arr3) k v :
  rows_of K a → k < K → shape2 v = length <$> a → ∃ b, set_joint a k v = Ok b.
Proof.
  intros Ha Hk Hs. unfold set_joint.
  destruct (get_joint_is_Ok K a k Ha Hk) as [v0 ->]. simpl.
  rewrite decide_True by done. eauto.
Qed.

(** ** [a[:, c, :]] and [a[:, c, :] = v] *)

Lemma get_channel_Ok (a : arr3) c v :
  get_channel a c = Ok v →
  length v = length a ∧
  (∀ i inst, a !! i = Some inst → ∃ row, inst !! c = Some row ∧ v !! i = Some row) ∧
  ∀ i k, get2 v i k = get3 a i c k.
Proof.
  unfold get_channel. destruct (mapM _ a) as [v'|] eqn:Hm; intros ?; simplify_eq/=.
  assert (Hm' := Hm). apply mapM_Some_1 in Hm'.
  split; [symmetry; by eapply length_mapM|]. split.
  - intros i inst Ha. destruct (Forall2_lookup_l _ _ _ _ _ Hm' Ha) as (row & ? & ?). eauto.
  - intros i k. unfold get2, get3. rewrite (mapM_lookup _ _ _ i Hm).
    destruct (a !! i) as [inst|]; [simpl|done]. by destruct (inst !! c).
Qed.

Lemma get_channel_is_Ok (a : arr3) c :
  Forall (λ inst : arr2, c < length inst) a → ∃ v, get_channel a c = Ok v.
Proof.
  intros Ha. unfold get_channel.
  destruct (mapM_is_Some_2 (λ inst : arr2, inst !! c) a) as [v Hv].
  - eapply Forall_impl; [exact Ha|]. intros inst Hinst. simpl in *.
    by apply lookup_lt_is_Some.
  - exists v. by rewrite Hv.
Qed.

Lemma set_channel_Ok (a : arr3) c v b :
  set_channel a c v = Ok b →
  shape3 b = shape3 a ∧
  ∀ i c' k, get3 b i c' k = if decide (c' = c) then get2 v i k else get3 a i c' k.
Proof.
  unfold set_channel. destruct (get_channel a c) as [e|old] eqn:Hg; [done|]. simpl.
  case_decide as Hs; [|done]. intros ?; simplify_eq/=.
  destruct (get_channel_Ok _ _ _ Hg) as (Hlen & Hrow & _).
  unfold shape2 in Hs.
  assert (∀ i, zip_with (λ (inst : arr2) row, <[c:=row]> inst) a v !! i
    = inst ← a !! i; row ← v !! i; Some (<[c:=row]> inst))
    as Hb by (intros; apply lookup_zip_with).
  assert (length v = length a) as Hlen'.
  { apply (f_equal length) in Hs. rewrite !length_fmap in Hs. lia. }
  split.
  - apply list_eq. intros i. rewrite !shape3_lookup, Hb.
    destruct (a !! i) as [inst|] eqn:Ha; [simpl|done].
    destruct (Hrow i inst Ha) as (row & Hc & Hold).
    destruct (lengths_lookup old v i row) as (row' & -> & Hlr); [done..|]. simpl.
    f_equal. apply list_eq. intros c'. rewrite !list_lookup_fmap, list_lookup_insert.
    case_decide as Hd; [|done]. destruct Hd as [<- _]. rewrite Hc. simpl. by f_equal.
  - intros i c' k. unfold get3 at 1. rewrite Hb. unfold get2, get3.
    destruct (a !! i) as [inst|] eqn:Ha; simpl.
    + destruct (Hrow i inst Ha) as (row & Hc & Hold).
      destruct (lengths_lookup old v i row) as (row' & -> & Hlr); [done..|]. simpl.
      assert (c < length inst) by eauto using lookup_lt_Some.
      rewrite list_lookup_insert. repeat case_decide; try done; intuition lia.
    + rewrite (lookup_None_same_length a v i); [|done..]. by case_decide.
Qed.

Lemma set_channel_is_Ok (a : arr3) c v old :
  get_channel a c = Ok old → shape2 v = shape2 old → ∃ b, set_channel a c v = Ok b.
Proof.
  intros Hold Hs. unfold set_channel. rewrite Hold. simpl.
  rewrite decide_True by done. eauto.
Qed.

(** ** [np.where] and assignment at index pairs *)

Lemma elem_of_where_eq0_row (row : list R) k :
  k ∈ where_eq0_row row ↔ row !! k = Some 0%R.
Proof.
  unfold where_eq0_row. rewrite list_elem_of_filter, elem_of_seq. split; [tauto|].
  intros H. split; [done|]. apply lookup_lt_Some in H. lia.
Qed.

Lemma elem_of_np_where_eq0 (v : arr2) i k :
  (i, k) ∈ np_where_eq0 v ↔ get2 v i k = Some 0%R.
Proof.
  unfold np_where_eq0, get2. rewrite list_elem_of_In, in_concat. split.
  - intros (l & Hl & Hin). apply list_elem_of_In in Hl, Hin.
    apply elem_of_lookup_imap in Hl as (i' & row & -> & Hrow).
    apply list_elem_of_fmap in Hin as (k' & Heq & Hk).
    injection Heq as -> ->.
    rewrite Hrow. simpl. by apply elem_of_where_eq0_row.
  - destruct (v !! i) as [row|] eqn:Hrow; [simpl|done]. intros Hk.
    exists ((λ k, (i, k)) <$> where_eq0_row row). rewrite <-!list_elem_of_In. split.
    + apply elem_of_lookup_imap. eauto.
    + apply list_elem_of_fmap. exists k. by rewrite elem_of_where_eq0_row.
Qed.

Lemma point_set_spec (a : arr3) i0 c k0 x :
  shape3 (alter (alter (<[k0:=x]>) c) i0 a) = shape3 a ∧
  ∀ i c' k, get3 (alter (alter (<[k0:=x]>) c) i0 a) i c' k
    = if decide (i = i0 ∧ c' = c ∧ k = k0) then const x <$> get3 a i c k
      else get3 a i c' k.
Proof.
  split.
  - apply list_eq. intros i. rewrite !shape3_lookup, list_lookup_alter.
    case_decide; [subst|done]. destruct (a !! i) as [inst|]; [simpl|done].
    f_equal. apply list_eq. intros c'. rewrite !list_lookup_fmap, list_lookup_alter.
    case_decide; [subst|done]. destruct (inst !! c') as [row|]; [simpl|done].
    by rewrite length_insert.
  - intros i c' k. unfold get3. rewrite list_lookup_alter.
    destruct (decide (i0 = i)) as [->|]; [|by rewrite decide_False by (intros (-> & _); done)].
    destruct (a !! i) as [inst|]; simpl; [|by case_decide].
    rewrite list_lookup_alter.
    destruct (decide (c = c')) as [->|]; [|by rewrite decide_False by (intros (_ & -> & _); done)].
    destruct (inst !! c') as [row|]; simpl; [|by case_decide].
    rewrite list_lookup_insert.
    destruct (decide (k0 = k)) as [->|].
    + destruct (row !! k) eqn:Hk.
      * apply lookup_lt_Some in Hk. by rewrite !decide_True by done.
      * apply lookup_ge_None in Hk. rewrite decide_False by lia. by case_decide.
    + by rewrite !decide_False by (intros H; destruct H as (? & ? & ?) || destruct H; congruence || lia).
Qed.

Lemma set_points_spec (a : arr3) c inds x :
  shape3 (set_points a c inds x) = shape3 a ∧
  ∀ i c' k, get3 (set_points a c inds x) i c' k
    = if decide (c' = c ∧ (i, k) ∈ inds) then const x <$> get3 a i c k
      else get3 a i c' k.
Proof.
  unfold set_points. revert a. induction inds as [|[i0 k0] inds IH]; intros a.
  - split; [done|]. intros i c' k. rewrite decide_False; [done|].
    intros [_ H]. by apply elem_of_nil in H.
  - simpl. destruct (IH (alter (alter (<[k0:=x]>) c) i0 a)) as [Hs Hg].
    destruct (point_set_spec a i0 c k0 x) as [Hs0 Hg0].
    split; [by rewrite Hs|].
    intros i c' k. rewrite Hg, !Hg0.
    destruct (decide (c' = c ∧ (i, k) ∈ (i0, k0) :: inds)) as [[-> Hin]|Hn].
    + apply elem_of_cons in Hin. destruct (decide ((i, k) ∈ inds)).
      * rewrite decide_True by done. case_decide; [|done]. by destruct (get3 a i c k).
      * destruct Hin as [Heq|]; [|done]. injection Heq as -> ->.
        rewrite decide_False by tauto. by rewrite decide_True by done.
    + assert (¬ (c' = c ∧ (i, k) ∈ inds)) by (rewrite elem_of_cons in Hn; tauto).
      rewrite decide_False by done. rewrite decide_False; [done|].
      intros (-> & -> & ->). apply Hn. split; [done|left].
Qed.


(* ===================================================================== *)
(** * [flip_keypoints] *)
(* ===================================================================== *)

Lemma mbind_Ok {A B} (m : M A) (k : A → M B) σ a σ' :
  m σ = (Ok a, σ') → mbind m k σ = k a σ'.
Proof. unfold mbind. by intros ->. Qed.

Lemma lift_Ok {A} (r : result A) a σ : r = Ok a → lift r σ = (Ok a, σ).
Proof. by intros ->. Qed.

Lemma load3_Ok l σ a : σ !! l = Some (Arr3 a) → load3 l σ = (Ok a, σ).
Proof. intros H. unfold load3, mbind, load. by rewrite H. Qed.

Lemma load4_Ok l σ a : σ !! l = Some (Arr4 a) → load4 l σ = (Ok a, σ).
Proof. intros H. unfold load4, mbind, load. by rewrite H. Qed.

(** One iteration of the loop over the flip map. *)
Lemma flip_pair_run keypoints kp fl lkp rkp lid rid K (a dst : arr3) (σ : store) :
  list_index keypoints lkp = Ok lid → list_index keypoints rkp = Ok rid →
  lid < K → rid < K → rows_of K a → kp ≠ fl →
  σ !! kp = Some (Arr3 a) → σ !! fl = Some (Arr3 dst) → shape3 dst = shape3 a →
  ∃ dst', flip_pair keypoints kp fl (lkp, rkp) σ = (Ok tt, <[fl := Arr3 dst']> σ)
    ∧ shape3 dst' = shape3 a
    ∧ ∀ i c j, get3 dst' i c j
        = if decide (j = rid) then get3 a i c lid
          else if decide (j = lid) then get3 a i c rid
          else get3 dst i c j.
Proof.
  intros Hl Hr HlK HrK Hrows Hne Hkp Hfl Hshape.
  assert (rows_of K dst) as Hrows_dst by (eapply rows_of_shape3; [|done]; done).
  destruct (get_joint_is_Ok K a rid Hrows HrK) as [v1 Hv1].
  destruct (get_joint_Ok _ _ _ Hv1) as [Hs1 Hg1].
  destruct (set_joint_is_Ok K dst lid v1) as [d1 Hd1]; [done..| |].
  { rewrite Hs1. apply (f_equal (fmap length)) in Hshape. unfold shape3 in Hshape.
    rewrite <-!list_fmap_compose in Hshape.
    apply list_eq. intros i. apply (f_equal (λ s, s !! i)) in Hshape.
    rewrite !list_lookup_fmap in *. destruct (a !! i), (dst !! i); simplify_eq/=; [|done].
    by rewrite !length_fmap in Hshape; rewrite Hshape. }
  destruct (set_joint_Ok _ _ _ _ Hd1) as [Hsd1 Hgd1].
  assert (rows_of K d1) as Hrows_d1.
  { eapply rows_of_shape3; [|exact Hrows]. by rewrite Hsd1. }
  destruct (get_joint_is_Ok K a lid Hrows HlK) as [v2 Hv2].
  destruct (get_joint_Ok _ _ _ Hv2) as [Hs2 Hg2].
  destruct (set_joint_is_Ok K d1 rid v2) as [d2 Hd2]; [done..| |].
  { rewrite Hs2. assert (shape3 d1 = shape3 a) as Hshape' by congruence.
    apply (f_equal (fmap length)) in Hshape'. unfold shape3 in Hshape'.
    rewrite <-!list_fmap_compose in Hshape'.
    apply list_eq. intros i. apply (f_equal (λ s, s !! i)) in Hshape'.
    rewrite !list_lookup_fmap in *. destruct (a !! i), (d1 !! i); simplify_eq/=; [|done].
    by rewrite !length_fmap in Hshape'; rewrite Hshape'. }
  destruct (set_joint_Ok _ _ _ _ Hd2) as [Hsd2 Hgd2].
  exists d2. split; [|split].
  - unfold flip_pair.
    rewrite (mbind_Ok _ _ _ lid σ) by by apply lift_Ok.
    rewrite (mbind_Ok _ _ _ rid σ) by by apply lift_Ok.
    rewrite (mbind_Ok _ _ _ a σ) by by apply load3_Ok.
    rewrite (mbind_Ok _ _ _ v1 σ) by by apply lift_Ok.
    rewrite (mbind_Ok _ _ _ dst σ) by by apply load3_Ok.
    rewrite (mbind_Ok _ _ _ d1 σ) by by apply lift_Ok.
    rewrite (mbind_Ok _ _ _ tt (<[fl := Arr3 d1]> σ)) by done.
    rewrite (mbind_Ok _ _ _ a (<[fl := Arr3 d1]> σ))
      by (apply load3_Ok; by rewrite lookup_insert_ne).
    rewrite (mbind_Ok _ _ _ v2 (<[fl := Arr3 d1]> σ)) by by apply lift_Ok.
    rewrite (mbind_Ok _ _ _ d1 (<[fl := Arr3 d1]> σ))
      by (apply load3_Ok; by rewrite lookup_insert_eq).
    rewrite (mbind_Ok _ _ _ d2 (<[fl := Arr3 d1]> σ)) by by apply lift_Ok.
    unfold write. by rewrite insert_insert_eq.
  - congruence.
  - intros i c j. rewrite Hgd2, Hgd1, Hg1, Hg2.
    repeat case_decide; subst; done.
Qed.

(** The loop over the flip map: slot [j] ends with the input's joint
    [src_from f ids j]. *)
Lemma flip_pairs_run keypoints kp fl K (a : arr3) items :
  rows_of K a → kp ≠ fl →
  ∀ ids (σ : store) dst f,
    joint_ids keypoints items = Ok ids →
    Forall (λ p, p.1 < K ∧ p.2 < K) ids →
    σ !! kp = Some (Arr3 a) → σ !! fl = Some (Arr3 dst) → shape3 dst = shape3 a →
    (∀ i c j, get3 dst i c j = get3 a i c (f j)) →
    ∃ dst', for_each items (flip_pair keypoints kp fl) σ = (Ok tt, <[fl := Arr3 dst']> σ)
      ∧ shape3 dst' = shape3 a
      ∧ ∀ i c j, get3 dst' i c j = get3 a i c (src_from f ids j).
Proof.
  intros Hrows Hne. induction items as [|[lkp rkp] items IH];
    intros ids σ dst f Hids HK Hkp Hfl Hshape Hdst.
  - simpl in Hids. injection Hids as <-. exists dst. split; [|done].
    simpl. unfold mret. by rewrite insert_id.
  - simpl in Hids.
    destruct (list_index keypoints lkp) as [|lid] eqn:Hl; [done|].
    destruct (list_index keypoints rkp) as [|rid] eqn:Hr; [done|].
    destruct (joint_ids keypoints items) as [|ids'] eqn:Hids'; [done|].
    simpl in Hids. injection Hids as <-.
    apply Forall_cons in HK as [[HlK HrK] HK]. simpl in HlK, HrK.
    destruct (flip_pair_run keypoints kp fl lkp rkp lid rid K a dst σ)
      as (d1 & Hrun1 & Hs1 & Hg1); [done..|].
    destruct (IH ids' (<[fl := Arr3 d1]> σ) d1 (swap_src f lid rid))
      as (d2 & Hrun2 & Hs2 & Hg2); [done|done| | |done| |].
    + by rewrite lookup_insert_ne.
    + by rewrite lookup_insert_eq.
    + intros i c j. rewrite Hg1. unfold swap_src. repeat case_decide; auto.
    + exists d2. split; [|done]. simpl.
      rewrite (mbind_Ok _ _ _ tt (<[fl := Arr3 d1]> σ)) by done.
      by rewrite Hrun2, insert_insert_eq.
Qed.

Lemma shape3_channels (a b : arr3) :
  shape3 a = shape3 b →
  Forall (λ inst : arr2, 3 ≤ length inst) a → Forall (λ inst : arr2, 3 ≤ length inst) b.
Proof.
  intros Hs Ha. apply Forall_lookup. intros i ib Hib.
  assert (Hi := f_equal (λ s, s !! i) Hs). simpl in Hi. rewrite !shape3_lookup, Hib in Hi.
  destruct (a !! i) as [ia|] eqn:Hia; simplify_eq/=.
  apply (f_equal length) in Hi. rewrite !length_fmap in Hi. rewrite <-Hi.
  by eapply (Forall_lookup_1 _ _ _ _ Ha).
Qed.

(** One flip of a keypoint array: the function returns a new array whose
    entries are [flipped_entry]. *)
Lemma flip_keypoints_run keypoints flip_map kp width K (a : arr3) ids (σ : store) :
  σ !! kp = Some (Arr3 a) → kp_array K a →
  joint_ids keypoints flip_map = Ok ids →
  Forall (λ p, p.1 < K ∧ p.2 < K) ids →
  ∃ l b, flip_keypoints keypoints flip_map kp width σ = (Ok l, <[l := Arr3 b]> σ)
    ∧ (l ∉ dom σ)
    ∧ shape3 b = shape3 a
    ∧ ∀ i c j, get3 b i c j = flipped_entry (src_map ids) width a i c j.
Proof.
  intros Hkp [Hch Hrows] Hids HK.
  pose (l := fresh (dom σ)).
  assert (l ∉ dom σ) as Hfresh by apply is_fresh.
  assert (kp ≠ l) as Hne.
  { intros ->. apply Hfresh, elem_of_dom. eauto. }
  destruct (flip_pairs_run keypoints kp l K a flip_map Hrows Hne ids
              (<[l := Arr3 a]> σ) a (λ j, j))
    as (d1 & Hloop & Hs1 & Hg1); [done|done| | |done|done|].
  { by rewrite lookup_insert_ne. }
  { by rewrite lookup_insert_eq. }
  rewrite insert_insert_eq in Hloop.
  (* the x channel *)
  destruct (get_channel_is_Ok d1 0) as [xs Hxs].
  { eapply Forall_impl; [eapply shape3_channels; [symmetry; exact Hs1|exact Hch]|].
    intros inst ?. simpl in *. lia. }
  destruct (get_channel_Ok _ _ _ Hxs) as (Hlen_xs & _ & Hgxs).
  destruct (set_channel_is_Ok d1 0 ((λ row : list R, (λ x, width - x - 1)%R <$> row) <$> xs) xs)
    as [d2 Hd2]; [done| |].
  { unfold shape2. rewrite <-list_fmap_compose. apply list_fmap_ext.
    intros i row _. simpl. by rewrite length_fmap. }
  destruct (set_channel_Ok _ _ _ _ Hd2) as [Hs2 Hg2].
  (* the visibility channel *)
  destruct (get_channel_is_Ok d2 2) as [vis Hvis].
  { eapply Forall_impl; [eapply shape3_channels; [|exact Hch]|].
    - by rewrite Hs2, Hs1.
    - intros inst ?. simpl in *. lia. }
  destruct (get_channel_Ok _ _ _ Hvis) as (_ & _ & Hgvis).
  destruct (set_points_spec d2 0 (np_where_eq0 vis) 0%R) as [Hs3 Hg3].
  exists l, (set_points d2 0 (np_where_eq0 vis) 0%R).
  split; [|split; [done|split; [congruence|]]].
  - unfold flip_keypoints, np_copy.
    rewrite (mbind_Ok _ _ _ l (<[l := Arr3 a]> σ)).
    2:{ rewrite (mbind_Ok _ _ _ (Arr3 a) σ); [done|]. unfold load. by rewrite Hkp. }
    rewrite (mbind_Ok _ _ _ tt (<[l := Arr3 d1]> σ)) by done.
    rewrite (mbind_Ok _ _ _ d1 (<[l := Arr3 d1]> σ))
      by (apply load3_Ok; by rewrite lookup_insert_eq).
    rewrite (mbind_Ok _ _ _ xs (<[l := Arr3 d1]> σ)) by by apply lift_Ok.
    rewrite (mbind_Ok _ _ _ d1 (<[l := Arr3 d1]> σ))
      by (apply load3_Ok; by rewrite lookup_insert_eq).
    rewrite (mbind_Ok _ _ _ d2 (<[l := Arr3 d1]> σ)) by by apply lift_Ok.
    rewrite (mbind_Ok _ _ _ tt (<[l := Arr3 d2]> σ))
      by (unfold write; by rewrite insert_insert_eq).
    rewrite (mbind_Ok _ _ _ d2 (<[l := Arr3 d2]> σ))
      by (apply load3_Ok; by rewrite lookup_insert_eq).
    rewrite (mbind_Ok _ _ _ vis (<[l := Arr3 d2]> σ)) by by apply lift_Ok.
    rewrite (mbind_Ok _ _ _ d2 (<[l := Arr3 d2]> σ))
      by (apply load3_Ok; by rewrite lookup_insert_eq).
    rewrite (mbind_Ok _ _ _ tt (<[l := Arr3 (set_points d2 0 (np_where_eq0 vis) 0%R)]> σ))
      by (unfold write; by rewrite insert_insert_eq).
    done.
  - intros i c j. rewrite Hg3. unfold flipped_entry, src_map.
    assert (∀ c', get3 d2 i c' j
      = if decide (c' = 0) then (λ x, width - x - 1)%R <$> get3 a i 0 (src_from (λ j, j) ids j)
        else get3 a i c' (src_from (λ j, j) ids j)) as Hd2'.
    { intros c'. rewrite Hg2. case_decide; [|apply Hg1].
      unfold get2. rewrite list_lookup_fmap. rewrite <-(Hg1 i 0 j), <-Hgxs. unfold get2.
      destruct (xs !! i) as [row|]; [simpl|done]. by rewrite list_lookup_fmap. }
    assert ((i, j) ∈ np_where_eq0 vis ↔ get3 a i 2 (src_from (λ j, j) ids j) = Some 0%R) as Hin.
    { rewrite elem_of_np_where_eq0, Hgvis, Hd2'. rewrite decide_False by lia. tauto. }
    assert (Hx := Hd2' 0). rewrite decide_True in Hx by done.
    destruct (decide (c = 0)) as [->|Hc].
    + rewrite !Hx.
      destruct (decide (get3 a i 2 (src_from (λ j, j) ids j) = Some 0%R)) as [Hv|Hv].
      * rewrite decide_True by tauto. by destruct (get3 a i 0 (src_from (λ j, j) ids j)).
      * by rewrite decide_False by tauto.
    + rewrite decide_False by tauto. rewrite Hd2'. by rewrite decide_False by done.
Qed.

(** ** The joint sources under a flip map of disjoint pairs *)

Lemma src_from_cons f l r ids :
  src_from f ((l, r) :: ids) = src_from (swap_src f l r) ids.
Proof. done. Qed.

Lemma src_from_snoc f ids l r :
  src_from f (ids ++ [(l, r)]) = swap_src (src_from f ids) l r.
Proof. unfold src_from. by rewrite foldl_snoc. Qed.

Lemma src_from_notin f ids j :
  j ∉ ids.*1 ++ ids.*2 → src_from f ids j = f j.
Proof.
  revert f. induction ids as [|[l r] ids IH]; intros f Hj; [done|].
  assert (j ≠ l ∧ j ≠ r ∧ (j ∉ ids.*1 ++ ids.*2)) as (H1 & H2 & H3).
  { simpl in Hj. rewrite not_elem_of_cons, not_elem_of_app, not_elem_of_cons in Hj.
    rewrite not_elem_of_app. tauto. }
  rewrite src_from_cons, IH by done.
  unfold swap_src. by rewrite !decide_False by done.
Qed.

Lemma NoDup_pairs_snoc (ids : list (nat * nat)) l r :
  NoDup ((ids ++ [(l, r)]).*1 ++ (ids ++ [(l, r)]).*2) →
  NoDup (ids.*1 ++ ids.*2) ∧ l ≠ r ∧ (l ∉ ids.*1 ++ ids.*2) ∧ (r ∉ ids.*1 ++ ids.*2).
Proof.
  rewrite !fmap_app. simpl.
  intros (H1 & H2 & H3)%NoDup_app.
  apply NoDup_app in H1 as (H1a & H1b & _).
  apply NoDup_app in H3 as (H3a & H3b & _).
  split; [|split; [|split]].
  - apply NoDup_app. split; [done|]. split; [|done].
    intros x Hx Hx'. apply (H2 x); apply elem_of_app; by left.
  - intros ->. apply (H2 r); apply elem_of_app; right; left.
  - rewrite not_elem_of_app. split.
    + intros Hl. apply (H1b l Hl). left.
    + intros Hl. apply (H2 l); apply elem_of_app; [right; left|by left].
  - rewrite not_elem_of_app. split.
    + intros Hr. apply (H2 r); apply elem_of_app; [by left|right; left].
    + intros Hr. apply (H3b r Hr). left.
Qed.

Lemma src_map_involutive ids j :
  NoDup (ids.*1 ++ ids.*2) → src_map ids (src_map ids j) = j.
Proof.
  unfold src_map. revert j.
  induction ids as [|[l r] ids IH] using rev_ind; intros j Hnd; [done|].
  apply NoDup_pairs_snoc in Hnd as (Hnd & Hlr & Hl & Hr).
  rewrite !src_from_snoc.
  assert (src_from (λ j, j) ids l = l) as Hfl by by apply src_from_notin.
  assert (src_from (λ j, j) ids r = r) as Hfr by by apply src_from_notin.
  unfold swap_src at 2.
  destruct (decide (j = r)) as [->|Hjr].
  { unfold swap_src. rewrite decide_False by done. by rewrite decide_True by done. }
  destruct (decide (j = l)) as [->|Hjl].
  { unfold swap_src. by rewrite decide_True by done. }
  unfold swap_src.
  rewrite decide_False.
  2:{ intros Heq. apply Hjr. rewrite <-(IH j Hnd), Heq. done. }
  rewrite decide_False.
  2:{ intros Heq. apply Hjl. rewrite <-(IH j Hnd), Heq. done. }
  by apply IH.
Qed.

(** ** The expected array *)






(** ** The input array of [flip_keypoints] is not written *)

Lemma same_shape_refl v : same_shape v v.
Proof. by destruct v. Qed.

Lemma same_shape_Arr3 v (b b' : arr3) :
  same_shape v (Arr3 b) → shape3 b' = shape3 b → same_shape v (Arr3 b').
Proof. destruct v; simpl; congruence. Qed.


Lemma flip_inv_write kp fl v (σ : store) (b b' : arr3) :
  kp ≠ fl → flip_inv kp fl v σ → σ !! fl = Some (Arr3 b) → shape3 b' = shape3 b →
  flip_inv kp fl v (<[fl := Arr3 b']> σ).
Proof.
  intros Hne [Hkp (w & Hw & Hsame)] Hb Hs. split.
  - by rewrite lookup_insert_ne.
  - exists (Arr3 b'). rewrite lookup_insert_eq. split; [done|].
    rewrite Hb in Hw. injection Hw as <-. by eapply same_shape_Arr3.
Qed.

Lemma flip_pair_inv keypoints kp fl item v (σ : store) :
  kp ≠ fl → flip_inv kp fl v σ →
  wp (flip_pair keypoints kp fl item) σ (λ _ σ', flip_inv kp fl v σ').
Proof.
  intros Hne Hinv. destruct item as [lkp rkp]. unfold flip_pair.
  apply wp_bind, wp_lift. destruct (list_index keypoints lkp) as [e|lid]; [done|].
  apply wp_bind, wp_lift. destruct (list_index keypoints rkp) as [e|rid]; [done|].
  apply wp_bind, wp_load3. destruct (σ !! kp) as [[|src|]|] eqn:Hkp; try done.
  apply wp_bind, wp_lift. destruct (get_joint src rid) as [e|v1]; [done|].
  apply wp_bind, wp_load3. destruct (σ !! fl) as [[|dst|]|] eqn:Hfl; try done.
  apply wp_bind, wp_lift. destruct (set_joint dst lid v1) as [e|d1] eqn:Hd1; [done|].
  apply wp_bind, wp_write.
  assert (flip_inv kp fl v (<[fl := Arr3 d1]> σ)) as Hinv1.
  { eapply flip_inv_write; [done..|]. by apply set_joint_Ok in Hd1 as [? _]. }
  apply wp_bind, wp_load3. rewrite lookup_insert_ne by done. rewrite Hkp.
  apply wp_bind, wp_lift. destruct (get_joint src lid) as [e|v2]; [done|].
  apply wp_bind, wp_load3. rewrite lookup_insert_eq.
  apply wp_bind, wp_lift. destruct (set_joint d1 rid v2) as [e|d2] eqn:Hd2; [done|].
  apply wp_write.
  eapply flip_inv_write; [done..|by rewrite lookup_insert_eq|].
  by apply set_joint_Ok in Hd2 as [? _].
Qed.

Lemma flip_keypoints_frame keypoints flip_map kp width (σ : store) v :
  σ !! kp = Some v →
  wp (flip_keypoints keypoints flip_map kp width) σ
     (λ r σ', σ' !! kp = Some v
              ∧ ∀ l, r = Ok l → (l ∉ dom σ) ∧ ∃ w, σ' !! l = Some w ∧ same_shape v w).
Proof.
  intros Hkp. unfold flip_keypoints, np_copy.
  apply wp_bind, wp_bind, wp_load. rewrite Hkp.
  apply wp_alloc. intros fl Hfresh.
  assert (kp ≠ fl) as Hne by (intros ->; apply Hfresh, elem_of_dom; eauto).
  assert (flip_inv kp fl v (<[fl := v]> σ)) as Hinv0.
  { split; [by rewrite lookup_insert_ne|]. exists v.
    rewrite lookup_insert_eq. eauto using same_shape_refl. }
  apply wp_bind.
  eapply wp_mono; [apply (wp_for_each_inv (flip_inv kp fl v)); [done|]|].
  { intros item σ1 _ Hinv1. by apply flip_pair_inv. }
  intros [e|[]] σ1 Hinv1; [split; [apply Hinv1|done]|].
  assert (∀ r σ', flip_inv kp fl v σ' → (∀ l, r = Ok l → l = fl) →
    σ' !! kp = Some v ∧ ∀ l : nat, r = Ok l →
      (l ∉ dom σ) ∧ ∃ w, σ' !! l = Some w ∧ same_shape v w) as Hfin.
  { intros r σ' [? ?] Hr. split; [done|]. intros l ->%Hr. done. }
  apply wp_bind, wp_load3. destruct (σ1 !! fl) as [[|cur|]|] eqn:Hfl;
    try (apply Hfin; [done|intros; discriminate]).
  apply wp_bind, wp_lift. destruct (get_channel cur 0) as [e|xs];
    [apply Hfin; [done|intros; discriminate]|].
  apply wp_bind, wp_load3. rewrite Hfl.
  apply wp_bind, wp_lift.
  destruct (set_channel cur 0 _) as [e|cur1] eqn:Hcur1;
    [apply Hfin; [done|intros; discriminate]|].
  apply wp_bind, wp_write.
  assert (flip_inv kp fl v (<[fl := Arr3 cur1]> σ1)) as Hinv2.
  { eapply flip_inv_write; [done..|]. by apply set_channel_Ok in Hcur1 as [? _]. }
  apply wp_bind, wp_load3. rewrite lookup_insert_eq.
  apply wp_bind, wp_lift. destruct (get_channel cur1 2) as [e|vis];
    [apply Hfin; [done|intros; discriminate]|].
  apply wp_bind, wp_load3. rewrite lookup_insert_eq.
  apply wp_bind, wp_write. apply wp_ret. apply Hfin.
  - eapply flip_inv_write; [done..|by rewrite lookup_insert_eq|].
    apply set_points_spec.
  - intros l [= ->]. done.
Qed.


(* ===================================================================== *)
(** * [keypoints_to_heatmap_labels] *)
(* ===================================================================== *)



(** ** Assignment at a list of indices *)




(** ** One axis *)



(** ** A column of the keypoint array *)



(** ** One joint *)



(** ** Column assignment and the loop over the joints *)






(** ** The whole encoder *)

Lemma cfg_KRCNN_globals_with c : cfg_KRCNN (globals_with c) = Ok c.
Proof. unfold cfg_KRCNN, global, globals_with. by rewrite lookup_insert_eq. Qed.



(** ** The value the boundary rule replaces *)







(** ** Validity, label and weight *)




(** ** A ROI without width *)

Lemma scale_of_zero_width size r :
  (0 < size)%Z → x1 r = x2 r → scale_of size x1 x2 [r] = [PInf].
Proof.
  intros Hs Heq. unfold scale_of. simpl. rewrite decide_True by lra.
  unfold inf_signed. rewrite decide_True; [done|]. by apply IZR_lt.
Qed.




(* ===================================================================== *)
(** * Maximum, argmax, flattening and transposition *)
(* ===================================================================== *)

Lemma foldl_Rmax_spec x (l : list R) :
  (foldl Rmax x l = x ∨ foldl Rmax x l ∈ l)
  ∧ (x <= foldl Rmax x l)%R
  ∧ ∀ y, y ∈ l → (y <= foldl Rmax x l)%R.
Proof.
  revert x. induction l as [|z l IH]; intros x; simpl.
  - split; [by left|]. split; [lra|]. intros y Hy. by apply elem_of_nil in Hy.
  - destruct (IH (Rmax x z)) as (Hin & Hle & Hub). split; [|split].
    + destruct Hin as [->|Hin]; [|right; by right].
      unfold Rmax. destruct (Rle_dec x z); [right; left|by left].
    + pose proof (Rmax_l x z). lra.
    + intros y [->|Hy]%elem_of_cons; [|by apply Hub].
      pose proof (Rmax_r x z). lra.
Qed.

Lemma max_of_elem (l : list R) : l ≠ [] → max_of l ∈ l.
Proof.
  destruct l as [|x l]; [done|]. intros _. simpl.
  destruct (foldl_Rmax_spec x l) as ([->|Hin] & _ & _); [left|by right].
Qed.

Lemma max_of_upper (l : list R) y : y ∈ l → (y <= max_of l)%R.
Proof.
  destruct l as [|x l]; [by intros ?%elem_of_nil|]. simpl.
  destruct (foldl_Rmax_spec x l) as (_ & Hle & Hub).
  intros [->|Hy]%elem_of_cons; auto.
Qed.

Lemma max_of_unique (l : list R) x :
  x ∈ l → (∀ y, y ∈ l → (y <= x)%R) → max_of l = x.
Proof.
  intros Hx Hub. assert (l ≠ []) as Hne by (intros ->; by apply elem_of_nil in Hx).
  apply Rle_antisym; [apply Hub, max_of_elem; done|by apply max_of_upper].
Qed.

Lemma np_max_max_of (l : list R) : l ≠ [] → np_max l = Ok (max_of l).
Proof. by destruct l. Qed.

(** A monotone map commutes with the maximum. *)
Lemma max_of_fmap_mono (f : R → R) (l : list R) :
  (∀ a b, (a <= b)%R → (f a <= f b)%R) → l ≠ [] →
  max_of (f <$> l) = f (max_of l).
Proof.
  intros Hf Hne. apply max_of_unique.
  - apply list_elem_of_fmap_2. by apply max_of_elem.
  - intros y (x & -> & Hx)%list_elem_of_fmap. apply Hf. by apply max_of_upper.
Qed.

Lemma argmax_from_lookup (pre l : list R) bi b :
  pre !! bi = Some b →
  (pre ++ l) !! argmax_from bi b (length pre) l = Some (foldl Rmax b l).
Proof.
  revert pre bi b. induction l as [|y l IH]; intros pre bi b Hb.
  - simpl. by rewrite app_nil_r.
  - simpl. replace (pre ++ y :: l) with ((pre ++ [y]) ++ l) by by rewrite <-app_assoc.
    replace (S (length pre)) with (length (pre ++ [y])) by (rewrite length_app; simpl; lia).
    case_decide as Hlt.
    + rewrite (Rmax_right b y) by lra. apply IH.
      rewrite lookup_app_r by lia. by rewrite Nat.sub_diag.
    + rewrite (Rmax_left b y) by lra. apply IH. by apply lookup_app_l_Some.
Qed.

(** The entry at the argmax is the maximum. *)
Lemma np_argmax_lookup (l : list R) pos :
  np_argmax l = Ok pos → l !! pos = Some (max_of l).
Proof.
  destruct l as [|x l]; [done|]. intros [= <-].
  apply (argmax_from_lookup [x] l 0 x). done.
Qed.

Lemma np_argmax_is_Ok (l : list R) : l ≠ [] → ∃ pos, np_argmax l = Ok pos.
Proof. destruct l; [done|]. simpl. eauto. Qed.

(** ** Flat indices of a matrix *)

Lemma concat_length_matrix {A} h w (m : list (list A)) :
  matrix_of h w m → length (concat m) = h * w.
Proof.
  intros [<- Hrows]. induction Hrows as [|row m Hrow _ IH]; [done|].
  simpl. rewrite length_app, IH, Hrow. lia.
Qed.

Lemma concat_lookup_matrix {A} h w (m : list (list A)) pos :
  matrix_of h w m → pos < h * w →
  concat m !! pos = m !! (pos / w) ≫= (λ row, row !! (pos mod w)).
Proof.
  intros [<- Hrows]. revert pos.
  induction Hrows as [|row m Hrow _ IH]; intros pos Hpos; [simpl in Hpos; lia|].
  simpl in Hpos. assert (0 < w) by (destruct w; lia).
  simpl. destruct (decide (pos < w)) as [Hlt|Hge].
  - rewrite lookup_app_l by lia. rewrite Nat.div_small, Nat.mod_small by done. done.
  - rewrite lookup_app_r by lia. rewrite Hrow, IH by lia.
    assert (pos / w = S ((pos - w) / w)) as Hd.
    { replace pos with ((pos - w) + 1 * w) at 1 by lia. rewrite Nat.div_add by lia. lia. }
    assert (pos mod w = (pos - w) mod w) as Hm.
    { replace pos with ((pos - w) + 1 * w) at 1 by lia. by rewrite Nat.Div0.mod_add. }
    by rewrite Hd, Hm.
Qed.

Lemma flat_index_row pos w : 0 < w → (pos - pos mod w) / w = pos / w.
Proof.
  intros Hw. rewrite (Nat.div_mod_eq pos w) at 1.
  replace (w * (pos / w) + pos mod w - pos mod w) with ((pos / w) * w) by lia.
  by rewrite Nat.div_mul by lia.
Qed.

Lemma concat_fmap_fmap {A B} (f : A → B) (m : list (list A)) :
  concat ((λ row : list A, f <$> row) <$> m) = f <$> concat m.
Proof.
  induction m as [|row m IH]; [done|]. rewrite fmap_cons. cbn [concat].
  by rewrite IH, fmap_app.
Qed.

(** ** Transposition *)

Lemma transpose_cons2 {A} (row row' : list A) rest :
  transpose (row :: row' :: rest) = zip_with cons row (transpose (row' :: rest)).
Proof. done. Qed.

(** Transposing an [r] by [c] matrix gives a [c] by [r] matrix, and keeps
    what holds of every entry. *)
Lemma transpose_matrix {A} (P : A → Prop) r c (m : list (list A)) :
  matrix_of r c m → 0 < r → Forall (Forall P) m →
  matrix_of c r (transpose m) ∧ Forall (Forall P) (transpose m).
Proof.
  intros [<- Hrows] Hr HP.
  induction m as [|row m IH]; [simpl in Hr; lia|].
  apply Forall_cons in Hrows as [Hrow Hrows]. apply Forall_cons in HP as [HProw HP].
  destruct m as [|row' rest].
  - simpl. split; [split|].
    + by rewrite length_fmap.
    + apply Forall_fmap. by apply Forall_true.
    + apply Forall_fmap. eapply Forall_impl; [exact HProw|]. intros x Hx. simpl.
      by repeat constructor.
  - rewrite transpose_cons2.
    destruct IH as [[Hlen Hcols] HPt]; [done|simpl; lia|done|].
    split; [split|].
    + rewrite length_zip_with. lia.
    + apply Forall_lookup. intros j col Hj.
      apply lookup_zip_with_Some in Hj as (x & col' & -> & Hx & Hcol').
      assert (Hl := Forall_lookup_1 _ _ _ _ Hcols Hcol'). simpl in *. lia.
    + apply Forall_lookup. intros j col Hj.
      apply lookup_zip_with_Some in Hj as (x & col' & -> & Hx & Hcol').
      apply Forall_cons. split.
      * by apply (Forall_lookup_1 _ _ _ _ HProw Hx).
      * by apply (Forall_lookup_1 _ _ _ _ HPt Hcol').
Qed.

(** The HWC view of a CHW array, and back. *)
Lemma chw_of_hwc_array h w c (a : arr3) :
  hwc_array h w c a → 0 < h → 0 < w → chw_array c h w (chw_of_hwc a).
Proof.
  intros [Hlen Hrows] Hh Hw. unfold chw_of_hwc.
  destruct (transpose_matrix (λ row : list R, length row = w) h c
              ((λ x : arr2, transpose x) <$> a)) as [[Hl Hm] HP].
  - split; [by rewrite length_fmap|]. apply Forall_fmap.
    eapply Forall_impl; [exact Hrows|]. intros x Hx. simpl.
    by destruct (transpose_matrix (λ _, True) w c x Hx Hw) as [[? _] _];
      [apply Forall_true; intros; by apply Forall_true|].
  - done.
  - apply Forall_fmap. eapply Forall_impl; [exact Hrows|]. intros x Hx. simpl.
    destruct (transpose_matrix (λ _, True) w c x Hx Hw) as [[_ ?] _];
      [apply Forall_true; intros; by apply Forall_true|done].
  - split; [done|]. apply Forall_lookup. intros k plane Hk. split.
    + by apply (Forall_lookup_1 _ _ _ _ Hm Hk).
    + by apply (Forall_lookup_1 _ _ _ _ HP Hk).
Qed.

Lemma hwc_of_chw_array c h w (a : arr3) :
  chw_array c h w a → 0 < c → 0 < h → hwc_array h w c (hwc_of_chw a).
Proof.
  intros [Hlen Hplanes] Hc Hh. unfold hwc_of_chw.
  destruct (transpose_matrix (λ row : list R, length row = w) c h a) as [[Hl Hm] HP].
  - split; [done|]. eapply Forall_impl; [exact Hplanes|]. by intros x [? _].
  - done.
  - eapply Forall_impl; [exact Hplanes|]. by intros x [_ ?].
  - split; [by rewrite length_fmap|]. apply Forall_fmap.
    apply Forall_lookup. intros y x Hy. simpl.
    assert (Hx := Forall_lookup_1 _ _ _ _ Hm Hy). simpl in Hx.
    assert (HPx := Forall_lookup_1 _ _ _ _ HP Hy). simpl in HPx.
    by destruct (transpose_matrix (λ _, True) c w x) as [? _];
      [split|lia|apply Forall_true; intros; by apply Forall_true|].
Qed.


(* ===================================================================== *)
(** * [scores_to_probs] *)
(* ===================================================================== *)

Lemma wp_run {A} (m : M A) σ r σ' (Q : result A → store → Prop) :
  m σ = (r, σ') → Q r σ' → wp m σ Q.
Proof. unfold wp. by intros ->. Qed.

(** A loop whose iterations all return: [I j] holds before iteration [j]. *)
Lemma wp_for_each_ok {A} (I : nat → store → Prop) (xs : list A) body σ :
  I 0 σ →
  (∀ j x σ1, xs !! j = Some x → I j σ1 →
     wp (body x) σ1 (λ r σ2, r = Ok tt ∧ I (S j) σ2)) →
  wp (for_each xs body) σ (λ r σ', r = Ok tt ∧ I (length xs) σ').
Proof.
  revert I σ. induction xs as [|x xs IH]; intros I σ H0 Hbody; [done|].
  simpl. apply wp_bind.
  eapply wp_mono; [apply (Hbody 0 x); done|].
  intros r σ' [-> HI]. simpl.
  apply (IH (λ j, I (S j))); [done|].
  intros j y σ1 Hy. by apply (Hbody (S j)).
Qed.

Lemma softmax_channel_run l c (s : arr3) plane (σ : store) :
  σ !! l = Some (Arr3 s) → s !! c = Some plane → concat plane ≠ [] →
  softmax_channel l c σ
  = (Ok tt, <[l := Arr3 (<[c := softmax_plane plane (max_of (concat plane))]> s)]> σ).
Proof.
  intros Hl Hc Hne. unfold softmax_channel.
  rewrite (mbind_Ok _ _ _ s σ) by by apply load3_Ok.
  rewrite (mbind_Ok _ _ _ plane σ) by (apply lift_Ok; by rewrite Hc).
  rewrite (mbind_Ok _ _ _ (max_of (concat plane)) σ)
    by (apply lift_Ok; by apply np_max_max_of).
  by rewrite (mbind_Ok _ _ _ s σ) by by apply load3_Ok.
Qed.

Lemma scores_to_probs_run l (a : arr3) (σ : store) :
  σ !! l = Some (Arr3 a) → Forall (λ plane : arr2, concat plane ≠ []) a →
  scores_to_probs l σ = (Ok l, <[l := Arr3 (softmax_planes a)]> σ).
Proof.
  intros Hl Hne. unfold scores_to_probs.
  rewrite (mbind_Ok _ _ _ a σ) by by apply load3_Ok.
  pose (soft := λ plane : arr2, softmax_plane plane (max_of (concat plane))).
  pose (I := λ (j : nat) (σ1 : store),
    ∃ s, σ1 = <[l := Arr3 s]> σ ∧ length s = length a
         ∧ ∀ c, s !! c = if decide (c < j) then soft <$> a !! c else a !! c).
  assert (wp (for_each (seq 0 (length a)) (softmax_channel l)) σ
            (λ r σ', r = Ok tt ∧ I (length (seq 0 (length a))) σ')) as Hloop.
  { apply wp_for_each_ok.
    - exists a. split; [by rewrite insert_id|]. split; [done|].
      intros c. by rewrite decide_False by lia.
    - intros j c σ1 Hc (s & -> & Hlen & Hs).
      apply lookup_seq in Hc as [-> Hj]. simpl.
      destruct (lookup_lt_is_Some_2 a j Hj) as [plane Hplane].
      assert (s !! j = Some plane) as Hsj.
      { rewrite Hs. by rewrite decide_False by lia. }
      eapply wp_run.
      { apply (softmax_channel_run l j s plane); [by rewrite lookup_insert_eq|done|].
        by apply (Forall_lookup_1 _ _ _ _ Hne Hplane). }
      split; [done|]. exists (<[j := soft plane]> s).
      split; [by rewrite insert_insert_eq|]. split; [by rewrite length_insert|].
      intros c. rewrite list_lookup_insert.
      destruct (decide (j = c ∧ j < length s)) as [[-> _]|Hn].
      + rewrite decide_True by lia. rewrite Hplane. reflexivity.
      + rewrite Hs. destruct (decide (c < j)).
        * by rewrite decide_True by lia.
        * rewrite decide_False; [done|]. lia. }
  unfold wp in Hloop.
  destruct (for_each _ _ σ) as [r σ'] eqn:Hrun. simpl in Hloop.
  destruct Hloop as [-> (s & -> & Hlen & Hs)].
  rewrite length_seq in Hs.
  assert (s = softmax_planes a) as ->.
  { apply list_eq. intros c. rewrite Hs. unfold softmax_planes.
    rewrite list_lookup_fmap. case_decide as Hc; [done|].
    by rewrite (lookup_ge_None_2 a c) by lia. }
  by rewrite (mbind_Ok _ _ _ tt _ Hrun).
Qed.

(* ===================================================================== *)
(** * The peak of a plane and its softmax *)
(* ===================================================================== *)

Lemma sum_list_nonneg (l : list R) : Forall (λ x, 0 <= x)%R l → (0 <= sum_list l)%R.
Proof. induction 1 as [|x l Hx _ IH]; simpl; lra. Qed.

Lemma softmax_plane_entry (plane : arr2) :
  softmax_plane plane (max_of (concat plane))
  = (λ row : list R, softmax_entry plane <$> row) <$> plane.
Proof.
  unfold softmax_plane. rewrite <-list_fmap_compose. apply list_fmap_ext.
  intros _ row _. simpl. rewrite <-list_fmap_compose. by apply list_fmap_ext.
Qed.

Lemma softmax_entry_mono (plane : arr2) a b :
  (a <= b)%R → (softmax_entry plane a <= softmax_entry plane b)%R.
Proof.
  intros Hab. unfold softmax_entry. set (M := max_of (concat plane)).
  set (total := sum_list _).
  assert (0 <= total)%R as Htot.
  { apply sum_list_nonneg. unfold M. rewrite concat_fmap_fmap.
    apply Forall_fmap, Forall_true. intros t. simpl. left. apply exp_pos. }
  assert (0 <= / total)%R as Hinv.
  { destruct Htot as [Hpos|<-]; [left; by apply Rinv_0_lt_compat|rewrite Rinv_0; lra]. }
  assert (exp (a - M) <= exp (b - M))%R as Hexp.
  { destruct Hab as [Hlt| ->]; [left; apply exp_increasing; lra|lra]. }
  unfold Rdiv. by apply Rmult_le_compat_r.
Qed.

Lemma get2_fmap (f : R → R) (plane : arr2) y x :
  get2 ((λ row : list R, f <$> row) <$> plane) y x = f <$> get2 plane y x.
Proof.
  unfold get2. rewrite list_lookup_fmap.
  destruct (plane !! y) as [row|]; [simpl|done]. by rewrite list_lookup_fmap.
Qed.

(** The position the decoder reads is inside the plane and holds the
    maximum of the raw scores. *)
Lemma peak_of_plane (plane : arr2) h w :
  matrix_of h w plane → 0 < h → 0 < w →
  np_argmax (concat plane) = Ok (argmax_of (concat plane))
  ∧ peak_x plane w < w ∧ peak_y plane w < h
  ∧ get2 plane (peak_y plane w) (peak_x plane w) = Some (max_of (concat plane)).
Proof.
  intros Hm Hh Hw.
  assert (Hlen := concat_length_matrix h w plane Hm).
  assert (np_argmax (concat plane) = Ok (argmax_of (concat plane))) as Harg.
  { destruct (concat plane); [simpl in Hlen; nia|done]. }
  assert (Hpos := np_argmax_lookup _ _ Harg).
  assert (argmax_of (concat plane) < h * w) as Hlt.
  { rewrite <-Hlen. by eapply lookup_lt_Some. }
  unfold peak_y, peak_x. rewrite flat_index_row by done.
  split; [done|]. split; [by apply Nat.mod_upper_bound; lia|].
  split; [apply Nat.Div0.div_lt_upper_bound; lia|].
  unfold get2. by rewrite <-(concat_lookup_matrix h w).
Qed.

(** The softmax has its maximum at the same position: the assertion of
    line 132 holds. *)
Lemma peak_of_softmax (plane : arr2) h w :
  matrix_of h w plane → 0 < h → 0 < w →
  let probs := softmax_plane plane (max_of (concat plane)) in
  concat probs ≠ []
  ∧ get2 probs (peak_y plane w) (peak_x plane w) = Some (max_of (concat probs)).
Proof.
  intros Hm Hh Hw probs.
  destruct (peak_of_plane plane h w Hm Hh Hw) as (_ & _ & _ & Hpeak).
  assert (concat plane ≠ []) as Hne.
  { intros Hnil. assert (Hlen := concat_length_matrix h w plane Hm).
    rewrite Hnil in Hlen. simpl in Hlen. nia. }
  unfold probs. rewrite softmax_plane_entry, concat_fmap_fmap. split.
  - intros Hnil%fmap_nil_inv. done.
  - rewrite get2_fmap, Hpeak. simpl. f_equal.
    symmetry. apply max_of_fmap_mono; [apply softmax_entry_mono|done].
Qed.

(* ===================================================================== *)
(** * [heatmaps_to_keypoints] *)
(* ===================================================================== *)

Lemma write_entry_run l i c k v (a : arr3) (σ : store) :
  (<[l := Arr3 a]> σ) !! l = Some (Arr3 a) →
  write_entry l i c k v (<[l := Arr3 a]> σ)
  = (Ok tt, <[l := Arr3 (alter (alter (<[k := v]>) c) i a)]> σ).
Proof.
  intros Hl. unfold write_entry.
  rewrite (mbind_Ok _ _ _ a _) by by apply load3_Ok.
  unfold write. by rewrite insert_insert_eq.
Qed.

(** One joint: the four entries [[i, 0..3, k]] of [xy_preds] are assigned,
    every other entry is kept. *)
Lemma decode_joint_run roi_map probs xy i w wc hc ox oy k C h
    (rm p : arr3) (σ : store) :
  σ !! roi_map = Some (Arr3 rm) →
  chw_array C h w (chw_of_hwc rm) → 0 < h → 0 < w → k < C →
  σ !! probs = Some (Arr3 (softmax_planes (chw_of_hwc rm))) →
  σ !! xy = Some (Arr3 p) → xy ≠ roi_map → xy ≠ probs →
  ∃ plane p',
    chw_of_hwc rm !! k = Some plane
    ∧ decode_joint roi_map probs xy i w wc hc ox oy k σ = (Ok tt, <[xy := Arr3 p']> σ)
    ∧ shape3 p' = shape3 p
    ∧ ∀ i' c' k',
        get3 p' i' c' k'
        = if decide (i' = i ∧ k' = k)
          then assigned (joint_values plane w wc hc ox oy) c' (get3 p i' c' k')
          else get3 p i' c' k'.
Proof.
  intros Hrm [HC Hplanes] Hh Hw Hk Hprobs Hxy Hne1 Hne2.
  destruct (lookup_lt_is_Some_2 (chw_of_hwc rm) k) as [plane Hplane]; [lia|].
  assert (Hm := Forall_lookup_1 _ _ _ _ Hplanes Hplane). simpl in Hm.
  destruct (peak_of_plane plane h w Hm Hh Hw) as (Harg & Hx & Hy & Hpeak).
  destruct (peak_of_softmax plane h w Hm Hh Hw) as (Hsne & Hspeak).
  set (M := max_of (concat plane)) in *.
  set (sp := softmax_plane plane M) in *.
  set (x_int := peak_x plane w) in *. set (y_int := peak_y plane w) in *.
  assert (softmax_planes (chw_of_hwc rm) !! k = Some sp) as Hsp.
  { unfold softmax_planes. by rewrite list_lookup_fmap, Hplane. }
  set (v0 := ((INR x_int + 0.5) * wc + ox)%R).
  set (v1 := ((INR y_int + 0.5) * hc + oy)%R).
  set (p1 := alter (alter (<[k := v0]>) 0) i p).
  set (p2 := alter (alter (<[k := v1]>) 1) i p1).
  set (p3 := alter (alter (<[k := M]>) 2) i p2).
  set (p4 := alter (alter (<[k := max_of (concat sp)]>) 3) i p3).
  exists plane, p4. split; [done|]. split; [|split].
  - unfold decode_joint.
    rewrite (mbind_Ok _ _ _ rm σ) by by apply load3_Ok.
    rewrite (mbind_Ok _ _ _ plane σ) by (apply lift_Ok; by rewrite Hplane).
    rewrite (mbind_Ok _ _ _ (argmax_of (concat plane)) σ) by by apply lift_Ok.
    rewrite (mbind_Ok _ _ _ _ σ) by by apply load3_Ok.
    rewrite (mbind_Ok _ _ _ sp σ) by (apply lift_Ok; by rewrite Hsp).
    rewrite (mbind_Ok _ _ _ (max_of (concat sp)) σ).
    2:{ apply lift_Ok. unfold get2 in Hspeak.
        change (index_or_raise (sp !! y_int ≫= (λ row : list R, row !! x_int)) = Ok (max_of (concat sp))).
        by rewrite Hspeak. }
    rewrite (mbind_Ok _ _ _ (max_of (concat sp)) σ)
      by (apply lift_Ok; by apply np_max_max_of).
    rewrite decide_True by done.
    rewrite <-(insert_id σ xy (Arr3 p)) at 1 by done.
    rewrite (mbind_Ok _ _ _ tt (<[xy := Arr3 p1]> σ))
      by (apply write_entry_run; by rewrite lookup_insert_eq).
    rewrite (mbind_Ok _ _ _ tt (<[xy := Arr3 p2]> σ))
      by (apply write_entry_run; by rewrite lookup_insert_eq).
    rewrite (mbind_Ok _ _ _ rm (<[xy := Arr3 p2]> σ))
      by (apply load3_Ok; by rewrite lookup_insert_ne).
    rewrite (mbind_Ok _ _ _ M (<[xy := Arr3 p2]> σ)).
    2:{ apply lift_Ok.
        change (index_or_raise (get3 (chw_of_hwc rm) k y_int x_int) = Ok M).
        unfold get3. rewrite Hplane. simpl.
        unfold get2 in Hpeak. by rewrite Hpeak. }
    rewrite (mbind_Ok _ _ _ tt (<[xy := Arr3 p3]> σ))
      by (apply write_entry_run; by rewrite lookup_insert_eq).
    rewrite (mbind_Ok _ _ _ _ (<[xy := Arr3 p3]> σ))
      by (apply load3_Ok; by rewrite lookup_insert_ne).
    rewrite (mbind_Ok _ _ _ (max_of (concat sp)) (<[xy := Arr3 p3]> σ)).
    2:{ apply lift_Ok.
        change (index_or_raise (get3 (softmax_planes (chw_of_hwc rm)) k y_int x_int)
                = Ok (max_of (concat sp))).
        unfold get3. rewrite Hsp. simpl.
        unfold get2 in Hspeak. by rewrite Hspeak. }
    apply write_entry_run. by rewrite lookup_insert_eq.
  - unfold p4, p3, p2, p1.
    rewrite (proj1 (point_set_spec _ _ _ _ _)), (proj1 (point_set_spec _ _ _ _ _)).
    rewrite (proj1 (point_set_spec _ _ _ _ _)). apply point_set_spec.
  - intros i' c' k'. unfold p4, p3, p2, p1.
    rewrite !(proj2 (point_set_spec _ _ _ _ _)). unfold assigned, joint_values.
    destruct (decide (i' = i ∧ k' = k)) as [[-> ->]|Hn].
    + destruct c' as [|[|[|[|c']]]]; simpl.
      * rewrite !decide_False by lia. rewrite decide_True by done.
        by destruct (get3 p i 0 k).
      * rewrite !decide_False by lia. rewrite decide_True by done.
        rewrite !decide_False by lia. by destruct (get3 p i 1 k).
      * rewrite !decide_False by lia. rewrite decide_True by done.
        rewrite !decide_False by lia. by destruct (get3 p i 2 k).
      * rewrite decide_True by done. rewrite !decide_False by lia.
        by destruct (get3 p i 3 k).
      * by rewrite !decide_False by lia.
    + by rewrite !decide_False by (intros (? & ? & ?); apply Hn; done).
Qed.

(** The loop over the joints. *)
Lemma decode_joints_run roi_map probs xy i w wc hc ox oy K C h
    (rm p : arr3) (σ : store) :
  σ !! roi_map = Some (Arr3 rm) →
  chw_array C h w (chw_of_hwc rm) → 0 < h → 0 < w → K ≤ C →
  σ !! probs = Some (Arr3 (softmax_planes (chw_of_hwc rm))) →
  σ !! xy = Some (Arr3 p) → xy ≠ roi_map → xy ≠ probs →
  ∃ p',
    for_each (seq 0 K) (decode_joint roi_map probs xy i w wc hc ox oy) σ
    = (Ok tt, <[xy := Arr3 p']> σ)
    ∧ shape3 p' = shape3 p
    ∧ ∀ i' c' k',
        get3 p' i' c' k'
        = if decide (i' = i ∧ k' < K)
          then assigned (joint_values_at (chw_of_hwc rm) w wc hc ox oy k') c'
                 (get3 p i' c' k')
          else get3 p i' c' k'.
Proof.
  intros Hrm Hchw Hh Hw HK Hprobs Hxy Hne1 Hne2.
  pose (I := λ (j : nat) (σ1 : store),
    ∃ p', σ1 = <[xy := Arr3 p']> σ ∧ shape3 p' = shape3 p
          ∧ ∀ i' c' k',
              get3 p' i' c' k'
              = if decide (i' = i ∧ k' < j)
                then assigned (joint_values_at (chw_of_hwc rm) w wc hc ox oy k') c'
                       (get3 p i' c' k')
                else get3 p i' c' k').
  assert (wp (for_each (seq 0 K) (decode_joint roi_map probs xy i w wc hc ox oy)) σ
            (λ r σ', r = Ok tt ∧ I (length (seq 0 K)) σ')) as Hloop.
  { apply wp_for_each_ok.
    - exists p. split; [by rewrite insert_id|]. split; [done|].
      intros i' c' k'. by rewrite decide_False by lia.
    - intros j k σ1 Hk (p1 & -> & Hs1 & Hg1).
      apply lookup_seq in Hk as [-> Hj]. simpl.
      destruct (decode_joint_run roi_map probs xy i w wc hc ox oy j C h rm p1
                  (<[xy := Arr3 p1]> σ))
        as (plane & p2 & Hplane & Hrun & Hs2 & Hg2);
        [by rewrite lookup_insert_ne|done|done|done|lia
        |by rewrite lookup_insert_ne|by rewrite lookup_insert_eq|done|done|].
      eapply wp_run; [exact Hrun|]. split; [done|].
      exists p2. split; [by rewrite insert_insert_eq|]. split; [congruence|].
      intros i' c' k'. rewrite Hg2, Hg1.
      destruct (decide (i' = i ∧ k' = j)) as [[-> ->]|Hn].
      + rewrite decide_False by lia. rewrite decide_True by lia.
        unfold joint_values_at. by rewrite Hplane.
      + destruct (decide (i' = i ∧ k' < j)) as [[-> Hlt]|Hn'].
        * by rewrite decide_True by lia.
        * rewrite decide_False; [done|]. intros [-> Hlt]. apply Hn'.
          split; [done|]. destruct (decide (k' = j)); [|lia]. tauto. }
  unfold wp in Hloop.
  destruct (for_each _ _ σ) as [r σ'] eqn:Hrun. simpl in Hloop.
  destruct Hloop as [-> (p' & -> & Hs & Hg)]. rewrite length_seq in Hg.
  by exists p'.
Qed.


(** ** The clamped extents *)

Lemma np_ceil_ge_1 r : (1 <= r)%R → (1 ≤ np_ceil r)%Z.
Proof.
  intros Hr. unfold np_ceil.
  destruct (base_Int_part (- r)) as [Hle _].
  assert (IZR (Int_part (- r)) <= IZR (-1))%R as H%le_IZR by (simpl; lra). lia.
Qed.

Lemma roi_width_ge_1 r : (1 <= roi_width r)%R.
Proof. apply Rmax_r. Qed.

Lemma roi_height_ge_1 r : (1 <= roi_height r)%R.
Proof. apply Rmax_r. Qed.

(** The side of the working map is at least 1 whatever the ROI: the
    decoder never divides by zero. *)
Lemma roi_map_side_pos min_size extent :
  (1 <= extent)%R → (1 ≤ roi_map_side min_size extent)%Z.
Proof.
  intros He%np_ceil_ge_1. unfold roi_map_side. case_decide; lia.
Qed.

Lemma shape_2_chw C h w (a : arr3) :
  chw_array C h w a → 0 < C → 0 < h → shape_2 a = w.
Proof.
  intros [Hlen Hplanes] HC Hh.
  destruct a as [|plane a]; [simpl in Hlen; lia|].
  apply Forall_cons in Hplanes as [[Hl Hrows] _].
  destruct plane as [|row plane]; [simpl in Hl; lia|].
  by apply Forall_cons in Hrows as [? _].
Qed.

Lemma chw_planes_nonempty C h w (a : arr3) :
  chw_array C h w a → 0 < h → 0 < w → Forall (λ plane : arr2, concat plane ≠ []) a.
Proof.
  intros [_ Hplanes] Hh Hw. eapply Forall_impl; [exact Hplanes|].
  intros plane Hm Hnil. assert (Hlen := concat_length_matrix h w plane Hm).
  rewrite Hnil in Hlen. simpl in Hlen. nia.
Qed.

Section decoder_proofs.

Variable cv2_resize : arr3 → Z → Z → arr3.
Hypothesis cv2_resize_layout : resize_keeps_layout cv2_resize.

(** One ROI: two arrays are allocated, the entries [[i, :, k]] of
    [xy_preds] are assigned for every joint [k], and nothing else
    changes. *)
Lemma decode_roi_run c maps xy (m : arr4) rois i r maps_i C h0 w0 (p : arr3) (σ : store) :
  σ !! maps = Some (Arr4 m) → m !! i = Some maps_i → rois !! i = Some r →
  chw_array C h0 w0 maps_i → 0 < C → 0 < h0 → 0 < w0 → NUM_KEYPOINTS c ≤ C →
  σ !! xy = Some (Arr3 p) →
  ∃ σ' p',
    decode_roi cv2_resize c maps xy (x1 <$> rois) (y1 <$> rois)
      ((λ w, Rmax w 1) <$> ((λ r, x2 r - x1 r)%R <$> rois))
      ((λ h, Rmax h 1) <$> ((λ r, y2 r - y1 r)%R <$> rois))
      (np_ceil <$> ((λ w, Rmax w 1) <$> ((λ r, x2 r - x1 r)%R <$> rois)))
      (np_ceil <$> ((λ h, Rmax h 1) <$> ((λ r, y2 r - y1 r)%R <$> rois)))
      i σ = (Ok tt, σ')
    ∧ σ' !! xy = Some (Arr3 p')
    ∧ (∀ l, l ∈ dom σ → l ≠ xy → σ' !! l = σ !! l)
    ∧ shape3 p' = shape3 p
    ∧ ∀ i' c' k',
        get3 p' i' c' k'
        = if decide (i' = i ∧ k' < NUM_KEYPOINTS c)
          then assigned (roi_values cv2_resize c m rois i k') c' (get3 p i' c' k')
          else get3 p i' c' k'.
Proof using cv2_resize_layout.
  intros Hmaps Hmi Hr Hchw HC Hh0 Hw0 HK Hxy.
  set (min_size := INFERENCE_MIN_SIZE c).
  set (map_w := roi_map_side min_size (roi_width r)).
  set (map_h := roi_map_side min_size (roi_height r)).
  assert (1 ≤ map_w)%Z as Hmw by apply roi_map_side_pos, roi_width_ge_1.
  assert (1 ≤ map_h)%Z as Hmh by apply roi_map_side_pos, roi_height_ge_1.
  set (rz := cv2_resize (hwc_of_chw maps_i) map_w map_h).
  assert (hwc_array (Z.to_nat map_h) (Z.to_nat map_w) C rz) as Hrz.
  { apply (cv2_resize_layout _ _ _ h0 w0); [|done|done|lia|lia].
    by apply hwc_of_chw_array. }
  assert (chw_array C (Z.to_nat map_h) (Z.to_nat map_w) (chw_of_hwc rz)) as Hroi
    by (apply chw_of_hwc_array; [done|lia|lia]).
  pose (l1 := fresh (dom σ)).
  pose (σ1 := <[l1 := Arr3 rz]> σ).
  pose (l2 := fresh (dom σ1)).
  pose (σ3 := <[l2 := Arr3 (softmax_planes (chw_of_hwc rz))]> σ1).
  assert (l1 ∉ dom σ) as Hl1 by apply is_fresh.
  assert (l2 ∉ dom σ1) as Hl2 by apply is_fresh.
  assert (l2 ≠ l1) as Hl21.
  { intros Heq. apply Hl2. rewrite Heq. unfold σ1. rewrite dom_insert. set_solver. }
  assert (∀ l, l ∈ dom σ → l ≠ l1 ∧ l ≠ l2) as Hold.
  { intros l Hl. split; [by intros ->|]. intros ->. apply Hl2.
    unfold σ1. rewrite dom_insert. set_solver. }
  assert (xy ∈ dom σ) as Hxyd by (apply elem_of_dom; eauto).
  destruct (Hold xy Hxyd) as [Hxy1 Hxy2].
  assert (∀ l, l ∈ dom σ → σ3 !! l = σ !! l) as Hσ3.
  { intros l [? ?]%Hold. unfold σ3, σ1. by rewrite !lookup_insert_ne. }
  destruct (decode_joints_run l1 l2 xy i (Z.to_nat map_w)
              (roi_width r / IZR map_w) (roi_height r / IZR map_h) (x1 r) (y1 r)
              (NUM_KEYPOINTS c) C (Z.to_nat map_h) rz p σ3)
    as (p' & Hloop & Hs & Hg); [|done|lia|lia|done| | |done|done|].
  { unfold σ3, σ1. rewrite lookup_insert_ne by done. by rewrite lookup_insert_eq. }
  { unfold σ3. by rewrite lookup_insert_eq. }
  { by rewrite Hσ3. }
  exists (<[xy := Arr3 p']> σ3), p'. split; [|split; [|split; [|split]]].
  - unfold decode_roi. fold min_size.
    rewrite (mbind_Ok _ _ _ (np_ceil (roi_width r)) σ)
      by (apply lift_Ok; by rewrite !list_lookup_fmap, Hr).
    rewrite (mbind_Ok _ _ _ (np_ceil (roi_height r)) σ)
      by (apply lift_Ok; by rewrite !list_lookup_fmap, Hr).
    rewrite (mbind_Ok _ _ _ (roi_width r) σ)
      by (apply lift_Ok; by rewrite !list_lookup_fmap, Hr).
    rewrite (mbind_Ok _ _ _ (roi_height r) σ)
      by (apply lift_Ok; by rewrite !list_lookup_fmap, Hr).
    rewrite (mbind_Ok _ _ _ m σ) by by apply load4_Ok.
    rewrite (mbind_Ok _ _ _ (hwc_of_chw maps_i) σ)
      by (apply lift_Ok; by rewrite list_lookup_fmap, Hmi).
    rewrite (mbind_Ok _ _ _ l1 σ1) by done.
    rewrite (mbind_Ok _ _ _ rz σ1) by (apply load3_Ok; apply lookup_insert_eq).
    rewrite (mbind_Ok _ _ _ l2 (<[l2 := Arr3 (chw_of_hwc rz)]> σ1)) by done.
    rewrite (mbind_Ok _ _ _ l2 σ3).
    2:{ rewrite (scores_to_probs_run l2 (chw_of_hwc rz)).
        - unfold σ3. by rewrite insert_insert_eq.
        - apply lookup_insert_eq.
        - apply (chw_planes_nonempty C (Z.to_nat map_h) (Z.to_nat map_w)); [done|lia|lia]. }
    rewrite (mbind_Ok _ _ _ rz σ3).
    2:{ apply load3_Ok. unfold σ3, σ1. rewrite lookup_insert_ne by done.
        apply lookup_insert_eq. }
    rewrite (shape_2_chw C (Z.to_nat map_h) (Z.to_nat map_w)) by (done || lia).
    rewrite (mbind_Ok _ _ _ (x1 r) σ3) by (apply lift_Ok; by rewrite list_lookup_fmap, Hr).
    rewrite (mbind_Ok _ _ _ (y1 r) σ3) by (apply lift_Ok; by rewrite list_lookup_fmap, Hr).
    exact Hloop.
  - apply lookup_insert_eq.
  - intros l Hl Hne. rewrite lookup_insert_ne by done. by apply Hσ3.
  - done.
  - intros i' c' k'. rewrite Hg. unfold roi_values. rewrite Hmi, Hr. done.
Qed.

Lemma get3_zeros N C K i c k :
  get3 (replicate N (replicate C (replicate K 0%R))) i c k
  = if decide (i < N ∧ c < C ∧ k < K) then Some 0%R else None.
Proof.
  unfold get3. destruct (decide (i < N)) as [Hi|Hi].
  - rewrite lookup_replicate_2 by done. simpl.
    destruct (decide (c < C)) as [Hc|Hc].
    + rewrite lookup_replicate_2 by done. simpl.
      destruct (decide (k < K)) as [Hk|Hk].
      * rewrite lookup_replicate_2 by done. by rewrite decide_True.
      * assert (replicate K 0%R !! k = None) as ->
          by (apply lookup_replicate_None; lia).
        by rewrite decide_False by tauto.
    + assert (replicate C (replicate K 0%R) !! c = None) as ->
        by (apply lookup_replicate_None; lia).
      by rewrite decide_False by tauto.
  - assert (replicate N (replicate C (replicate K 0%R)) !! i = None) as ->
      by (apply lookup_replicate_None; lia).
    by rewrite decide_False by tauto.
Qed.

(** The whole decoder on heatmaps of [C] channels for at least as many
    instances as there are ROIs. *)
Lemma heatmaps_to_keypoints_run c maps (m : arr4) rois C h0 w0 (σ : store) :
  σ !! maps = Some (Arr4 m) → length rois ≤ length m →
  Forall (chw_array C h0 w0) m → 0 < C → 0 < h0 → 0 < w0 → NUM_KEYPOINTS c ≤ C →
  ∃ xy preds σ',
    heatmaps_to_keypoints cv2_resize (globals_with c) maps rois σ = (Ok xy, σ')
    ∧ (xy ∉ dom σ)
    ∧ σ' !! maps = Some (Arr4 m)
    ∧ σ' !! xy = Some (Arr3 preds)
    ∧ ∀ i c' k,
        get3 preds i c' k
        = if decide (i < length rois ∧ c' < 4 ∧ k < NUM_KEYPOINTS c)
          then assigned (roi_values cv2_resize c m rois i k) c' (Some 0%R)
          else None.
Proof using cv2_resize_layout.
  intros Hmaps Hlen Hm HC Hh0 Hw0 HK.
  set (K := NUM_KEYPOINTS c) in *. set (N := length rois) in *.
  set (zeros := replicate N (replicate 4 (replicate K 0%R))).
  pose (xy := fresh (dom σ)).
  assert (xy ∉ dom σ) as Hxy by apply is_fresh.
  assert (maps ≠ xy) as Hne by (intros Heq; apply Hxy; rewrite <-Heq; apply elem_of_dom; eauto).
  pose (σ0 := <[xy := Arr3 zeros]> σ).
  pose (I := λ (j : nat) (σ1 : store),
    σ1 !! maps = Some (Arr4 m)
    ∧ ∃ p, σ1 !! xy = Some (Arr3 p) ∧ shape3 p = shape3 zeros
           ∧ ∀ i' c' k',
               get3 p i' c' k'
               = if decide (i' < j ∧ k' < K)
                 then assigned (roi_values cv2_resize c m rois i' k') c'
                        (get3 zeros i' c' k')
                 else get3 zeros i' c' k').
  assert (wp (for_each (seq 0 N)
                (decode_roi cv2_resize c maps xy (x1 <$> rois) (y1 <$> rois)
                   ((λ w, Rmax w 1) <$> ((λ r, x2 r - x1 r)%R <$> rois))
                   ((λ h, Rmax h 1) <$> ((λ r, y2 r - y1 r)%R <$> rois))
                   (np_ceil <$> ((λ w, Rmax w 1) <$> ((λ r, x2 r - x1 r)%R <$> rois)))
                   (np_ceil <$> ((λ h, Rmax h 1) <$> ((λ r, y2 r - y1 r)%R <$> rois)))))
            σ0 (λ r σ', r = Ok tt ∧ I (length (seq 0 N)) σ')) as Hloop.
  { apply wp_for_each_ok.
    - split; [unfold σ0; by rewrite lookup_insert_ne|].
      exists zeros. split; [apply lookup_insert_eq|]. split; [done|].
      intros i' c' k'. by rewrite decide_False by lia.
    - intros j i σ1 Hi (Hmaps1 & p & Hp & Hs & Hg).
      apply lookup_seq in Hi as [-> Hj]. simpl.
      destruct (lookup_lt_is_Some_2 rois j Hj) as [r Hr].
      destruct (lookup_lt_is_Some_2 m j) as [maps_i Hmi]; [lia|].
      assert (Hchw := Forall_lookup_1 _ _ _ _ Hm Hmi). simpl in Hchw.
      destruct (decode_roi_run c maps xy m rois j r maps_i C h0 w0 p σ1)
        as (σ2 & p' & Hrun & Hp' & Hframe & Hs' & Hg'); [done..|].
      eapply wp_run; [exact Hrun|]. split; [done|]. split.
      + rewrite Hframe; [done| |done]. apply elem_of_dom; eauto.
      + exists p'. split; [done|]. split; [congruence|].
        intros i' c' k'. rewrite Hg', Hg. fold K.
        destruct (decide (i' = j ∧ k' < K)) as [[-> Hk]|Hn].
        * rewrite (decide_False (P:=j < j ∧ k' < K)) by lia.
          by rewrite (decide_True (P:=j < S j ∧ k' < K)) by lia.
        * destruct (decide (i' < j ∧ k' < K)) as [[Hlt Hk]|Hn'].
          -- by rewrite (decide_True (P:=i' < S j ∧ k' < K)) by lia.
          -- rewrite (decide_False (P:=i' < S j ∧ k' < K)); [done|].
             intros [Hlt Hk]. apply Hn'.
             split; [|done]. destruct (decide (i' = j)); [|lia]. tauto. }
  unfold wp in Hloop.
  destruct (for_each _ _ σ0) as [r σ'] eqn:Hrun. simpl in Hloop.
  destruct Hloop as [-> (Hmaps' & p & Hp & Hs & Hg)]. rewrite length_seq in Hg.
  exists xy, p, σ'. split; [|split; [done|split; [done|split; [done|]]]].
  - unfold heatmaps_to_keypoints.
    rewrite (mbind_Ok _ _ _ tt σ).
    2:{ unfold np_transpose4. rewrite (mbind_Ok _ _ _ (Arr4 m) σ); [done|].
        unfold load. by rewrite Hmaps. }
    rewrite (mbind_Ok _ _ _ c σ) by (apply lift_Ok, cfg_KRCNN_globals_with).
    rewrite (mbind_Ok _ _ _ xy σ0) by done.
    by rewrite (mbind_Ok _ _ _ tt σ' Hrun).
  - intros i c' k. rewrite Hg. unfold zeros. rewrite get3_zeros.
    destruct (decide (i < N ∧ c' < 4 ∧ k < K)) as [(? & ? & ?)|Hn].
    + by rewrite decide_True by lia.
    + case_decide; [|done]. unfold assigned.
      by destruct (roi_values cv2_resize c m rois i k !! c').
Qed.

End decoder_proofs.

(* ===================================================================== *)
(** * The caller's heatmaps are not written *)
(* ===================================================================== *)

Lemma write_entry_frame l i c k x maps v (σ : store) :
  l ≠ maps → σ !! maps = Some v →
  wp (write_entry l i c k x) σ (λ _ σ', σ' !! maps = Some v).
Proof.
  intros Hne Hmaps. unfold write_entry.
  apply wp_bind, wp_load3. destruct (σ !! l) as [[| |]|]; try done.
  apply wp_write. by rewrite lookup_insert_ne.
Qed.

Lemma softmax_channel_frame scores c maps v (σ : store) :
  scores ≠ maps → σ !! maps = Some v →
  wp (softmax_channel scores c) σ (λ _ σ', σ' !! maps = Some v).
Proof.
  intros Hne Hmaps. unfold softmax_channel.
  apply wp_bind, wp_load3. destruct (σ !! scores) as [[|s|]|]; try done.
  apply wp_bind, wp_lift. destruct (index_or_raise (s !! c)) as [|temp]; [done|].
  apply wp_bind, wp_lift. destruct (np_max (concat temp)) as [|max_score]; [done|].
  apply wp_bind, wp_load3. destruct (σ !! scores) as [[|s'|]|]; try done.
  apply wp_write. by rewrite lookup_insert_ne.
Qed.

(** The in-place softmax writes only the array it is given. *)
Lemma scores_to_probs_frame scores maps v (σ : store) :
  scores ≠ maps → σ !! maps = Some v →
  wp (scores_to_probs scores) σ (λ r σ', σ' !! maps = Some v ∧ ∀ l, r = Ok l → l = scores).
Proof.
  intros Hne Hmaps. unfold scores_to_probs.
  apply wp_bind, wp_load3. destruct (σ !! scores) as [[|s|]|]; try done.
  apply wp_bind.
  eapply wp_mono; [apply (wp_for_each_inv (λ σ1, σ1 !! maps = Some v)); [done|]|].
  { intros c σ1 _ H1. by apply softmax_channel_frame. }
  intros [e|[]] σ1 H1; [done|]. apply wp_ret. split; [done|]. by intros l [= <-].
Qed.

Lemma decode_joint_frame roi_map probs xy i w wc hc ox oy k maps v (σ : store) :
  xy ≠ maps → σ !! maps = Some v →
  wp (decode_joint roi_map probs xy i w wc hc ox oy k) σ (λ _ σ', σ' !! maps = Some v).
Proof.
  intros Hne Hmaps. unfold decode_joint.
  apply wp_bind, wp_load3. destruct (σ !! roi_map) as [[|rm|]|] eqn:Hrm; try done.
  apply wp_bind, wp_lift. destruct (index_or_raise _) as [|plane]; [done|].
  apply wp_bind, wp_lift. destruct (np_argmax _) as [|pos]; [done|].
  apply wp_bind, wp_load3. destruct (σ !! probs) as [[|pr|]|] eqn:Hpr; try done.
  apply wp_bind, wp_lift. destruct (index_or_raise (pr !! k)) as [|probs_k]; [done|].
  apply wp_bind, wp_lift. destruct (index_or_raise _) as [|p]; [done|].
  apply wp_bind, wp_lift. destruct (np_max _) as [|p_max]; [done|].
  case_decide; [|done].
  apply wp_bind. eapply wp_mono; [by apply write_entry_frame|].
  intros [|[]] σ1 H1; [done|].
  apply wp_bind. eapply wp_mono; [by apply write_entry_frame|].
  intros [|[]] σ2 H2; [done|].
  apply wp_bind, wp_load3. destruct (σ2 !! roi_map) as [[|rm2|]|]; try done.
  apply wp_bind, wp_lift. destruct (index_or_raise _) as [|score]; [done|].
  apply wp_bind. eapply wp_mono; [by apply write_entry_frame|].
  intros [|[]] σ3 H3; [done|].
  apply wp_bind, wp_load3. destruct (σ3 !! probs) as [[|pr3|]|]; try done.
  apply wp_bind, wp_lift. destruct (index_or_raise _) as [|prob]; [done|].
  by apply write_entry_frame.
Qed.

Lemma decode_roi_frame cv2_resize c maps xy ox oy ws hs wcs hcs i v (σ : store) :
  xy ≠ maps → σ !! maps = Some v →
  wp (decode_roi cv2_resize c maps xy ox oy ws hs wcs hcs i) σ
     (λ _ σ', σ' !! maps = Some v).
Proof.
  intros Hne Hmaps. unfold decode_roi.
  apply wp_bind, wp_lift. destruct (index_or_raise (wcs !! i)) as [|width_ceil]; [done|].
  apply wp_bind, wp_lift. destruct (index_or_raise (hcs !! i)) as [|height_ceil]; [done|].
  apply wp_bind, wp_lift. destruct (index_or_raise (ws !! i)) as [|width]; [done|].
  apply wp_bind, wp_lift. destruct (index_or_raise (hs !! i)) as [|height]; [done|].
  apply wp_bind, wp_load4. rewrite Hmaps. destruct v as [| |m]; try done.
  apply wp_bind, wp_lift. destruct (index_or_raise _) as [|maps_i]; [done|].
  apply wp_bind, wp_alloc. intros roi_map Hfresh1.
  assert (roi_map ≠ maps) as Hne1 by (intros ->; apply Hfresh1, elem_of_dom; eauto).
  assert (<[roi_map := Arr3 (cv2_resize maps_i
            (if decide (0 < INFERENCE_MIN_SIZE c)%Z
             then Z.max width_ceil (INFERENCE_MIN_SIZE c) else width_ceil)
            (if decide (0 < INFERENCE_MIN_SIZE c)%Z
             then Z.max height_ceil (INFERENCE_MIN_SIZE c) else height_ceil))]> σ
          !! maps = Some (Arr4 m)) as Hmaps1 by by rewrite lookup_insert_ne.
  set (σ1 := <[roi_map := _]> σ) in *.
  apply wp_bind, wp_load3. destruct (σ1 !! roi_map) as [[|rm|]|]; try done.
  apply wp_bind, wp_alloc. intros cp Hfresh2.
  assert (cp ≠ maps) as Hne2 by (intros ->; apply Hfresh2, elem_of_dom; eauto).
  apply wp_bind.
  eapply wp_mono; [apply (scores_to_probs_frame cp maps (Arr4 m)); [done|]|].
  { by rewrite lookup_insert_ne. }
  intros [|probs] σ2 [H2 Hprobs]; [done|].
  apply wp_bind, wp_load3. destruct (σ2 !! roi_map) as [[|rm2|]|]; try done.
  apply wp_bind, wp_lift. destruct (index_or_raise (ox !! i)) as [|ox_i]; [done|].
  apply wp_bind, wp_lift. destruct (index_or_raise (oy !! i)) as [|oy_i]; [done|].
  eapply wp_mono; [apply (wp_for_each_inv (λ σ', σ' !! maps = Some (Arr4 m))); [done|]|done].
  intros k σ3 _ H3. by apply decode_joint_frame.
Qed.

(** Whatever the inputs and whether the call returns or raises, the array
    at [maps] is the same after the call. *)
Lemma heatmaps_to_keypoints_frame cv2_resize g maps rois v (σ : store) :
  σ !! maps = Some v →
  wp (heatmaps_to_keypoints cv2_resize g maps rois) σ (λ _ σ', σ' !! maps = Some v).
Proof.
  intros Hmaps. unfold heatmaps_to_keypoints.
  apply wp_bind. unfold np_transpose4. apply wp_bind, wp_load. rewrite Hmaps.
  destruct v as [| |m]; try done. apply wp_ret.
  apply wp_bind, wp_lift. destruct (cfg_KRCNN g) as [|c]; [done|].
  apply wp_bind, wp_alloc. intros xy Hfresh.
  assert (xy ≠ maps) as Hne by (intros ->; apply Hfresh, elem_of_dom; eauto).
  apply wp_bind.
  eapply wp_mono;
    [apply (wp_for_each_inv (λ σ', σ' !! maps = Some (Arr4 m)));
       [by rewrite lookup_insert_ne|]|].
  { intros i σ1 _ H1. by apply decode_roi_frame. }
  by intros [|[]] σ1 H1.
Qed.

(* ===================================================================== *)
(** * The output of the argmax decoder *)
(* ===================================================================== *)


Section decoder_output.

Variable cv2_resize : arr3 → Z → Z → arr3.
Hypothesis cv2_resize_layout : resize_keeps_layout cv2_resize.


End decoder_output.

Lemma corner_resize_layout : resize_keeps_layout corner_resize.
Proof.
  intros src width height h0 w0 c [Hlen Hrows] Hh0 Hw0 Hw Hh. unfold corner_resize.
  assert (length (match src with (px :: _) :: _ => px | _ => [] end) = c) as Hpx.
  { destruct src as [|row src]; [simpl in Hlen; lia|].
    apply Forall_cons in Hrows as [[Hl Hrow] _].
    destruct row as [|px row]; [simpl in Hl; lia|].
    by apply Forall_cons in Hrow as [? _]. }
  split; [by rewrite length_replicate|].
  apply Forall_replicate. split; [by rewrite length_replicate|].
  by apply Forall_replicate.
Qed.



(* ===================================================================== *)
(** * The module's globals *)
(* ===================================================================== *)

Lemma module_globals_cfg : module_globals !! "cfg" = None.
Proof. vm_compute. reflexivity. Qed.

Lemma module_globals_blob_utils : module_globals !! "blob_utils" = None.
Proof. vm_compute. reflexivity. Qed.

(** C2.  In the module as it is, where [cfg] and [blob_utils] are bound
    nowhere, a call of [heatmaps_to_keypoints] on a heatmap array and a call
    of [keypoints_to_heatmap_labels] both raise [NameError] for [cfg]: the
    decoder before it allocates its output (the store is as before the
    call), the encoder in its first statement.  Were [cfg] alone bound, the
    encoder would raise [NameError] for [blob_utils] as soon as its
    assertion passes.  Neither function takes the configuration as a
    parameter. *)
Theorem calls_raise_NameError cv2_resize maps (m : arr4) (keypoints : arr3) rois
    (σ : store) :
  σ !! maps = Some (Arr4 m) →
  module_globals !! "cfg" = None
  ∧ module_globals !! "blob_utils" = None
  ∧ heatmaps_to_keypoints cv2_resize module_globals maps rois σ
    = (Raise (NameError "cfg"), σ)
  ∧ keypoints_to_heatmap_labels module_globals keypoints rois = Raise (NameError "cfg")
  ∧ ∀ c, shape_2 keypoints = NUM_KEYPOINTS c →
         keypoints_to_heatmap_labels (<["cfg" := PyConfig c]> module_globals)
           keypoints rois = Raise (NameError "blob_utils").
Proof.
  intros Hmaps.
  split; [apply module_globals_cfg|]. split; [apply module_globals_blob_utils|].
  split; [|split].
  - unfold heatmaps_to_keypoints.
    rewrite (mbind_Ok _ _ _ tt σ).
    2:{ unfold np_transpose4. rewrite (mbind_Ok _ _ _ (Arr4 m) σ); [done|].
        unfold load. by rewrite Hmaps. }
    unfold mbind, lift, cfg_KRCNN, global. by rewrite module_globals_cfg.
  - unfold keypoints_to_heatmap_labels, cfg_KRCNN, global.
    by rewrite module_globals_cfg.
  - intros c Hshape.
    unfold keypoints_to_heatmap_labels, cfg_KRCNN, blob_utils_zeros, global.
    rewrite lookup_insert_eq. cbn [rbind Ok]. rewrite decide_True by done.
    rewrite lookup_insert_ne by done. by rewrite module_globals_blob_utils.
Qed.

Lemma calls_raise_NameError_witness :
  heatmaps_to_keypoints corner_resize module_globals 0 [square_roi]
    {[0 := Arr4 one_cell_maps]}
  = (Raise (NameError "cfg"), {[0 := Arr4 one_cell_maps]})
  ∧ keypoints_to_heatmap_labels module_globals edge_keypoint [square_roi]
    = Raise (NameError "cfg").
Proof.
  destruct (calls_raise_NameError corner_resize 0 one_cell_maps edge_keypoint
              [square_roi] {[0 := Arr4 one_cell_maps]})
    as (_ & _ & Hdec & Henc & _).
  - apply lookup_singleton_eq.
  - by split.
Defined.

(* ===================================================================== *)
(** * Degenerate ROIs *)
(* ===================================================================== *)



(* ===================================================================== *)
(** * Two flips *)
(* ===================================================================== *)




(* ===================================================================== *)
(** * Inputs are not written *)
(* ===================================================================== *)

(** C10.  [flip_keypoints] leaves the array it is given as it was, whether
    it returns or raises, and when it returns the result is a new array
    (its location was not in use before the call) of the shape of the
    input.  [heatmaps_to_keypoints] leaves the heatmap array it is given as
    it was, whether it returns or raises: the in-place softmax of
    [scores_to_probs] runs on the copy made for each instance. *)
Theorem inputs_not_mutated :
  (∀ keypoints flip_map kp width (σ : store) v,
      σ !! kp = Some v →
      let '(r, σ') := flip_keypoints keypoints flip_map kp width σ in
      σ' !! kp = Some v
      ∧ ∀ l, r = Ok l → (l ∉ dom σ) ∧ ∃ w, σ' !! l = Some w ∧ same_shape v w)
  ∧ (∀ cv2_resize g maps rois (σ : store) v,
      σ !! maps = Some v →
      let '(_, σ') := heatmaps_to_keypoints cv2_resize g maps rois σ in
      σ' !! maps = Some v).
Proof.
  split.
  - intros keypoints flip_map kp width σ v Hkp.
    assert (H := flip_keypoints_frame keypoints flip_map kp width σ v Hkp).
    unfold wp in H. by destruct (flip_keypoints _ _ _ _ σ).
  - intros cv2_resize g maps rois σ v Hmaps.
    assert (H := heatmaps_to_keypoints_frame cv2_resize g maps rois v σ Hmaps).
    unfold wp in H. by destruct (heatmaps_to_keypoints _ _ _ _ σ).
Qed.

Lemma inputs_not_mutated_witness :
  (let '(r, σ') := flip_keypoints get_keypoints.1 get_keypoints.2 0 640%R
                     {[0 := Arr3 coco_blank_pose]} in
   σ' !! 0 = Some (Arr3 coco_blank_pose)
   ∧ ∀ l, r = Ok l →
       (l ∉ dom ({[0 := Arr3 coco_blank_pose]} : store))
       ∧ ∃ w, σ' !! l = Some w ∧ same_shape (Arr3 coco_blank_pose) w)
  ∧ (let '(_, σ') := heatmaps_to_keypoints corner_resize (globals_with one_joint_cfg)
                        0 [square_roi] {[0 := Arr4 one_cell_maps]} in
     σ' !! 0 = Some (Arr4 one_cell_maps)).
Proof.
  split.
  - apply (proj1 inputs_not_mutated get_keypoints.1 get_keypoints.2 0 640%R
             {[0 := Arr3 coco_blank_pose]} (Arr3 coco_blank_pose)).
    apply lookup_singleton_eq.
  - apply (proj2 inputs_not_mutated corner_resize (globals_with one_joint_cfg) 0
             [square_roi] {[0 := Arr4 one_cell_maps]} (Arr4 one_cell_maps)).
    apply lookup_singleton_eq.
Defined.


(* ===================================================================== *)
(** * [compute_oks] *)
(* ===================================================================== *)

Lemma zip_with_tabulate (f : R → R → R) (a b : list R) n :
  length a = n → length b = n →
  zip_with f a b = (λ k, f (a !!! k) (b !!! k)) <$> seq 0 n.
Proof.
  intros Ha Hb. apply list_eq. intros k.
  rewrite lookup_zip_with, list_lookup_fmap.
  destruct (decide (k < n)) as [Hk|Hk].
  - rewrite lookup_seq_lt by done. simpl.
    destruct (lookup_lt_is_Some_2 a k) as [x Hx]; [lia|].
    destruct (lookup_lt_is_Some_2 b k) as [y Hy]; [lia|].
    rewrite Hx, Hy. simpl.
    by rewrite (list_lookup_total_correct _ _ _ Hx), (list_lookup_total_correct _ _ _ Hy).
  - rewrite lookup_seq_ge by lia. rewrite (lookup_ge_None_2 a) by lia. done.
Qed.

Lemma fmap_tabulate (g : R → R) (f : nat → R) n :
  g <$> (f <$> seq 0 n) = (λ k, g (f k)) <$> seq 0 n.
Proof. by rewrite <-list_fmap_compose. Qed.

Lemma tabulate_lookup_total (f : nat → R) n k :
  k < n → (f <$> seq 0 n) !!! k = f k.
Proof.
  intros Hk. apply list_lookup_total_correct.
  by rewrite list_lookup_fmap, lookup_seq_lt.
Qed.

Lemma tabulate_ext (f g : nat → R) n :
  (∀ k, k < n → f k = g k) → f <$> seq 0 n = g <$> seq 0 n.
Proof.
  intros H. apply list_fmap_ext. intros i k Hk.
  apply lookup_seq in Hk as [-> ?]. by apply H.
Qed.

Lemma get_channel_fmap (a : arr3) c :
  Forall (λ inst : arr2, c < length inst) a →
  get_channel a c = Ok ((λ inst : arr2, inst !!! c) <$> a).
Proof.
  intros Ha. unfold get_channel.
  assert (mapM (λ inst : arr2, inst !! c) a = Some ((λ inst : arr2, inst !!! c) <$> a)) as ->;
    [|done].
  apply mapM_Some_2. apply Forall2_fmap_r, Forall_Forall2_diag.
  eapply Forall_impl; [exact Ha|]. intros inst Hc. simpl in *.
  destruct (lookup_lt_is_Some_2 inst c Hc) as [row Hrow].
  by rewrite (list_lookup_total_correct _ _ _ Hrow).
Qed.

Lemma broadcast_rows_fmap {A} (f : R → R → R) (g : A → list R) (l : list A) b :
  Forall (λ x, length (g x) = length b) l →
  broadcast_rows f (g <$> l) b = Ok ((λ x, zip_with f (g x) b) <$> l).
Proof.
  intros Hl. unfold broadcast_rows. rewrite decide_True by by apply Forall_fmap.
  by rewrite <-list_fmap_compose.
Qed.

Lemma elementwise_fmap {A} (f : R → R → R) (g h : A → list R) (l : list A) :
  Forall (λ x, length (g x) = length (h x)) l →
  elementwise f (g <$> l) (h <$> l) = Ok ((λ x, zip_with f (g x) (h x)) <$> l).
Proof.
  intros Hl. unfold elementwise. rewrite decide_True.
  - f_equal. induction l as [|x l IH]; [done|]. apply Forall_cons in Hl as [_ Hl].
    simpl. f_equal. by apply IH.
  - unfold shape2. rewrite <-!list_fmap_compose. apply Forall_fmap_ext_1.
    eapply Forall_impl; [exact Hl|]. by intros x Hx.
Qed.

Lemma np_spacing_1_pos : (0 < np_spacing_1)%R.
Proof. unfold np_spacing_1. apply Rinv_0_lt_compat, pow_lt. lra. Qed.

Lemma oks_exponent a v s :
  (a / v / s / 2 = a / (2 * v * s))%R.
Proof. unfold Rdiv. rewrite !Rinv_mult. ring. Qed.

Lemma pose_rows K (pose : arr2) :
  pose_array K pose → length (pose !!! 0) = K ∧ length (pose !!! 1) = K.
Proof.
  intros [Hlen Hrows].
  destruct pose as [|xs [|ys rest]]; simpl in Hlen; try lia.
  apply Forall_cons in Hrows as [? Hrows]. apply Forall_cons in Hrows as [? _].
  done.
Qed.

(** With poses of 17 joints [compute_oks] returns one value per candidate:
    [oks_similarity]. *)
Lemma compute_oks_run (src : arr2) src_roi (dst : arr3) dst_roi :
  pose_array 17 src → Forall (pose_array 17) dst →
  compute_oks src src_roi dst dst_roi
  = Ok ((λ cand, oks_similarity src src_roi cand) <$> dst).
Proof.
  intros Hsrc Hdst. unfold compute_oks.
  destruct (pose_rows 17 src Hsrc) as [Hsx Hsy].
  assert (Forall (λ cand : arr2, length (cand !!! 0) = 17 ∧ length (cand !!! 1) = 17) dst)
    as Hrows.
  { eapply Forall_impl; [exact Hdst|]. intros cand Hc. by apply pose_rows. }
  rewrite get_channel_fmap.
  2:{ eapply Forall_impl; [exact Hdst|]. intros cand [? _]. simpl. lia. }
  cbn [rbind Ok].
  assert (src !! 0 = Some (src !!! 0)) as ->.
  { apply list_lookup_lookup_total_lt. destruct Hsrc. lia. }
  cbn [index_or_raise rbind Ok].
  rewrite broadcast_rows_fmap.
  2:{ eapply Forall_impl; [exact Hrows|]. intros cand [? _]. simpl. lia. }
  cbn [rbind Ok].
  rewrite get_channel_fmap.
  2:{ eapply Forall_impl; [exact Hdst|]. intros cand [? _]. simpl. lia. }
  cbn [rbind Ok].
  assert (src !! 1 = Some (src !!! 1)) as ->.
  { apply list_lookup_lookup_total_lt. destruct Hsrc. lia. }
  cbn [index_or_raise rbind Ok].
  rewrite broadcast_rows_fmap.
  2:{ eapply Forall_impl; [exact Hrows|]. intros cand [_ ?]. simpl. lia. }
  cbn [rbind Ok].
  rewrite elementwise_fmap.
  2:{ eapply Forall_impl; [exact Hrows|]. intros cand [? ?]. simpl.
      rewrite !length_zip_with. lia. }
  cbn [rbind Ok].
  assert (length oks_vars = 17) as Hvars by done.
  rewrite broadcast_rows_fmap.
  2:{ eapply Forall_impl; [exact Hrows|]. intros cand [? ?]. simpl.
      rewrite !length_zip_with. lia. }
  cbn [rbind Ok]. f_equal. rewrite <-list_fmap_compose.
  apply Forall_fmap_ext_1. eapply Forall_impl; [exact Hrows|].
  intros cand [Hcx Hcy]. unfold compose, oks_similarity. cbv beta zeta.
  rewrite Hvars. replace (INR 17) with 17%R by (simpl; lra). f_equal. f_equal.
  rewrite (zip_with_tabulate Rminus (cand !!! 0) (src !!! 0) 17) by done.
  rewrite (zip_with_tabulate Rminus (cand !!! 1) (src !!! 1) 17) by done.
  rewrite (zip_with_tabulate (λ dx dy, dx ^ 2 + dy ^ 2)%R _ _ 17)
    by by rewrite length_fmap, length_seq.
  rewrite (zip_with_tabulate _ _ oks_vars 17) by (by rewrite ?length_fmap, ?length_seq).
  rewrite fmap_tabulate. apply tabulate_ext. intros k Hk.
  rewrite !tabulate_lookup_total by done.
  unfold oks_vars.
  rewrite (list_lookup_total_fmap (λ s, (s * 2) ^ 2)%R sigmas k) by (simpl; lia).
  f_equal. f_equal. rewrite oks_exponent. f_equal. ring.
Qed.





(** The similarity of a pose to itself is 1. *)
Lemma oks_similarity_same (src : arr2) (src_roi : roi) :
  oks_similarity src src_roi src = 1%R.
Proof.
  unfold oks_similarity. cbv zeta.
  rewrite (tabulate_ext _ (λ _, 1%R) 17).
  - simpl. lra.
  - intros k _.
    replace (((src !!! 0%nat) !!! k - (src !!! 0%nat) !!! k) ^ 2
             + ((src !!! 1%nat) !!! k - (src !!! 1%nat) !!! k) ^ 2)%R with 0%R by ring.
    unfold Rdiv. by rewrite Rmult_0_l, Ropp_0, exp_0.
Qed.

(** C5.  For a source pose and candidate poses of 17 joints each,
    [compute_oks] returns one value per candidate: the mean over the joints
    of [exp(-(dx^2 + dy^2) / (2 * (2 * sigma_k)^2 * (area_src + epsilon)))],
    with [dx] and [dy] the differences of the candidate's and the source's
    coordinates, [sigma_k] the constant of joint [k], [area_src] the area
    [(x2 - x1 + 1) * (y2 - y1 + 1)] of the source ROI, and [epsilon], the
    spacing of the doubles at 1, positive. *)
Theorem compute_oks_similarity (src : arr2) (src_roi : roi) (dst : arr3)
    (dst_roi : list roi) :
  pose_array 17 src → Forall (pose_array 17) dst →
  ∃ e, compute_oks src src_roi dst dst_roi = Ok e
       ∧ length e = length dst
       ∧ (∀ i cand, dst !! i = Some cand →
            e !! i = Some (oks_similarity src src_roi cand))
       ∧ (0 < np_spacing_1)%R.
Proof.
  intros Hsrc Hdst. eexists. split; [by apply compute_oks_run|].
  split; [by rewrite length_fmap|]. split; [|apply np_spacing_1_pos].
  intros i cand Hi. by rewrite list_lookup_fmap, Hi.
Qed.

(** A candidate that is the source pose has the similarity 1. *)
Lemma compute_oks_similarity_witness :
  ∃ e, compute_oks coco_zero_pose square_roi [coco_zero_pose] [square_roi] = Ok e
       ∧ e !! 0 = Some 1%R.
Proof.
  destruct (compute_oks_similarity coco_zero_pose square_roi [coco_zero_pose]
              [square_roi]) as (e & Hrun & _ & He & _).
  - split; [simpl; lia|]. repeat constructor.
  - repeat constructor; simpl; lia.
  - exists e. split; [done|]. rewrite <-(oks_similarity_same coco_zero_pose square_roi).
    by apply He.
Defined.


(* ===================================================================== *)
(** * [nms_oks] *)
(* ===================================================================== *)

(** ** The order of the instances *)

Lemma insert_by_Permutation scores i sorted : insert_by scores i sorted ≡ₚ i :: sorted.
Proof.
  induction sorted as [|j rest IH]; [done|]. simpl. case_decide; [done|].
  rewrite IH. apply Permutation_swap.
Qed.

Lemma insert_by_sorted scores i sorted :
  StronglySorted (λ a b, scores !!! a <= scores !!! b)%R sorted →
  StronglySorted (λ a b, scores !!! a <= scores !!! b)%R (insert_by scores i sorted).
Proof.
  induction 1 as [|j rest Hrest IH Hj]; simpl.
  - repeat constructor.
  - case_decide as Hlt.
    + constructor; [by constructor|]. constructor; [lra|].
      eapply Forall_impl; [exact Hj|]. intros k Hk. simpl in *. lra.
    + constructor; [done|].
      rewrite insert_by_Permutation. constructor; [lra|done].
Qed.

Lemma argsort_spec scores :
  argsort scores ≡ₚ seq 0 (length scores)
  ∧ StronglySorted (λ a b, scores !!! a <= scores !!! b)%R (argsort scores).
Proof.
  unfold argsort.
  enough (∀ idxs acc,
    StronglySorted (λ a b, scores !!! a <= scores !!! b)%R acc →
    foldl (λ sorted i, insert_by scores i sorted) acc idxs ≡ₚ acc ++ idxs
    ∧ StronglySorted (λ a b, scores !!! a <= scores !!! b)%R
        (foldl (λ sorted i, insert_by scores i sorted) acc idxs)) as H.
  { destruct (H (seq 0 (length scores)) []) as [? ?]; [constructor|done]. }
  induction idxs as [|i idxs IH]; intros acc Hacc; simpl.
  - by rewrite app_nil_r.
  - destruct (IH (insert_by scores i acc)) as [Hp Hs]; [by apply insert_by_sorted|].
    split; [|done]. rewrite Hp, insert_by_Permutation. simpl. apply Permutation_middle.
Qed.

Lemma StronglySorted_reverse {A} (R : relation A) (l : list A) :
  StronglySorted R l → StronglySorted (flip R) (reverse l).
Proof.
  induction 1 as [|x l Hl IH Hx]; [constructor|].
  rewrite reverse_cons. apply StronglySorted_app_2; [|done|repeat constructor].
  intros a b Ha Hb%list_elem_of_singleton. subst b.
  rewrite elem_of_reverse in Ha.
  unfold flip. rewrite Forall_forall in Hx. by apply Hx.
Qed.

(** The instances in descending order of their score. *)
Lemma order_spec scores :
  reverse (argsort scores) ≡ₚ seq 0 (length scores)
  ∧ StronglySorted (λ a b, scores !!! b <= scores !!! a)%R (reverse (argsort scores)).
Proof.
  destruct (argsort_spec scores) as [Hp Hs]. split.
  - by rewrite reverse_Permutation.
  - by apply (StronglySorted_reverse _ _ Hs).
Qed.

(** ** One round *)

Lemma filter_ext_in {A} (P Q : A → Prop) `{!∀ x, Decision (P x), !∀ x, Decision (Q x)}
    (l : list A) :
  (∀ x, x ∈ l → P x ↔ Q x) → filter P l = filter Q l.
Proof.
  induction l as [|x l IH]; intros Hext; [done|].
  rewrite !filter_cons. rewrite IH by (intros y Hy; apply Hext; by right).
  destruct (decide (P x)) as [HP|HP], (decide (Q x)) as [HQ|HQ]; try done.
  - exfalso. apply HQ, Hext; [left|done].
  - exfalso. apply HP, Hext; [left|done].
Qed.

(** Selecting by position is selecting by value. *)
Lemma filter_positions {A} `{!Inhabited A} (P : A → Prop) `{!∀ x, Decision (P x)}
    (l : list A) :
  (λ p, l !!! p) <$> filter (λ p, P (l !!! p)) (seq 0 (length l)) = filter P l.
Proof.
  induction l as [|x l IH] using rev_ind; [done|].
  rewrite length_app. simpl. rewrite seq_app, filter_app, fmap_app. simpl.
  rewrite filter_app. f_equal.
  - rewrite <-IH. rewrite (filter_ext_in _ (λ p, P (l !!! p))).
    + apply list_fmap_ext. intros _ p Hp%list_elem_of_lookup_2.
      apply list_elem_of_filter in Hp as [_ Hp%elem_of_seq].
      by rewrite lookup_total_app_l by lia.
    + intros p Hp%elem_of_seq. by rewrite lookup_total_app_l by lia.
  - rewrite !filter_cons, !filter_nil.
    assert ((l ++ [x]) !!! length l = x) as Hx.
    { rewrite lookup_total_app_r by lia. by rewrite Nat.sub_diag. }
    rewrite Hx. case_decide; [|done]. simpl. by rewrite Hx.
Qed.

Lemma take_indices_fmap {A} `{!Inhabited A} (a : list A) (inds : list nat) :
  Forall (λ j, j < length a) inds →
  take_indices a inds = Ok ((λ j, a !!! j) <$> inds).
Proof.
  intros Hinds. unfold take_indices.
  assert (mapM (λ j, a !! j) inds = Some ((λ j, a !!! j) <$> inds)) as ->; [|done].
  apply mapM_Some_2, Forall2_fmap_r, Forall_Forall2_diag.
  eapply Forall_impl; [exact Hinds|]. intros j Hj. simpl in *.
  by apply list_lookup_lookup_total_lt.
Qed.

Lemma kp_array_pose (kp : arr3) i :
  kp_array 17 kp → i < length kp → pose_array 17 (kp !!! i).
Proof.
  intros [Hch Hrows] Hi.
  destruct (lookup_lt_is_Some_2 kp i Hi) as [inst Hinst].
  rewrite (list_lookup_total_correct _ _ _ Hinst). split.
  - assert (H := Forall_lookup_1 _ _ _ _ Hch Hinst). simpl in H. lia.
  - by apply (Forall_lookup_1 _ _ _ _ Hrows Hinst).
Qed.

(** The new [order] is the pending instances whose OKS with [i] does not
    exceed the threshold. *)
Lemma nms_step_filter (kp : arr3) rois thresh i rest :
  kp_array 17 kp → length rois = length kp →
  i < length kp → Forall (λ j, j < length kp) rest →
  nms_step kp rois thresh i rest
  = Ok (filter (λ j, oks_between kp rois i j <= thresh)%R rest).
Proof.
  intros Hkp Hlen Hi Hrest. unfold nms_step.
  rewrite (list_lookup_lookup_total_lt kp i Hi).
  rewrite (list_lookup_lookup_total_lt rois i) by lia.
  cbn [index_or_raise rbind Ok].
  rewrite (take_indices_fmap kp rest Hrest). cbn [rbind Ok].
  rewrite (take_indices_fmap rois rest) by by rewrite Hlen.
  cbn [rbind Ok].
  rewrite compute_oks_run.
  2:{ by apply kp_array_pose. }
  2:{ apply Forall_fmap. eapply Forall_impl; [exact Hrest|].
      intros j Hj. by apply kp_array_pose. }
  cbn [rbind Ok]. rewrite <-list_fmap_compose.
  set (ovr := _ <$> rest).
  assert (length ovr = length rest) as Hovr by (unfold ovr; by rewrite length_fmap).
  assert (∀ p, p < length rest → ovr !!! p = oks_between kp rois i (rest !!! p)) as Hp.
  { intros p Hlt. unfold ovr. by rewrite (list_lookup_total_fmap _ rest p Hlt). }
  rewrite take_indices_fmap.
  2:{ apply Forall_fmap, Forall_forall. intros p Hin.
      apply list_elem_of_filter in Hin as [_ Hin%elem_of_seq]. simpl. lia. }
  f_equal. rewrite <-list_fmap_compose.
  rewrite <-(filter_positions (λ j, oks_between kp rois i j <= thresh)%R rest).
  unfold where_le. rewrite Hovr.
  rewrite (filter_ext_in _ (λ p, oks_between kp rois i (rest !!! p) <= thresh)%R).
  2:{ intros p Hin%elem_of_seq. by rewrite Hp by lia. }
  apply list_fmap_ext. intros _ p _. simpl.
  by replace (p + 1) with (S p) by lia.
Qed.

(** ** The loop *)

Lemma nms_loop_cons kp rois thresh i rest :
  nms_loop kp rois thresh (i :: rest)
  = match nms_step kp rois thresh i rest with
    | inl e => Raise e
    | inr order' => rbind (nms_loop kp rois thresh order') (λ keep, Ok (i :: keep))
    end.
Proof.
  simp nms_loop.
  destruct (inspect (nms_step kp rois thresh i rest)) as [[e|order'] Heq];
    simpl; by rewrite Heq.
Qed.

(** The loop returns, and what it returns is the greedy suppression of
    [order]. *)
Lemma nms_loop_greedy (kp : arr3) rois thresh order :
  kp_array 17 kp → length rois = length kp →
  Forall (λ j, j < length kp) order →
  ∃ keep, nms_loop kp rois thresh order = Ok keep
          ∧ greedy_keep (oks_exceeds kp rois thresh) order keep.
Proof.
  intros Hkp Hlen.
  revert order.
  enough (∀ n order, length order ≤ n → Forall (λ j, j < length kp) order →
    ∃ keep, nms_loop kp rois thresh order = Ok keep
            ∧ greedy_keep (oks_exceeds kp rois thresh) order keep) as H
    by (intros order; by apply (H (length order))).
  induction n as [|n IH]; intros order Hn Horder.
  - destruct order; [|simpl in Hn; lia]. exists []. split; [by simp nms_loop|constructor].
  - destruct order as [|i rest]; [exists []; split; [by simp nms_loop|constructor]|].
    apply Forall_cons in Horder as [Hi Hrest].
    rewrite nms_loop_cons, (nms_step_filter kp rois thresh i rest) by done.
    destruct (IH (filter (λ j, oks_between kp rois i j <= thresh)%R rest))
      as (keep & Hrun & Hgreedy).
    + assert (H := length_filter (λ j, oks_between kp rois i j <= thresh)%R rest).
      simpl in Hn. lia.
    + apply Forall_forall. intros j [_ Hj]%list_elem_of_filter.
      rewrite Forall_forall in Hrest. by apply Hrest.
    + exists (i :: keep). unfold Ok at 1. cbv iota beta. rewrite Hrun.
      split; [done|]. constructor.
      rewrite (filter_ext_in _ (λ j, oks_between kp rois i j <= thresh)%R); [done|].
      intros j _. unfold oks_exceeds. split; lra.
Qed.

(** ** What greedy suppression keeps *)

Section greedy.
Context (suppresses : nat → nat → Prop) `{!∀ i j, Decision (suppresses i j)}.

Lemma greedy_keep_sublist order keep :
  greedy_keep suppresses order keep → keep `sublist_of` order.
Proof.
  induction 1 as [|i pending keep _ IH]; [constructor|].
  apply sublist_skip. etrans; [exact IH|]. apply sublist_filter.
Qed.


(** A kept instance is suppressed by none of those kept before it, and a
    dropped one is suppressed by one that is kept. *)
Lemma greedy_keep_dropped order keep j :
  greedy_keep suppresses order keep →
  j ∈ order → j ∉ keep → ∃ i, i ∈ keep ∧ suppresses i j.
Proof.
  induction 1 as [|i pending keep _ IH]; intros Hj Hout; [by apply elem_of_nil in Hj|].
  apply not_elem_of_cons in Hout as [Hne Hout].
  apply elem_of_cons in Hj as [?|Hj]; [done|].
  destruct (decide (suppresses i j)) as [Hs|Hs].
  - exists i. split; [left|done].
  - destruct IH as (k & Hk & Hkj); [|done|].
    + apply list_elem_of_filter. by split.
    + exists k. split; [by right|done].
Qed.

End greedy.


(** ** [nms_oks] *)

Lemma nms_oks_run (kp : arr3) rois thresh :
  kp_array 17 kp → length rois = length kp →
  ∃ keep, nms_oks kp rois thresh = Ok keep
          ∧ greedy_keep (oks_exceeds kp rois thresh)
              (reverse (argsort (mean_scores kp))) keep.
Proof.
  intros Hkp Hlen. unfold nms_oks.
  rewrite get_channel_fmap.
  2:{ destruct Hkp as [Hch _]. eapply Forall_impl; [exact Hch|].
      intros inst Hinst. simpl in *. lia. }
  cbn [rbind Ok]. rewrite <-list_fmap_compose.
  change (np_mean ∘ _ <$> kp) with (mean_scores kp).
  apply nms_loop_greedy; [done..|].
  destruct (order_spec (mean_scores kp)) as [Hp _].
  apply Forall_forall. intros j Hj. rewrite Hp in Hj.
  apply elem_of_seq in Hj. unfold mean_scores in Hj. rewrite length_fmap in Hj. lia.
Qed.




(* ===================================================================== *)
(** * [softmax_integral_tensor] *)
(* ===================================================================== *)

(** ** Finite sums *)

Lemma sum_upto_ext n (f g : nat → R) :
  (∀ k, k < n → f k = g k) → sum_upto n f = sum_upto n g.
Proof. intros H. unfold sum_upto. f_equal. by apply tabulate_ext. Qed.

Lemma sum_list_app (l k : list R) : sum_list (l ++ k) = (sum_list l + sum_list k)%R.
Proof. induction l as [|x l IH]; simpl; [lra|]. rewrite IH. lra. Qed.

Lemma sum_upto_0 f : sum_upto 0 f = 0%R.
Proof. done. Qed.

Lemma sum_upto_S n f : sum_upto (S n) f = (sum_upto n f + f n)%R.
Proof.
  unfold sum_upto. rewrite seq_S, fmap_app, sum_list_app. simpl. lra.
Qed.

Lemma sum_upto_scale n f (c : R) :
  (sum_upto n f * c)%R = sum_upto n (λ k, f k * c)%R.
Proof.
  induction n as [|n IH]; [rewrite !sum_upto_0; lra|].
  rewrite !sum_upto_S, <-IH. lra.
Qed.

Lemma sum_upto_plus n f g :
  (sum_upto n f + sum_upto n g)%R = sum_upto n (λ k, f k + g k)%R.
Proof.
  induction n as [|n IH]; [rewrite !sum_upto_0; lra|].
  rewrite !sum_upto_S, <-IH. lra.
Qed.

Lemma sum_upto_zero n : sum_upto n (λ _, 0%R) = 0%R.
Proof. induction n as [|n IH]; [done|]. rewrite sum_upto_S, IH. lra. Qed.

(** The order of two sums *)
Lemma sum_upto_swap m n (f : nat → nat → R) :
  sum_upto m (λ a, sum_upto n (λ b, f a b))
  = sum_upto n (λ b, sum_upto m (λ a, f a b)).
Proof.
  induction m as [|m IH].
  - rewrite sum_upto_0. symmetry. apply sum_upto_zero.
  - rewrite sum_upto_S, IH, sum_upto_plus. apply sum_upto_ext.
    intros b _. by rewrite sum_upto_S.
Qed.

(** A sum over the flat indices of a matrix, row by row *)
Lemma sum_upto_mul m n (f : nat → R) :
  sum_upto (m * n) f = sum_upto m (λ a, sum_upto n (λ b, f (a * n + b))).
Proof.
  induction m as [|m IH]; [done|].
  rewrite sum_upto_S, <-IH.
  replace (S m * n) with (m * n + n) by lia.
  unfold sum_upto. rewrite seq_app, fmap_app, sum_list_app. f_equal.
  f_equal. replace (0 + m * n) with (m * n + 0) by lia.
  by rewrite <-(fmap_add_seq (m * n) 0), <-list_fmap_compose.
Qed.

Lemma sum_upto_pos n f : 0 < n → (∀ k, k < n → (0 < f k)%R) → (0 < sum_upto n f)%R.
Proof.
  intros Hn Hf. induction n as [|n IH]; [lia|]. rewrite sum_upto_S.
  destruct n as [|n].
  - rewrite sum_upto_0. assert (H := Hf 0 ltac:(lia)). lra.
  - assert (H := Hf (S n) ltac:(lia)).
    assert (0 < sum_upto (S n) f)%R by (apply IH; [lia|]; intros k Hk; apply Hf; lia).
    lra.
Qed.

(** ** Flat indices *)

Lemma flat_div o r m : r < m → (o * m + r) / m = o.
Proof. intros Hr. symmetry. apply (Nat.div_unique _ _ _ r); lia. Qed.

Lemma flat_mod o r m : r < m → (o * m + r) mod m = r.
Proof. intros Hr. symmetry. apply (Nat.mod_unique _ _ o); lia. Qed.

Lemma numel_app s1 s2 : numel (s1 ++ s2) = numel s1 * numel s2.
Proof. induction s1 as [|n s1 IH]; simpl; [lia|]. rewrite IH. lia. Qed.

Lemma tab_lookup s g q : q < numel s → data (tab s g) !!! q = g q.
Proof. intros Hq. simpl. by apply tabulate_lookup_total. Qed.

Lemma tab_length s g : length (data (tab s g)) = numel s.
Proof. simpl. by rewrite length_fmap, length_seq. Qed.

Lemma tab_ext s g h : (∀ q, q < numel s → g q = h q) → tab s g = tab s h.
Proof. intros H. unfold tab. f_equal. by apply tabulate_ext. Qed.

(** Every tensor is the table of its entries. *)
Lemma tensor_tab (t : tensor) :
  length (data t) = numel (shape t) → t = tab (shape t) (λ q, data t !!! q).
Proof.
  intros Hlen. destruct t as [s l]. simpl in *. unfold tab. f_equal.
  rewrite <-Hlen. apply list_eq. intros q. rewrite list_lookup_fmap.
  destruct (decide (q < length l)) as [Hq|Hq].
  - rewrite lookup_seq_lt by done. simpl. by apply list_lookup_lookup_total_lt.
  - rewrite lookup_seq_ge by lia. by apply lookup_ge_None_2; lia.
Qed.

(** ** The operations on tables *)

Lemma drop_S_middle {A} (pre : list A) n post :
  drop (S (length pre)) (pre ++ n :: post) = post.
Proof. induction pre as [|x pre IH]; [done|]. simpl. apply IH. Qed.

Lemma reshape_tab s s' g :
  numel s' = numel s → reshape (tab s g) s' = Ok (tab s' g).
Proof.
  intros Hs. unfold reshape. rewrite tab_length, decide_True by done.
  unfold tab. simpl. by rewrite Hs.
Qed.

Lemma flat_index_bound outer n inner q k :
  q < outer * inner → k < n →
  (q / inner * n + k) * inner + q mod inner < outer * (n * inner).
Proof.
  intros Hq Hk. assert (0 < inner) by (destruct inner; lia).
  assert (q / inner < outer) by (apply Nat.Div0.div_lt_upper_bound; lia).
  assert (q mod inner < inner) by (apply Nat.mod_upper_bound; lia).
  nia.
Qed.

Lemma torch_sum_tab pre n post keepdim g :
  torch_sum (tab (pre ++ n :: post) g) (length pre) keepdim
  = Ok (tab (pre ++ (if keepdim then [1] else []) ++ post)
          (sum_axis n (numel post) g)).
Proof.
  unfold torch_sum. cbn [shape tab]. rewrite list_lookup_middle by done.
  rewrite take_app_length, drop_S_middle.
  f_equal. unfold tab. f_equal.
  assert (numel (pre ++ (if keepdim then [1] else []) ++ post)
          = numel pre * numel post) as ->.
  { rewrite !numel_app. destruct keepdim; simpl; lia. }
  apply tabulate_ext. intros q Hq. apply sum_upto_ext. intros k Hk.
  cbn [data]. apply tabulate_lookup_total.
  rewrite numel_app. change (numel (n :: post)) with (n * numel post).
  by apply flat_index_bound.
Qed.

Lemma F_softmax_tab pre n post g :
  F_softmax (tab (pre ++ n :: post) g) (length pre)
  = Ok (tab (pre ++ n :: post) (softmax_axis n (numel post) g)).
Proof.
  unfold F_softmax. cbn [shape tab]. rewrite list_lookup_middle by done.
  rewrite drop_S_middle.
  f_equal. unfold tab. f_equal. cbn [data].
  rewrite length_fmap, length_seq.
  apply tabulate_ext. intros q Hq. unfold softmax_axis.
  rewrite tabulate_lookup_total by done. f_equal.
  apply sum_upto_ext. intros k Hk. f_equal.
  apply tabulate_lookup_total.
  rewrite numel_app in *. change (numel (n :: post)) with (n * numel post) in *.
  assert (0 < n * numel post) by nia.
  assert (0 < numel post) by nia.
  assert (q / (n * numel post) < numel pre)
    by (apply Nat.Div0.div_lt_upper_bound; lia).
  assert (q mod numel post < numel post) by (apply Nat.mod_upper_bound; lia).
  nia.
Qed.

Lemma numel_last (s : list nat) m : last s = Some m → ∃ pre, s = pre ++ [m].
Proof.
  intros Hlast. destruct s as [|n s] using rev_ind; [done|].
  rewrite last_snoc in Hlast. injection Hlast as ->. by exists s.
Qed.

Lemma torch_mul_arange s m g :
  last s = Some m →
  torch_mul (tab s g) (torch_arange m) = Ok (tab s (mul_last m g INR)).
Proof.
  intros Hlast. unfold torch_mul. cbn [shape torch_arange tab].
  rewrite decide_True by done. f_equal. unfold tab. f_equal. cbn [data].
  rewrite length_fmap, length_seq.
  apply tabulate_ext. intros q Hq. unfold mul_last.
  rewrite tabulate_lookup_total by done. f_equal.
  apply tabulate_lookup_total.
  destruct (numel_last s m Hlast) as [pre ->].
  rewrite numel_app in Hq. change (numel [m]) with (m * 1) in Hq.
  apply Nat.mod_upper_bound. lia.
Qed.

(** ** Sums and softmax at decomposed indices *)

Lemma sum_axis_flat n inner g o r :
  r < inner →
  sum_axis n inner g (o * inner + r) = sum_upto n (λ k, g ((o * n + k) * inner + r)).
Proof. intros Hr. unfold sum_axis. by rewrite flat_div, flat_mod by done. Qed.

Lemma sum_axis_last n g o :
  sum_axis n (numel []) g o = sum_upto n (λ k, g (o * n + k)).
Proof.
  replace o with (o * numel [] + 0) at 1 by (simpl; lia).
  rewrite sum_axis_flat by (simpl; lia). apply sum_upto_ext. intros k _.
  f_equal. simpl. lia.
Qed.

Lemma softmax_axis_last D g o d :
  d < D →
  softmax_axis D (numel []) g (o * D + d)
  = (exp (g (o * D + d)%nat) / sum_upto D (λ d' : nat, exp (g (o * D + d')%nat)))%R.
Proof.
  intros Hd. unfold softmax_axis. f_equal. apply sum_upto_ext. intros k _.
  change (numel []) with 1. rewrite !Nat.mul_1_r, flat_div by done.
  do 2 f_equal. rewrite Nat.mod_1_r. lia.
Qed.

(** ** [torch.cat] of columns *)

Lemma take_1_drop {A} `{!Inhabited A} (l : list A) o :
  o < length l → take 1 (drop o l) = [l !!! o].
Proof.
  revert o. induction l as [|x l IH]; intros o Ho; [simpl in Ho; lia|].
  destruct o as [|o]; [by destruct l|]. simpl in *. apply IH. lia.
Qed.

Lemma last_size_column N J g : last_size N J (tab [N; J; 1] g) = Some 1.
Proof. unfold last_size. cbn [shape tab]. by rewrite decide_True by done. Qed.

Lemma last_sizes_columns N J (G : list (nat → R)) :
  mapM (last_size N J) ((λ g, tab [N; J; 1] g) <$> G) = Some (replicate (length G) 1).
Proof.
  induction G as [|g G IH]; [done|]. rewrite fmap_cons. cbn [mapM].
  rewrite IH. unfold last_size at 1. cbn [shape tab].
  by rewrite decide_True by done.
Qed.

Lemma sum_replicate_1 k : foldr Nat.add 0 (replicate k 1) = k.
Proof. induction k as [|k IH]; [done|]. simpl. by rewrite IH. Qed.

Lemma torch_cat_2_columns N J g0 (G : list (nat → R)) :
  torch_cat_2 ((λ g, tab [N; J; 1] g) <$> (g0 :: G))
  = Ok (Tensor [N; J; S (length G)]
          (concat ((λ o, (λ g : nat → R, g o) <$> (g0 :: G)) <$> seq 0 (N * J)))).
Proof.
  unfold torch_cat_2.
  assert (shape <$> ((λ g, tab [N; J; 1] g) <$> (g0 :: G))
          = [N; J; 1] :: (shape <$> ((λ g, tab [N; J; 1] g) <$> G))) as -> by done.
  rewrite last_sizes_columns. cbn [length].
  rewrite sum_replicate_1. f_equal. f_equal. f_equal.
  apply list_fmap_ext. intros o ? [-> Ho]%lookup_seq. cbn [Nat.add].
  generalize (g0 :: G). intros G'.
  induction G' as [|g G' IH]; [done|]. rewrite !fmap_cons. cbn [concat].
  rewrite IH, last_size_column. cbn [default tab data].
  rewrite take_1_drop by (rewrite length_fmap, length_seq; simpl; nia).
  rewrite tabulate_lookup_total by (simpl; nia). simpl. do 2 f_equal. lia.
Qed.

Lemma columns_entry N J (G : list (nat → R)) n j c g :
  n < N → j < J → G !! c = Some g →
  entry3 (Tensor [N; J; length G]
            (concat ((λ o, (λ g : nat → R, g o) <$> G) <$> seq 0 (N * J))))
    J (length G) n j c
  = Some (g (n * J + j)).
Proof.
  intros Hn Hj Hg. unfold entry3. cbn [data].
  assert (c < length G) as Hc by by apply lookup_lt_Some in Hg.
  assert (n * J + j < N * J) as Ho by nia.
  rewrite (concat_lookup_matrix (N * J) (length G)).
  - rewrite flat_div, flat_mod by done.
    rewrite list_lookup_fmap, lookup_seq_lt by done. simpl.
    by rewrite list_lookup_fmap, Hg.
  - split; [by rewrite length_fmap, length_seq|].
    apply Forall_fmap, Forall_forall. intros o _. simpl. by rewrite length_fmap.
  - nia.
Qed.

(** ** The run of [softmax_integral_tensor] *)

Lemma reshape_infer_run (t : tensor) N J D :
  0 < N → 0 < J → length (data t) = N * J * D →
  reshape_infer t N J = Ok (tab [N; J; D] (λ q, data t !!! q)).
Proof.
  intros HN HJ Hlen. unfold reshape_infer.
  rewrite decide_False by nia.
  assert (length (data t) = D * (N * J)) as Hlen' by lia.
  rewrite decide_True by (rewrite Hlen'; apply Nat.Div0.mod_mul).
  rewrite Hlen', Nat.div_mul by nia. f_equal.
  rewrite (tensor_tab (Tensor [N; J; D] (data t))); [done|].
  simpl. lia.
Qed.

Section integral_proofs.

Variable cuda_comm_broadcast : tensor → list tensor.
Hypothesis cuda_comm_broadcast_copy : ∀ t, cuda_comm_broadcast t !! 0 = Some t.

Lemma softmax_integral_3d_run (preds : tensor) N J x y z :
  shape preds !! 0 = Some N → 0 < N → 0 < J →
  length (data preds) = N * J * (z * y * x) →
  let heat := softmax_axis (z * y * x) (numel []) (λ q, data preds !!! q) in
  softmax_integral_tensor cuda_comm_broadcast preds J x y (Some z)
  = Ok (Tensor [N; J; 3]
          (concat ((λ o, (λ g : nat → R, g o) <$>
             [ sum_axis x (numel [])
                 (mul_last x (sum_axis y (numel [x]) (sum_axis z (numel [y; x]) heat)) INR);
               sum_axis y (numel [])
                 (mul_last y (sum_axis x (numel []) (sum_axis z (numel [y; x]) heat)) INR);
               sum_axis z (numel [])
                 (mul_last z (sum_axis x (numel []) (sum_axis y (numel [x]) heat)) INR) ])
           <$> seq 0 (N * J)))).
Proof using cuda_comm_broadcast_copy.
  intros Hshape HN HJ Hlen heat. unfold softmax_integral_tensor.
  rewrite Hshape. cbn [index_or_raise rbind Ok].
  rewrite (reshape_infer_run preds N J (z * y * x)) by done. cbn [rbind Ok].
  rewrite (F_softmax_tab [N; J] (z * y * x) []). cbn [rbind Ok app]. fold heat.
  unfold generate_3d_integral_preds_tensor. cbn [shape tab lookup list_lookup].
  cbn [index_or_raise rbind Ok].
  rewrite (reshape_tab _ [N; J; z; y; x]) by (simpl; lia). cbn [rbind Ok].
  rewrite (torch_sum_tab [N; J] z [y; x] false). cbn [rbind Ok app].
  rewrite (torch_sum_tab [N; J] y [x] false). cbn [rbind Ok app].
  rewrite (torch_sum_tab [N; J; y] x [] false). cbn [rbind Ok app].
  rewrite (torch_sum_tab [N; J; z] y [x] false). cbn [rbind Ok app].
  rewrite (torch_sum_tab [N; J; z] x [] false). cbn [rbind Ok app].
  rewrite !cuda_comm_broadcast_copy. cbn [index_or_raise rbind Ok].
  rewrite !torch_mul_arange by done. cbn [rbind Ok].
  rewrite (torch_sum_tab [N; J] x [] true). cbn [rbind Ok app].
  rewrite (torch_sum_tab [N; J] y [] true). cbn [rbind Ok app].
  rewrite (torch_sum_tab [N; J] z [] true). cbn [rbind Ok app].
  apply (torch_cat_2_columns N J _ [_; _]).
Qed.

Lemma softmax_integral_2d_run (preds : tensor) N J x y :
  shape preds !! 0 = Some N → 0 < N → 0 < J →
  length (data preds) = N * J * (y * x) →
  let heat := softmax_axis (y * x) (numel []) (λ q, data preds !!! q) in
  softmax_integral_tensor cuda_comm_broadcast preds J x y None
  = Ok (Tensor [N; J; 2]
          (concat ((λ o, (λ g : nat → R, g o) <$>
             [ sum_axis x (numel []) (mul_last x (sum_axis y (numel [x]) heat) INR);
               sum_axis y (numel []) (mul_last y (sum_axis x (numel []) heat) INR) ])
           <$> seq 0 (N * J)))).
Proof using cuda_comm_broadcast_copy.
  intros Hshape HN HJ Hlen heat. unfold softmax_integral_tensor.
  rewrite Hshape. cbn [index_or_raise rbind Ok].
  rewrite (reshape_infer_run preds N J (y * x)) by done. cbn [rbind Ok].
  rewrite (F_softmax_tab [N; J] (y * x) []). cbn [rbind Ok app]. fold heat.
  unfold generate_3d_integral_preds_tensor. cbn [shape tab lookup list_lookup].
  cbn [index_or_raise rbind Ok].
  rewrite (reshape_tab _ [N; J; y; x]) by (simpl; lia). cbn [rbind Ok].
  rewrite (torch_sum_tab [N; J] y [x] false). cbn [rbind Ok app].
  rewrite (torch_sum_tab [N; J; y] x [] false). cbn [rbind Ok app].
  rewrite !cuda_comm_broadcast_copy. cbn [index_or_raise rbind Ok].
  rewrite !torch_mul_arange by done. cbn [rbind Ok].
  rewrite (torch_sum_tab [N; J] x [] true). cbn [rbind Ok app].
  rewrite (torch_sum_tab [N; J] y [] true). cbn [rbind Ok app fst snd].
  apply (torch_cat_2_columns N J _ [_]).
Qed.

End integral_proofs.

(** ** The results at one joint *)

Lemma numel_1 x : numel [x] = x.
Proof. simpl. lia. Qed.

Lemma numel_2 y x : numel [y; x] = y * x.
Proof. simpl. lia. Qed.

Lemma integral_x_3d (h : nat → R) x y z o :
  sum_axis x (numel [])
    (mul_last x (sum_axis y (numel [x]) (sum_axis z (numel [y; x]) h)) INR) o
  = sum_upto x (λ i : nat,
      (sum_upto y (λ b : nat,
         sum_upto z (λ a : nat, h (o * (z * y * x) + ((a * y + b) * x + i))%nat))
       * INR i)%R).
Proof.
  rewrite sum_axis_last. apply sum_upto_ext. intros i Hi.
  unfold mul_last. rewrite flat_mod by done. f_equal.
  rewrite numel_1, sum_axis_flat by done. apply sum_upto_ext. intros b Hb.
  rewrite numel_2. replace ((o * y + b) * x + i) with (o * (y * x) + (b * x + i)) by lia.
  rewrite sum_axis_flat by nia. apply sum_upto_ext. intros a Ha. f_equal. lia.
Qed.

Lemma integral_y_3d (h : nat → R) x y z o :
  sum_axis y (numel [])
    (mul_last y (sum_axis x (numel []) (sum_axis z (numel [y; x]) h)) INR) o
  = sum_upto y (λ b : nat,
      (sum_upto x (λ i : nat,
         sum_upto z (λ a : nat, h (o * (z * y * x) + ((a * y + b) * x + i))%nat))
       * INR b)%R).
Proof.
  rewrite sum_axis_last. apply sum_upto_ext. intros b Hb.
  unfold mul_last. rewrite flat_mod by done. f_equal.
  rewrite sum_axis_last. apply sum_upto_ext. intros i Hi.
  rewrite numel_2. replace ((o * y + b) * x + i) with (o * (y * x) + (b * x + i)) by lia.
  rewrite sum_axis_flat by nia. apply sum_upto_ext. intros a Ha. f_equal. lia.
Qed.

Lemma integral_z_3d (h : nat → R) x y z o :
  sum_axis z (numel [])
    (mul_last z (sum_axis x (numel []) (sum_axis y (numel [x]) h)) INR) o
  = sum_upto z (λ a : nat,
      (sum_upto x (λ i : nat,
         sum_upto y (λ b : nat, h (o * (z * y * x) + ((a * y + b) * x + i))%nat))
       * INR a)%R).
Proof.
  rewrite sum_axis_last. apply sum_upto_ext. intros a Ha.
  unfold mul_last. rewrite flat_mod by done. f_equal.
  rewrite sum_axis_last. apply sum_upto_ext. intros i Hi.
  rewrite numel_1, sum_axis_flat by done. apply sum_upto_ext. intros b Hb.
  f_equal. lia.
Qed.

Lemma integral_x_2d (h : nat → R) x y o :
  sum_axis x (numel []) (mul_last x (sum_axis y (numel [x]) h) INR) o
  = sum_upto x (λ i : nat,
      (sum_upto y (λ b : nat, h (o * (y * x) + (b * x + i))%nat) * INR i)%R).
Proof.
  rewrite sum_axis_last. apply sum_upto_ext. intros i Hi.
  unfold mul_last. rewrite flat_mod by done. f_equal.
  rewrite numel_1, sum_axis_flat by done. apply sum_upto_ext. intros b Hb.
  f_equal. lia.
Qed.

Lemma integral_y_2d (h : nat → R) x y o :
  sum_axis y (numel []) (mul_last y (sum_axis x (numel []) h) INR) o
  = sum_upto y (λ b : nat,
      (sum_upto x (λ i : nat, h (o * (y * x) + (b * x + i))%nat) * INR b)%R).
Proof.
  rewrite sum_axis_last. apply sum_upto_ext. intros b Hb.
  unfold mul_last. rewrite flat_mod by done. f_equal.
  rewrite sum_axis_last. apply sum_upto_ext. intros i Hi.
  f_equal. lia.
Qed.

(** ** Sums over the positions of a map *)

Lemma sum3_flat z y x (f : nat → R) :
  sum_upto (z * y * x) f
  = sum_upto z (λ a, sum_upto y (λ b, sum_upto x (λ i, f ((a * y + b) * x + i)))).
Proof.
  rewrite (sum_upto_mul (z * y) x f).
  by rewrite (sum_upto_mul z y (λ ab, sum_upto x (λ i, f (ab * x + i)))).
Qed.

Lemma sum3_iba x y z (F : nat → nat → nat → R) :
  sum_upto x (λ i, sum_upto y (λ b, sum_upto z (λ a, F a b i)))
  = sum_upto z (λ a, sum_upto y (λ b, sum_upto x (λ i, F a b i))).
Proof.
  transitivity (sum_upto x (λ i, sum_upto z (λ a, sum_upto y (λ b, F a b i)))).
  { apply sum_upto_ext. intros i _. apply (sum_upto_swap y z (λ b a, F a b i)). }
  rewrite (sum_upto_swap x z (λ i a, sum_upto y (λ b, F a b i))).
  apply sum_upto_ext. intros a _. apply (sum_upto_swap x y (λ i b, F a b i)).
Qed.

Lemma sum3_bia x y z (F : nat → nat → nat → R) :
  sum_upto y (λ b, sum_upto x (λ i, sum_upto z (λ a, F a b i)))
  = sum_upto z (λ a, sum_upto y (λ b, sum_upto x (λ i, F a b i))).
Proof.
  transitivity (sum_upto y (λ b, sum_upto z (λ a, sum_upto x (λ i, F a b i)))).
  { apply sum_upto_ext. intros b _. apply (sum_upto_swap x z (λ i a, F a b i)). }
  apply (sum_upto_swap y z (λ b a, sum_upto x (λ i, F a b i))).
Qed.

Lemma sum3_aib x y z (F : nat → nat → nat → R) :
  sum_upto z (λ a, sum_upto x (λ i, sum_upto y (λ b, F a b i)))
  = sum_upto z (λ a, sum_upto y (λ b, sum_upto x (λ i, F a b i))).
Proof.
  apply sum_upto_ext. intros a _. apply (sum_upto_swap x y (λ i b, F a b i)).
Qed.

Lemma sum2_scale m n (f : nat → nat → R) (c : R) :
  (sum_upto m (λ a, sum_upto n (λ b, f a b)) * c)%R
  = sum_upto m (λ a, sum_upto n (λ b, f a b * c)%R).
Proof.
  rewrite sum_upto_scale. apply sum_upto_ext. intros a _. apply sum_upto_scale.
Qed.

(** ** The expectations *)

Lemma flat_coords x y z a b i :
  a < z → b < y → i < x →
  x_of x ((a * y + b) * x + i) = i
  ∧ y_of x y ((a * y + b) * x + i) = b
  ∧ z_of x y ((a * y + b) * x + i) = a.
Proof.
  intros Ha Hb Hi. unfold x_of, y_of, z_of. split; [|split].
  - by apply flat_mod.
  - rewrite flat_div by done. by apply flat_mod.
  - replace ((a * y + b) * x + i) with (a * (x * y) + (b * x + i)) by lia.
    apply flat_div. nia.
Qed.

Lemma expectation_x_3d (p : nat → R) x y z :
  sum_upto x (λ i : nat,
    (sum_upto y (λ b : nat, sum_upto z (λ a : nat, p ((a * y + b) * x + i)%nat))
     * INR i)%R)
  = expectation (z * y * x) p (x_of x).
Proof.
  unfold expectation. rewrite sum3_flat.
  rewrite <-(sum3_iba x y z (λ a b i : nat,
       (p ((a * y + b) * x + i)%nat * INR (x_of x ((a * y + b) * x + i)%nat))%R)).
  apply sum_upto_ext. intros i Hi. rewrite sum2_scale.
  apply sum_upto_ext. intros b Hb. apply sum_upto_ext. intros a Ha.
  by destruct (flat_coords x y z a b i) as (-> & _ & _).
Qed.

Lemma expectation_y_3d (p : nat → R) x y z :
  sum_upto y (λ b : nat,
    (sum_upto x (λ i : nat, sum_upto z (λ a : nat, p ((a * y + b) * x + i)%nat))
     * INR b)%R)
  = expectation (z * y * x) p (y_of x y).
Proof.
  unfold expectation. rewrite sum3_flat.
  rewrite <-(sum3_bia x y z (λ a b i : nat,
       (p ((a * y + b) * x + i)%nat * INR (y_of x y ((a * y + b) * x + i)%nat))%R)).
  apply sum_upto_ext. intros b Hb. rewrite sum2_scale.
  apply sum_upto_ext. intros i Hi. apply sum_upto_ext. intros a Ha.
  by destruct (flat_coords x y z a b i) as (_ & -> & _).
Qed.

Lemma expectation_z_3d (p : nat → R) x y z :
  sum_upto z (λ a : nat,
    (sum_upto x (λ i : nat, sum_upto y (λ b : nat, p ((a * y + b) * x + i)%nat))
     * INR a)%R)
  = expectation (z * y * x) p (z_of x y).
Proof.
  unfold expectation. rewrite sum3_flat.
  rewrite <-(sum3_aib x y z (λ a b i : nat,
       (p ((a * y + b) * x + i)%nat * INR (z_of x y ((a * y + b) * x + i)%nat))%R)).
  apply sum_upto_ext. intros a Ha. rewrite sum2_scale.
  apply sum_upto_ext. intros i Hi. apply sum_upto_ext. intros b Hb.
  by destruct (flat_coords x y z a b i) as (_ & _ & ->).
Qed.

Lemma expectation_x_2d (p : nat → R) x y :
  sum_upto x (λ i : nat, (sum_upto y (λ b : nat, p (b * x + i)%nat) * INR i)%R)
  = expectation (y * x) p (x_of x).
Proof.
  unfold expectation. rewrite sum_upto_mul.
  rewrite (sum_upto_swap y x (λ b i : nat, (p (b * x + i)%nat * INR (x_of x (b * x + i)%nat))%R)).
  apply sum_upto_ext. intros i Hi. rewrite sum_upto_scale.
  apply sum_upto_ext. intros b Hb. unfold x_of. by rewrite flat_mod.
Qed.

Lemma expectation_y_2d (p : nat → R) x y :
  sum_upto y (λ b : nat, (sum_upto x (λ i : nat, p (b * x + i)%nat) * INR b)%R)
  = expectation (y * x) p (y_of x y).
Proof.
  unfold expectation. rewrite sum_upto_mul.
  apply sum_upto_ext. intros b Hb. rewrite sum_upto_scale.
  apply sum_upto_ext. intros i Hi. unfold y_of.
  rewrite flat_div by done. by rewrite Nat.mod_small.
Qed.

(** The expectation is the marginal weighted by the index values. *)
Lemma sum_upto_single extent c (v : R) (w : nat → R) :
  c < extent →
  sum_upto extent (λ i : nat, ((if decide (c = i) then v else 0) * w i)%R) = (v * w c)%R.
Proof.
  induction extent as [|extent IH]; intros Hc; [lia|]. rewrite sum_upto_S.
  destruct (decide (c = extent)) as [->|Hne].
  - assert (sum_upto extent
              (λ i : nat, ((if decide (extent = i) then v else 0) * w i)%R) = 0%R) as ->.
    { transitivity (sum_upto extent (λ _, 0%R)); [|apply sum_upto_zero].
      apply sum_upto_ext. intros i Hi.
      destruct (decide (extent = i)); [lia|ring]. }
    destruct (decide (extent = extent)); [ring|done].
  - rewrite IH by lia. destruct (decide (c = extent)); [done|ring].
Qed.

Lemma expectation_marginal D (p : nat → R) coord extent :
  (∀ d, d < D → coord d < extent) →
  weighted_marginal D p coord extent = expectation D p coord.
Proof.
  intros Hcoord. unfold weighted_marginal, marginal, expectation.
  transitivity (sum_upto extent (λ i : nat, sum_upto D (λ d : nat,
                  ((if decide (coord d = i) then p d else 0) * INR i)%R))).
  { apply sum_upto_ext. intros i _. apply sum_upto_scale. }
  rewrite (sum_upto_swap extent D
             (λ i d, ((if decide (coord d = i) then p d else 0) * INR i)%R)).
  apply sum_upto_ext. intros d Hd. apply sum_upto_single. by apply Hcoord.
Qed.

(** The softmax of a joint is a probability mass. *)
Lemma joint_prob_pos (preds : tensor) J D n j d :
  0 < D → (0 < joint_prob preds J D n j d)%R.
Proof.
  intros HD. unfold joint_prob. apply Rdiv_lt_0_compat; [apply exp_pos|].
  apply sum_upto_pos; [done|]. intros k _. apply exp_pos.
Qed.

Lemma joint_prob_sum (preds : tensor) J D n j :
  0 < D → sum_upto D (joint_prob preds J D n j) = 1%R.
Proof.
  intros HD. unfold joint_prob.
  set (S := sum_upto D (λ d' : nat, exp (data preds !!! ((n * J + j) * D + d')%nat))).
  assert (0 < S)%R as HS by (apply sum_upto_pos; [done|]; intros k _; apply exp_pos).
  unfold Rdiv. rewrite <-(sum_upto_scale D _ (/ S)). fold S. field. lra.
Qed.

(** ** The coordinates of a joint *)

Lemma heat_at (preds : tensor) J D n j d :
  d < D →
  softmax_axis D (numel []) (λ q, data preds !!! q) ((n * J + j) * D + d)
  = joint_prob preds J D n j d.
Proof. intros Hd. by rewrite softmax_axis_last. Qed.

Lemma flat2_bound y x b i : b < y → i < x → b * x + i < y * x.
Proof.
  intros Hb Hi. assert ((b + 1) * x ≤ y * x) by (apply Nat.mul_le_mono_r; lia). lia.
Qed.

Lemma flat3_bound z y x a b i :
  a < z → b < y → i < x → (a * y + b) * x + i < z * y * x.
Proof.
  intros Ha Hb Hi. apply flat2_bound; [|done]. by apply flat2_bound.
Qed.

Lemma coordinate_x_3d (preds : tensor) J x y z n j :
  let heat := softmax_axis (z * y * x) (numel []) (λ q, data preds !!! q) in
  sum_axis x (numel [])
    (mul_last x (sum_axis y (numel [x]) (sum_axis z (numel [y; x]) heat)) INR)
    (n * J + j)
  = expectation (z * y * x) (joint_prob preds J (z * y * x) n j) (x_of x).
Proof.
  intros heat. rewrite integral_x_3d, <-expectation_x_3d.
  apply sum_upto_ext. intros i Hi. f_equal.
  apply sum_upto_ext. intros b Hb. apply sum_upto_ext. intros a Ha.
  apply heat_at. by apply flat3_bound.
Qed.

Lemma coordinate_y_3d (preds : tensor) J x y z n j :
  let heat := softmax_axis (z * y * x) (numel []) (λ q, data preds !!! q) in
  sum_axis y (numel [])
    (mul_last y (sum_axis x (numel []) (sum_axis z (numel [y; x]) heat)) INR)
    (n * J + j)
  = expectation (z * y * x) (joint_prob preds J (z * y * x) n j) (y_of x y).
Proof.
  intros heat. rewrite integral_y_3d, <-expectation_y_3d.
  apply sum_upto_ext. intros b Hb. f_equal.
  apply sum_upto_ext. intros i Hi. apply sum_upto_ext. intros a Ha.
  apply heat_at. by apply flat3_bound.
Qed.

Lemma coordinate_z_3d (preds : tensor) J x y z n j :
  let heat := softmax_axis (z * y * x) (numel []) (λ q, data preds !!! q) in
  sum_axis z (numel [])
    (mul_last z (sum_axis x (numel []) (sum_axis y (numel [x]) heat)) INR)
    (n * J + j)
  = expectation (z * y * x) (joint_prob preds J (z * y * x) n j) (z_of x y).
Proof.
  intros heat. rewrite integral_z_3d, <-expectation_z_3d.
  apply sum_upto_ext. intros a Ha. f_equal.
  apply sum_upto_ext. intros i Hi. apply sum_upto_ext. intros b Hb.
  apply heat_at. by apply flat3_bound.
Qed.

Lemma coordinate_x_2d (preds : tensor) J x y n j :
  let heat := softmax_axis (y * x) (numel []) (λ q, data preds !!! q) in
  sum_axis x (numel []) (mul_last x (sum_axis y (numel [x]) heat) INR) (n * J + j)
  = expectation (y * x) (joint_prob preds J (y * x) n j) (x_of x).
Proof.
  intros heat. rewrite integral_x_2d, <-expectation_x_2d.
  apply sum_upto_ext. intros i Hi. f_equal.
  apply sum_upto_ext. intros b Hb. apply heat_at. by apply flat2_bound.
Qed.

Lemma coordinate_y_2d (preds : tensor) J x y n j :
  let heat := softmax_axis (y * x) (numel []) (λ q, data preds !!! q) in
  sum_axis y (numel []) (mul_last y (sum_axis x (numel []) heat) INR) (n * J + j)
  = expectation (y * x) (joint_prob preds J (y * x) n j) (y_of x y).
Proof.
  intros heat. rewrite integral_y_2d, <-expectation_y_2d.
  apply sum_upto_ext. intros b Hb. f_equal.
  apply sum_upto_ext. intros i Hi. apply heat_at. by apply flat2_bound.
Qed.

Lemma coordinates_in_range x y z d :
  0 < z * y * x → d < z * y * x →
  x_of x d < x ∧ y_of x y d < y ∧ z_of x y d < z.
Proof.
  intros HD Hd. unfold x_of, y_of, z_of. split; [|split].
  - apply Nat.mod_upper_bound. nia.
  - apply Nat.mod_upper_bound. nia.
  - apply Nat.Div0.div_lt_upper_bound. nia.
Qed.

Section integral_claim.

Variable cuda_comm_broadcast : tensor → list tensor.
Hypothesis cuda_comm_broadcast_copy : ∀ t, cuda_comm_broadcast t !! 0 = Some t.

(** C4.  For a tensor of [N] instances with [J] joints of [D] positions
    each, [D] the product of the sizes of the map, [softmax_integral_tensor]
    returns a tensor of shape (N, J, 2) or, with a depth, (N, J, 3).  The
    softmax of a joint is positive and sums to 1 over the [D] positions.
    Every coordinate of a joint is the marginal probability of the index on
    its axis, weighted by the index values and summed, which is the
    expectation of that index of the position under the softmax; the first
    coordinate is that of x, the second that of y and, with a depth, the
    third that of z.  The values are in index units: no ROI enters. *)
Theorem softmax_integral_expectation (preds : tensor) (N J x y : nat)
    (z : option nat) :
  shape preds !! 0 = Some N → 0 < N → 0 < J →
  0 < positions x y z →
  length (data preds) = N * J * positions x y z →
  ∃ out,
    softmax_integral_tensor cuda_comm_broadcast preds J x y z = Ok out
    ∧ shape out = [N; J; coordinates z]
    ∧ ∀ n j, n < N → j < J →
        let D := positions x y z in
        let p := joint_prob preds J D n j in
        (∀ d, d < D → (0 < p d)%R)
        ∧ sum_upto D p = 1%R
        ∧ entry3 out J (coordinates z) n j 0 = Some (weighted_marginal D p (x_of x) x)
        ∧ entry3 out J (coordinates z) n j 1 = Some (weighted_marginal D p (y_of x y) y)
        ∧ (∀ z', z = Some z' →
             entry3 out J (coordinates z) n j 2
             = Some (weighted_marginal D p (z_of x y) z'))
        ∧ weighted_marginal D p (x_of x) x = expectation D p (x_of x)
        ∧ weighted_marginal D p (y_of x y) y = expectation D p (y_of x y)
        ∧ (∀ z', z = Some z' →
             weighted_marginal D p (z_of x y) z' = expectation D p (z_of x y)).
Proof using cuda_comm_broadcast_copy.
  intros Hshape HN HJ HD Hlen. destruct z as [z|]; cbn [positions coordinates] in *.
  - rewrite (softmax_integral_3d_run cuda_comm_broadcast cuda_comm_broadcast_copy
               preds N J x y z) by done.
    eexists. split; [reflexivity|]. split; [done|]. intros n j Hn Hj. cbv zeta.
    set (p := joint_prob preds J (z * y * x) n j).
    assert (weighted_marginal (z * y * x) p (x_of x) x
            = expectation (z * y * x) p (x_of x)) as Hx.
    { apply expectation_marginal. intros d Hd.
      by destruct (coordinates_in_range x y z d) as (? & ? & ?). }
    assert (weighted_marginal (z * y * x) p (y_of x y) y
            = expectation (z * y * x) p (y_of x y)) as Hy.
    { apply expectation_marginal. intros d Hd.
      by destruct (coordinates_in_range x y z d) as (? & ? & ?). }
    assert (weighted_marginal (z * y * x) p (z_of x y) z
            = expectation (z * y * x) p (z_of x y)) as Hz.
    { apply expectation_marginal. intros d Hd.
      by destruct (coordinates_in_range x y z d) as (? & ? & ?). }
    split; [intros d _; by apply joint_prob_pos|].
    split; [by apply joint_prob_sum|].
    split; [|split; [|split; [|split; [done|split; [done|]]]]].
    + rewrite Hx. unfold p. rewrite <-coordinate_x_3d.
      by apply (columns_entry N J [_; _; _] n j 0).
    + rewrite Hy. unfold p. rewrite <-coordinate_y_3d.
      by apply (columns_entry N J [_; _; _] n j 1).
    + intros z' [= <-]. rewrite Hz. unfold p. rewrite <-coordinate_z_3d.
      by apply (columns_entry N J [_; _; _] n j 2).
    + by intros z' [= <-].
  - rewrite (softmax_integral_2d_run cuda_comm_broadcast cuda_comm_broadcast_copy
               preds N J x y) by done.
    eexists. split; [reflexivity|]. split; [done|]. intros n j Hn Hj. cbv zeta.
    set (p := joint_prob preds J (y * x) n j).
    assert (weighted_marginal (y * x) p (x_of x) x = expectation (y * x) p (x_of x)) as Hx.
    { apply expectation_marginal. intros d Hd. apply Nat.mod_upper_bound. nia. }
    assert (weighted_marginal (y * x) p (y_of x y) y
            = expectation (y * x) p (y_of x y)) as Hy.
    { apply expectation_marginal. intros d Hd. apply Nat.mod_upper_bound. nia. }
    split; [intros d _; by apply joint_prob_pos|].
    split; [by apply joint_prob_sum|].
    split; [|split; [|split; [done|split; [done|split; [done|done]]]]].
    + rewrite Hx. unfold p. rewrite <-coordinate_x_2d.
      by apply (columns_entry N J [_; _] n j 0).
    + rewrite Hy. unfold p. rewrite <-coordinate_y_2d.
      by apply (columns_entry N J [_; _] n j 1).
Qed.

End integral_claim.

Lemma broadcast_here_copy t : broadcast_here t !! 0 = Some t.
Proof. done. Qed.

Ltac eval_marginal :=
  unfold weighted_marginal, marginal, joint_prob, x_of, y_of, z_of;
  repeat (unfold sum_upto; simpl); rewrite ?exp_0; lra.

(** Two positions with equal scores: side by side in a map of width 2 the
    x coordinate is 1/2 and y is 0; one behind the other in a map of depth
    2 the z coordinate is 1/2 and x and y are 0. *)
Lemma softmax_integral_expectation_witness :
  (∃ out, softmax_integral_tensor broadcast_here pair_map 1 2 1 None = Ok out
          ∧ entry3 out 1 2 0 0 0 = Some (1 / 2)%R
          ∧ entry3 out 1 2 0 0 1 = Some 0%R)
  ∧ (∃ out, softmax_integral_tensor broadcast_here pair_map 1 1 1 (Some 2) = Ok out
            ∧ entry3 out 1 3 0 0 0 = Some 0%R
            ∧ entry3 out 1 3 0 0 1 = Some 0%R
            ∧ entry3 out 1 3 0 0 2 = Some (1 / 2)%R).
Proof.
  split.
  - destruct (softmax_integral_expectation broadcast_here broadcast_here_copy
                pair_map 1 1 2 1 None) as (out & Hrun & _ & Hout);
      [reflexivity|lia|lia|simpl; lia|reflexivity|].
    destruct (Hout 0 0) as (_ & _ & Hx & Hy & _); [lia|lia|].
    exists out. split; [done|]. cbn [coordinates positions] in Hx, Hy.
    rewrite Hx, Hy. split; f_equal; eval_marginal.
  - destruct (softmax_integral_expectation broadcast_here broadcast_here_copy
                pair_map 1 1 1 1 (Some 2)) as (out & Hrun & _ & Hout);
      [reflexivity|lia|lia|simpl; lia|reflexivity|].
    destruct (Hout 0 0) as (_ & _ & Hx & Hy & Hz & _); [lia|lia|].
    specialize (Hz 2 eq_refl).
    exists out. split; [done|]. cbn [coordinates positions] in Hx, Hy, Hz.
    rewrite Hx, Hy, Hz. repeat split; f_equal; eval_marginal.
Defined.


(* ===================================================================== *)
(** * [keypoints_to_heatmap_labels]: which keypoints get a label *)
(* ===================================================================== *)















(** X4.  [keypoints_to_heatmap_labels] checks the number of joints before
    anything else is computed: with the configuration in place, an array
    of keypoints whose joints are not [NUM_KEYPOINTS] many fails the
    assertion, whatever the ROIs are. *)
Theorem wrong_joint_count_fails_assertion c (keypoints : arr3) K rois :
  keypoints ≠ [] → kp_array K keypoints → K ≠ NUM_KEYPOINTS c →
  keypoints_to_heatmap_labels (globals_with c) keypoints rois = Raise AssertionError.
Proof.
  intros Hne [Hch Hrows] HK. unfold keypoints_to_heatmap_labels.
  rewrite cfg_KRCNN_globals_with. cbn [rbind Ok].
  rewrite decide_False; [done|].
  destruct keypoints as [|inst rest]; [done|].
  apply Forall_cons in Hch as [Hinst _]. apply Forall_cons in Hrows as [Hrow _].
  destruct inst as [|row inst]; [simpl in Hinst; lia|].
  apply Forall_cons in Hrow as [Hrow _]. simpl. lia.
Qed.

Lemma wrong_joint_count_fails_assertion_witness :
  keypoints_to_heatmap_labels (globals_with one_joint_cfg) coco_blank_pose [square_roi]
  = Raise AssertionError.
Proof.
  apply (wrong_joint_count_fails_assertion one_joint_cfg coco_blank_pose 17).
  - done.
  - split; repeat (apply Forall_replicate); [simpl; lia|].
    by rewrite length_replicate.
  - simpl. lia.
Defined.


(* ===================================================================== *)
(** * [flip_keypoints]: one flip *)
(* ===================================================================== *)

(** Under a flip map of disjoint pairs the two joints of a pair are each
    other's source. *)
Lemma src_map_pair ids l r :
  NoDup (ids.*1 ++ ids.*2) → (l, r) ∈ ids → src_map ids l = r ∧ src_map ids r = l.
Proof.
  unfold src_map. induction ids as [|[l' r'] ids IH] using rev_ind; intros Hnd Hin.
  { by apply elem_of_nil in Hin. }
  apply NoDup_pairs_snoc in Hnd as (Hnd & Hlr & Hl' & Hr').
  rewrite !src_from_snoc. unfold swap_src.
  apply elem_of_app in Hin as [Hin|Hin%list_elem_of_singleton].
  - assert (l ∈ ids.*1 ++ ids.*2) as Hl.
    { apply elem_of_app. left. apply list_elem_of_fmap. by exists (l, r). }
    assert (r ∈ ids.*1 ++ ids.*2) as Hr.
    { apply elem_of_app. right. apply list_elem_of_fmap. by exists (l, r). }
    rewrite !decide_False by (intros ->; done). by apply IH.
  - injection Hin as -> ->.
    rewrite (decide_False (P := l' = r')) by done.
    by rewrite !decide_True by done.
Qed.

Lemma flipped_entry_mirrored f width (a b : arr3) j :
  (∀ i c, get3 b i c j = flipped_entry f width a i c j) →
  mirrored_joint width a b j (f j).
Proof.
  intros Hb i. split.
  - intros c Hc. rewrite Hb. unfold flipped_entry. by rewrite decide_False.
  - rewrite Hb. unfold flipped_entry. rewrite decide_True by done.
    case_decide; by destruct (get3 a i 0 (f j)).
Qed.

(** X5.  One call of [flip_keypoints] with a flip map of disjoint pairs of
    joints of the schema returns a new array of the input's shape in which
    the two joints of every pair have changed places and every other joint
    stays in its place; in every joint, paired or not, x becomes
    [width - x - 1], or 0 where the joint's visibility is 0, and the other
    channels are copied. *)
Theorem flip_keypoints_mirrors keypoints flip_map kp width K (a : arr3) ids (σ : store) :
  σ !! kp = Some (Arr3 a) → kp_array K a →
  joint_ids keypoints flip_map = Ok ids →
  NoDup (ids.*1 ++ ids.*2) →
  Forall (λ p, p.1 < K ∧ p.2 < K) ids →
  ∃ l b, flip_keypoints keypoints flip_map kp width σ = (Ok l, <[l := Arr3 b]> σ)
    ∧ (l ∉ dom σ)
    ∧ shape3 b = shape3 a
    ∧ (∀ lid rid, (lid, rid) ∈ ids →
         mirrored_joint width a b lid rid ∧ mirrored_joint width a b rid lid)
    ∧ (∀ j, j ∉ ids.*1 ++ ids.*2 → mirrored_joint width a b j j).
Proof.
  intros Hkp Ha Hids Hnd HK.
  destruct (flip_keypoints_run keypoints flip_map kp width K a ids σ)
    as (l & b & Hrun & Hl & Hs & Hg); [done..|].
  exists l, b. split; [done|]. split; [done|]. split; [done|]. split.
  - intros lid rid Hin. destruct (src_map_pair ids lid rid Hnd Hin) as [Hlr Hrl].
    split.
    + rewrite <-Hlr. apply flipped_entry_mirrored. intros i c. apply Hg.
    + rewrite <-Hrl. apply flipped_entry_mirrored. intros i c. apply Hg.
  - intros j Hj.
    assert (src_map ids j = j) as Hjj by by apply src_from_notin.
    rewrite <-Hjj at 2. apply flipped_entry_mirrored. intros i c. apply Hg.
Qed.

Lemma coco_joint_ids : joint_ids get_keypoints.1 get_keypoints.2 = Ok coco_ids.
Proof. vm_compute. reflexivity. Qed.

Lemma flip_keypoints_mirrors_witness :
  ∃ l b, flip_keypoints get_keypoints.1 get_keypoints.2 0 640%R
           {[0 := Arr3 coco_blank_pose]}
         = (Ok l, <[l := Arr3 b]> {[0 := Arr3 coco_blank_pose]})
         ∧ mirrored_joint 640 coco_blank_pose b 1 2
         ∧ mirrored_joint 640 coco_blank_pose b 0 0.
Proof.
  destruct (flip_keypoints_mirrors get_keypoints.1 get_keypoints.2 0 640%R 17
              coco_blank_pose coco_ids {[0 := Arr3 coco_blank_pose]})
    as (l & b & Hrun & _ & _ & Hpairs & Hrest).
  - apply lookup_singleton_eq.
  - split; repeat (apply Forall_replicate); [simpl; lia|].
    by rewrite length_replicate.
  - apply coco_joint_ids.
  - apply (bool_decide_unpack _). vm_compute. reflexivity.
  - apply (bool_decide_unpack _). vm_compute. reflexivity.
  - exists l, b. split; [done|]. split.
    + destruct (Hpairs 1 2) as [H12 _]; [by left|done].
    + apply Hrest. apply (bool_decide_unpack _). vm_compute. reflexivity.
Defined.

(* ===================================================================== *)
(** * [flip_keypoints]: a name that is not in the schema *)
(* ===================================================================== *)

Lemma list_index_notin keypoints name :
  name ∉ keypoints → list_index keypoints name = Raise ValueError.
Proof.
  induction keypoints as [|y keypoints IH]; intros Hnot; [done|].
  apply not_elem_of_cons in Hnot as [Hne Hnot]. simpl.
  rewrite decide_False by done. by rewrite IH.
Qed.

Lemma list_index_in keypoints name :
  name ∈ keypoints → ∃ i, list_index keypoints name = Ok i ∧ keypoints !! i = Some name.
Proof.
  induction keypoints as [|y keypoints IH]; intros Hin; [by apply elem_of_nil in Hin|].
  simpl. destruct (decide (y = name)) as [->|Hne]; [by exists 0|].
  apply elem_of_cons in Hin as [?|Hin]; [done|].
  destruct (IH Hin) as (i & -> & Hi). by exists (S i).
Qed.

Lemma for_each_app {A} (xs ys : list A) body (σ σ1 : store) :
  for_each xs body σ = (Ok tt, σ1) →
  for_each (xs ++ ys) body σ = for_each ys body σ1.
Proof.
  revert σ. induction xs as [|x xs IH]; intros σ Hxs; simpl in *.
  - unfold mret in Hxs. by injection Hxs as ->.
  - unfold mbind in *. destruct (body x σ) as [[e|[]] σ']; [done|]. by apply IH.
Qed.

Lemma flip_pair_unknown keypoints kp fl lkp rkp (σ : store) :
  lkp ∉ keypoints ∨ rkp ∉ keypoints →
  flip_pair keypoints kp fl (lkp, rkp) σ = (Raise ValueError, σ).
Proof.
  intros Hnot. unfold flip_pair.
  destruct (decide (lkp ∈ keypoints)) as [Hl|Hl].
  - destruct (list_index_in keypoints lkp Hl) as (lid & Hlid & _).
    rewrite (mbind_Ok _ _ _ lid σ) by by apply lift_Ok.
    destruct Hnot as [?|Hr]; [done|].
    unfold mbind, lift. by rewrite (list_index_notin keypoints rkp Hr).
  - unfold mbind, lift. by rewrite (list_index_notin keypoints lkp Hl).
Qed.

(** X6.  When a pair of the flip map names a joint that is not in the
    schema, [flip_keypoints] raises [ValueError] at that pair, after the
    pairs before it, and the caller's array is as it was. *)
Theorem flip_keypoints_unknown_joint keypoints flip_map pre lkp rkp post kp width K
    (a : arr3) ids (σ : store) :
  σ !! kp = Some (Arr3 a) → rows_of K a →
  flip_map = pre ++ (lkp, rkp) :: post →
  joint_ids keypoints pre = Ok ids →
  Forall (λ p, p.1 < K ∧ p.2 < K) ids →
  lkp ∉ keypoints ∨ rkp ∉ keypoints →
  ∃ σ', flip_keypoints keypoints flip_map kp width σ = (Raise ValueError, σ')
        ∧ σ' !! kp = Some (Arr3 a).
Proof.
  intros Hkp Hrows -> Hids HK Hnot.
  pose (l := fresh (dom σ)).
  assert (l ∉ dom σ) as Hfresh by apply is_fresh.
  assert (kp ≠ l) as Hne.
  { intros ->. apply Hfresh, elem_of_dom. eauto. }
  destruct (flip_pairs_run keypoints kp l K a pre Hrows Hne ids
              (<[l := Arr3 a]> σ) a (λ j, j))
    as (d1 & Hloop & _ & _); [done|done| | |done|done|].
  { by rewrite lookup_insert_ne. }
  { by rewrite lookup_insert_eq. }
  rewrite insert_insert_eq in Hloop.
  exists (<[l := Arr3 d1]> σ). split; [|by rewrite lookup_insert_ne].
  unfold flip_keypoints, np_copy.
  rewrite (mbind_Ok _ _ _ l (<[l := Arr3 a]> σ)).
  2:{ rewrite (mbind_Ok _ _ _ (Arr3 a) σ); [done|]. unfold load. by rewrite Hkp. }
  unfold mbind at 1.
  rewrite (for_each_app pre _ _ _ _ Hloop). cbn [for_each].
  unfold mbind at 1. by rewrite flip_pair_unknown.
Qed.

Lemma flip_keypoints_unknown_joint_witness :
  ∃ σ', flip_keypoints two_joint_schema stray_flip_map 0 100%R
          {[0 := Arr3 two_joint_pose]} = (Raise ValueError, σ')
        ∧ σ' !! 0 = Some (Arr3 two_joint_pose).
Proof.
  apply (flip_keypoints_unknown_joint two_joint_schema stray_flip_map []
           "left_eye" "right_ear" [] 0 100%R 2 two_joint_pose []).
  - apply lookup_singleton_eq.
  - repeat constructor.
  - reflexivity.
  - reflexivity.
  - constructor.
  - right. apply (bool_decide_unpack _). vm_compute. reflexivity.
Defined.


(* ===================================================================== *)
(** * [scores_to_probs] *)
(* ===================================================================== *)













(** ** Shifted scores *)






(** ** Channels without cells *)

(** X10.  [scores_to_probs] on an array whose channels have no cells: with
    no channel at all it returns its argument unchanged; otherwise the
    maximum of the first channel raises [ValueError] and nothing has been
    written. *)
Theorem scores_to_probs_without_cells l (a : arr3) (σ : store) :
  σ !! l = Some (Arr3 a) → Forall (λ plane : arr2, concat plane = []) a →
  scores_to_probs l σ = (match a with [] => Ok l | _ => Raise ValueError end, σ).
Proof.
  intros Hl Hempty. unfold scores_to_probs.
  rewrite (mbind_Ok _ _ _ a σ) by by apply load3_Ok.
  destruct a as [|plane rest]; [done|].
  apply Forall_cons in Hempty as [Hplane _].
  cbn [length seq for_each]. unfold mbind at 1. unfold mbind at 1.
  unfold softmax_channel.
  rewrite (mbind_Ok _ _ _ (plane :: rest) σ) by by apply load3_Ok.
  rewrite (mbind_Ok _ _ _ plane σ) by by apply lift_Ok.
  unfold mbind, lift. by rewrite Hplane.
Qed.

Lemma scores_to_probs_without_cells_witness :
  scores_to_probs 0 {[0 := Arr3 [ [ [] ] ]]} = (Raise ValueError, {[0 := Arr3 [ [ [] ] ]]}).
Proof.
  apply (scores_to_probs_without_cells 0 [ [ [] ] ] {[0 := Arr3 [ [ [] ] ]]}).
  - apply lookup_singleton_eq.
  - repeat constructor.
Defined.


(* ===================================================================== *)
(** * [heatmaps_to_keypoints]: where the decoded keypoints lie *)
(* ===================================================================== *)



Section decoder_extras.

Variable cv2_resize : arr3 → Z → Z → arr3.
Hypothesis cv2_resize_layout : resize_keeps_layout cv2_resize.


(** X12.  The array [heatmaps_to_keypoints] returns is new and has the
    shape (#rois, 4, #keypoints) of its docstring: an entry exists exactly
    at the indices below these bounds. *)
Theorem decoder_output_shape c maps (m : arr4) rois C h0 w0 (σ : store) :
  σ !! maps = Some (Arr4 m) → length rois ≤ length m →
  Forall (chw_array C h0 w0) m → 0 < C → 0 < h0 → 0 < w0 → NUM_KEYPOINTS c ≤ C →
  ∃ xy preds σ',
    heatmaps_to_keypoints cv2_resize (globals_with c) maps rois σ = (Ok xy, σ')
    ∧ (xy ∉ dom σ)
    ∧ σ' !! xy = Some (Arr3 preds)
    ∧ ∀ i ch k, is_Some (get3 preds i ch k)
                ↔ i < length rois ∧ ch < 4 ∧ k < NUM_KEYPOINTS c.
Proof using cv2_resize_layout.
  intros Hmaps Hlen Hm HC Hh0 Hw0 HK.
  destruct (heatmaps_to_keypoints_run cv2_resize cv2_resize_layout c maps m rois
              C h0 w0 σ) as (xy & preds & σ' & Hrun & Hfresh & _ & Hxy & Hg); [done..|].
  exists xy, preds, σ'. split; [done|]. split; [done|]. split; [done|].
  intros i ch k. rewrite Hg. case_decide as Hin.
  - split; [done|]. intros _. unfold assigned. by destruct (_ !! ch).
  - split; [by intros [? ?]|done].
Qed.

End decoder_extras.


Lemma decoder_output_shape_witness :
  ∃ xy preds σ',
    heatmaps_to_keypoints corner_resize (globals_with one_joint_cfg) 0 [square_roi]
      {[0 := Arr4 one_cell_maps]} = (Ok xy, σ')
    ∧ σ' !! xy = Some (Arr3 preds)
    ∧ is_Some (get3 preds 0 3 0) ∧ ¬ is_Some (get3 preds 0 4 0).
Proof.
  destruct (decoder_output_shape corner_resize corner_resize_layout
              one_joint_cfg 0 one_cell_maps [square_roi] 1 1 1
              {[0 := Arr4 one_cell_maps]})
    as (xy & preds & σ' & Hrun & _ & Hxy & Hshape).
  - apply lookup_singleton_eq.
  - simpl. lia.
  - repeat constructor.
  - lia.
  - lia.
  - lia.
  - simpl. lia.
  - exists xy, preds, σ'. split; [done|]. split; [done|]. split.
    + apply Hshape. simpl. lia.
    + intros H%Hshape. lia.
Defined.


(* ===================================================================== *)
(** * [compute_oks]: range and invariance *)
(* ===================================================================== *)



(** A candidate with the source's coordinates has the similarity 1,
    whatever its scores are. *)
Lemma oks_similarity_same_xy (src : arr2) (src_roi : roi) (cand : arr2) :
  cand !! 0 = src !! 0 → cand !! 1 = src !! 1 →
  oks_similarity src src_roi cand = 1%R.
Proof.
  intros Hx Hy. rewrite <-(oks_similarity_same src src_roi).
  unfold oks_similarity. cbv zeta. do 2 f_equal. apply list_fmap_ext.
  intros _ k _. simpl.
  by rewrite !list_lookup_total_alt, Hx, Hy.
Qed.



(** ** Translation *)







(* ===================================================================== *)
(** * [nms_oks]: what the kept list looks like *)
(* ===================================================================== *)



Section greedy_facts.
Context (suppresses : nat → nat → Prop) `{!∀ i j, Decision (suppresses i j)}.

(** No kept instance is suppressed by one kept before it. *)
Lemma greedy_keep_pairwise order keep :
  greedy_keep suppresses order keep →
  StronglySorted (λ i j, ¬ suppresses i j) keep.
Proof.
  induction 1 as [|i pending keep Hkeep IH]; constructor; [done|].
  apply Forall_forall. intros j Hj.
  apply greedy_keep_sublist, sublist_subseteq in Hkeep.
  by apply Hkeep, list_elem_of_filter in Hj as [? _].
Qed.





End greedy_facts.

Lemma StronglySorted_either {A} (R : relation A) (l : list A) i j :
  StronglySorted R l → i ∈ l → j ∈ l → i ≠ j → R i j ∨ R j i.
Proof.
  induction 1 as [|x l Hl IH Hx]; intros Hi Hj Hne; [by apply elem_of_nil in Hi|].
  rewrite Forall_forall in Hx.
  apply elem_of_cons in Hi as [->|Hi], Hj as [->|Hj]; [done|left|right|]; auto.
Qed.


(** ** The order of the instances *)








(** ** Extreme thresholds *)





(** ** Duplicates *)

(** X19.  Of two instances with the same x and y coordinates in all joints
    [nms_oks] keeps at most one when the threshold is below 1: their
    similarity is 1 in both directions. *)
Theorem nms_oks_drops_duplicate (kp : arr3) (rois : list roi) (thresh : R) i j
    (pose_i pose_j : arr2) :
  kp_array 17 kp → length rois = length kp →
  (thresh < 1)%R → i ≠ j →
  kp !! i = Some pose_i → kp !! j = Some pose_j →
  pose_i !! 0 = pose_j !! 0 → pose_i !! 1 = pose_j !! 1 →
  ∃ keep, nms_oks kp rois thresh = Ok keep ∧ ¬ (i ∈ keep ∧ j ∈ keep).
Proof.
  intros Hkp Hlen Hthresh Hne Hi Hj Hx Hy.
  destruct (nms_oks_run kp rois thresh Hkp Hlen) as (keep & Hrun & Hgreedy).
  exists keep. split; [done|]. intros [Hik Hjk].
  apply greedy_keep_pairwise in Hgreedy.
  assert (oks_between kp rois i j = 1%R) as Hij.
  { unfold oks_between.
    rewrite (list_lookup_total_correct _ _ _ Hi), (list_lookup_total_correct _ _ _ Hj).
    by apply oks_similarity_same_xy. }
  assert (oks_between kp rois j i = 1%R) as Hji.
  { unfold oks_between.
    rewrite (list_lookup_total_correct _ _ _ Hi), (list_lookup_total_correct _ _ _ Hj).
    by apply oks_similarity_same_xy. }
  destruct (StronglySorted_either _ keep i j Hgreedy Hik Hjk Hne) as [Hn|Hn];
    apply Hn; unfold oks_exceeds; lra.
Qed.

Lemma nms_oks_drops_duplicate_witness :
  ∃ keep, nms_oks twin_poses two_rois (1 / 2) = Ok keep ∧ ¬ (0 ∈ keep ∧ 1 ∈ keep).
Proof.
  apply (nms_oks_drops_duplicate twin_poses two_rois (1 / 2) 0 1
           [ replicate 17 0; replicate 17 0; replicate 17 1; replicate 17 1 ]%R
           [ replicate 17 0; replicate 17 0; replicate 17 2; replicate 17 1 ]%R).
  - split; repeat constructor; simpl; lia.
  - reflexivity.
  - lra.
  - lia.
  - reflexivity.
  - reflexivity.
  - reflexivity.
  - reflexivity.
Defined.


(* ===================================================================== *)
(** * [softmax_integral_tensor]: range, invariance and errors *)
(* ===================================================================== *)

Lemma sum_upto_le n (f g : nat → R) :
  (∀ k, k < n → (f k <= g k)%R) → (sum_upto n f <= sum_upto n g)%R.
Proof.
  induction n as [|n IH]; intros Hfg; [rewrite !sum_upto_0; lra|].
  rewrite !sum_upto_S.
  assert (sum_upto n f <= sum_upto n g)%R by (apply IH; intros k Hk; apply Hfg; lia).
  assert (f n <= g n)%R by (apply Hfg; lia). lra.
Qed.

(** An expectation of an index below [extent] lies between 0 and
    [extent - 1]. *)
Lemma expectation_bounds D (p : nat → R) coord extent :
  (∀ d, d < D → (0 < p d)%R) → sum_upto D p = 1%R →
  (∀ d, d < D → coord d < extent) →
  (0 <= expectation D p coord <= INR extent - 1)%R.
Proof.
  intros Hp Hsum Hcoord. unfold expectation. split.
  - rewrite <-(sum_upto_zero D). apply sum_upto_le. intros d Hd.
    apply Rmult_le_pos; [left; by apply Hp|apply pos_INR].
  - replace (INR extent - 1)%R with (sum_upto D p * (INR extent - 1))%R
      by (rewrite Hsum; ring).
    rewrite sum_upto_scale. apply sum_upto_le. intros d Hd.
    apply Rmult_le_compat_l; [left; by apply Hp|].
    assert (INR (coord d) + 1 <= INR extent)%R; [|lra].
    rewrite <-S_INR. apply le_INR. apply Hcoord in Hd. lia.
Qed.

Lemma expectation_ext D (p q : nat → R) coord :
  (∀ d, d < D → p d = q d) → expectation D p coord = expectation D q coord.
Proof.
  intros Hpq. unfold expectation. apply sum_upto_ext. intros d Hd. by rewrite Hpq.
Qed.


(** Sums of constants and of the indices. *)
Lemma sum_upto_const n (v : R) : sum_upto n (λ _, v) = (INR n * v)%R.
Proof.
  induction n as [|n IH]; [rewrite sum_upto_0; simpl; lra|].
  rewrite sum_upto_S, IH, S_INR. lra.
Qed.

Lemma sum_upto_indices n : sum_upto n INR = (INR n * (INR n - 1) / 2)%R.
Proof.
  induction n as [|n IH]; [rewrite sum_upto_0; simpl; lra|].
  rewrite sum_upto_S, IH, S_INR. lra.
Qed.

Lemma sum_upto_scale_l n f (c : R) :
  sum_upto n (λ k, c * f k)%R = (c * sum_upto n f)%R.
Proof.
  rewrite Rmult_comm, sum_upto_scale. apply sum_upto_ext. intros k _. ring.
Qed.

(** The expectations of the three indices under the uniform mass. *)
Lemma uniform_expectations x y z :
  0 < z * y * x →
  let u := λ _ : nat, (/ INR (z * y * x))%R in
  expectation (z * y * x) u (x_of x) = ((INR x - 1) / 2)%R
  ∧ expectation (z * y * x) u (y_of x y) = ((INR y - 1) / 2)%R
  ∧ expectation (z * y * x) u (z_of x y) = ((INR z - 1) / 2)%R.
Proof.
  intros HD u. unfold expectation, u.
  assert (0 < x ∧ 0 < y ∧ 0 < z) as (Hx & Hy & Hz) by nia.
  assert (0 < INR x ∧ 0 < INR y ∧ 0 < INR z)%R as (Hx' & Hy' & Hz')
    by (repeat split; by apply lt_0_INR).
  set (c := (/ INR (z * y * x))%R).
  assert (c = / (INR z * INR y * INR x))%R as Hc by (unfold c; by rewrite !mult_INR).
  rewrite !sum3_flat. split; [|split].
  - rewrite (sum_upto_ext z _ (λ _, INR y * (c * (INR x * (INR x - 1) / 2)))%R).
    2:{ intros a Ha.
        rewrite (sum_upto_ext y _ (λ _, c * (INR x * (INR x - 1) / 2))%R).
        2:{ intros b Hb. rewrite <-sum_upto_indices, <-sum_upto_scale_l.
            apply sum_upto_ext. intros i Hi.
            by destruct (flat_coords x y z a b i) as (-> & _ & _). }
        apply sum_upto_const. }
    rewrite sum_upto_const, Hc. field. lra.
  - rewrite (sum_upto_ext z _ (λ _, c * INR x * (INR y * (INR y - 1) / 2))%R).
    2:{ intros a Ha. rewrite <-sum_upto_indices, <-sum_upto_scale_l.
        apply sum_upto_ext. intros b Hb.
        rewrite (sum_upto_ext x _ (λ _, c * INR b)%R).
        2:{ intros i Hi. by destruct (flat_coords x y z a b i) as (_ & -> & _). }
        rewrite sum_upto_const. ring. }
    rewrite sum_upto_const, Hc. field. lra.
  - rewrite (sum_upto_ext z _ (λ a, c * INR y * INR x * INR a)%R).
    2:{ intros a Ha.
        rewrite (sum_upto_ext y _ (λ _, INR x * (c * INR a))%R).
        2:{ intros b Hb. rewrite (sum_upto_ext x _ (λ _, c * INR a)%R).
            2:{ intros i Hi. by destruct (flat_coords x y z a b i) as (_ & _ & ->). }
            apply sum_upto_const. }
        rewrite sum_upto_const. ring. }
    rewrite sum_upto_scale_l, sum_upto_indices, Hc. field. lra.
Qed.

(** The softmax of equal scores is the uniform mass. *)
Lemma joint_prob_uniform (preds : tensor) J D n j (level : R) d :
  (∀ d', d' < D → data preds !!! ((n * J + j) * D + d') = level) →
  d < D → joint_prob preds J D n j d = (/ INR D)%R.
Proof.
  intros Hflat Hd. unfold joint_prob. rewrite Hflat by done.
  rewrite (sum_upto_ext D _ (λ _, exp level)).
  2:{ intros d' Hd'. by rewrite Hflat. }
  rewrite sum_upto_const.
  assert (0 < exp level)%R by apply exp_pos.
  assert (0 < INR D)%R by (apply lt_0_INR; lia).
  field. lra.
Qed.

Section integral_extras.

Variable cuda_comm_broadcast : tensor → list tensor.
Hypothesis cuda_comm_broadcast_copy : ∀ t, cuda_comm_broadcast t !! 0 = Some t.

(** The coordinates that [softmax_integral_tensor] returns, as
    expectations. *)
Lemma softmax_integral_entries (preds : tensor) (N J x y : nat) (z : option nat) :
  shape preds !! 0 = Some N → 0 < N → 0 < J →
  length (data preds) = N * J * positions x y z →
  ∃ out,
    softmax_integral_tensor cuda_comm_broadcast preds J x y z = Ok out
    ∧ ∀ n j, n < N → j < J →
        let p := joint_prob preds J (positions x y z) n j in
        entry3 out J (coordinates z) n j 0 = Some (expectation (positions x y z) p (x_of x))
        ∧ entry3 out J (coordinates z) n j 1
          = Some (expectation (positions x y z) p (y_of x y))
        ∧ (is_Some z →
           entry3 out J (coordinates z) n j 2
           = Some (expectation (positions x y z) p (z_of x y))).
Proof using cuda_comm_broadcast_copy.
  intros Hshape HN HJ Hlen. destruct z as [z|]; cbn [positions coordinates] in *.
  - rewrite (softmax_integral_3d_run cuda_comm_broadcast cuda_comm_broadcast_copy
               preds N J x y z) by done.
    eexists. split; [reflexivity|]. intros n j Hn Hj. cbv zeta.
    rewrite <-coordinate_x_3d, <-coordinate_y_3d, <-coordinate_z_3d.
    split; [by apply (columns_entry N J [_; _; _] n j 0)|].
    split; [by apply (columns_entry N J [_; _; _] n j 1)|].
    intros _. by apply (columns_entry N J [_; _; _] n j 2).
  - rewrite (softmax_integral_2d_run cuda_comm_broadcast cuda_comm_broadcast_copy
               preds N J x y) by done.
    eexists. split; [reflexivity|]. intros n j Hn Hj. cbv zeta.
    rewrite <-coordinate_x_2d, <-coordinate_y_2d.
    split; [by apply (columns_entry N J [_; _] n j 0)|].
    split; [by apply (columns_entry N J [_; _] n j 1)|].
    by intros [? ?].
Qed.

(** X20.  Every coordinate [softmax_integral_tensor] returns lies in the
    range of the index of its axis: x between 0 and [hm_width - 1], y
    between 0 and [hm_height - 1] and, with a depth, z between 0 and
    [hm_depth - 1]. *)
Theorem integral_coordinates_in_map (preds : tensor) (N J x y : nat) (z : option nat) :
  shape preds !! 0 = Some N → 0 < N → 0 < J →
  0 < positions x y z →
  length (data preds) = N * J * positions x y z →
  ∃ out,
    softmax_integral_tensor cuda_comm_broadcast preds J x y z = Ok out
    ∧ ∀ n j, n < N → j < J →
        ∃ cx cy,
          entry3 out J (coordinates z) n j 0 = Some cx
          ∧ entry3 out J (coordinates z) n j 1 = Some cy
          ∧ (0 <= cx <= INR x - 1)%R ∧ (0 <= cy <= INR y - 1)%R
          ∧ ∀ depth, z = Some depth →
              ∃ cz, entry3 out J (coordinates z) n j 2 = Some cz
                    ∧ (0 <= cz <= INR depth - 1)%R.
Proof using cuda_comm_broadcast_copy.
  intros Hshape HN HJ HD Hlen.
  destruct (softmax_integral_entries preds N J x y z Hshape HN HJ Hlen)
    as (out & Hrun & Hent).
  exists out. split; [done|]. intros n j Hn Hj.
  destruct (Hent n j Hn Hj) as (Hx & Hy & Hz).
  set (D := positions x y z) in *.
  set (p := joint_prob preds J D n j) in *.
  assert (∀ d, d < D → (0 < p d)%R) as Hpos by (intros d _; by apply joint_prob_pos).
  assert (sum_upto D p = 1%R) as Hsum by by apply joint_prob_sum.
  eexists _, _. split; [exact Hx|]. split; [exact Hy|].
  assert (∀ d, d < D → x_of x d < x ∧ y_of x y d < y) as Hxy.
  { intros d Hd. unfold x_of, y_of.
    split; apply Nat.mod_upper_bound; unfold D in HD; destruct z; simpl in HD; nia. }
  split; [apply expectation_bounds; [done..|]; intros d Hd; by apply Hxy|].
  split; [apply expectation_bounds; [done..|]; intros d Hd; by apply Hxy|].
  intros depth ->. eexists. split; [by apply Hz|].
  apply expectation_bounds; [done..|]. intros d Hd.
  by destruct (coordinates_in_range x y depth d HD Hd) as (_ & _ & ?).
Qed.

(** X21.  [softmax_integral_tensor] raises [RuntimeError] from one of its
    two reshapes when there are no instances or no joints, and when the
    number of scores is not [N * num_joints * hm_width * hm_height] (times
    [hm_depth], if given). *)
Theorem integral_rejects_wrong_sizes (preds : tensor) (N J x y : nat) (z : option nat) :
  shape preds !! 0 = Some N →
  N = 0 ∨ J = 0 ∨ length (data preds) ≠ N * J * positions x y z →
  softmax_integral_tensor cuda_comm_broadcast preds J x y z = Raise RuntimeError.
Proof.
  intros Hshape Hbad. unfold softmax_integral_tensor.
  rewrite Hshape. cbn [index_or_raise rbind Ok].
  unfold reshape_infer.
  destruct (decide (N * J = 0)) as [Hzero|Hnz]; [done|].
  destruct Hbad as [->|[->|Hlen]]; [lia..|].
  destruct (decide (length (data preds) mod (N * J) = 0)) as [Hdiv|Hdiv]; [|done].
  cbn [rbind Ok].
  set (D := length (data preds) / (N * J)).
  assert (length (data preds) = N * J * D) as HD.
  { unfold D. rewrite (Nat.div_mod_eq (length (data preds)) (N * J)) at 1. lia. }
  rewrite (tensor_tab (Tensor [N; J; D] (data preds))) by (simpl; lia).
  cbn [shape data].
  rewrite (F_softmax_tab [N; J] D []). cbn [rbind Ok app].
  assert (D ≠ positions x y z) as HDne by (intros Heq; apply Hlen; by rewrite HD, Heq).
  destruct z as [z|]; cbn [positions] in HDne;
    unfold generate_3d_integral_preds_tensor; cbn [shape tab lookup list_lookup];
    cbn [index_or_raise rbind Ok]; unfold reshape;
    rewrite tab_length; rewrite decide_False; [done| |done|];
    simpl; intros Heq; apply HDne; nia.
Qed.


(** X23.  When all scores of a joint are equal, [softmax_integral_tensor]
    returns the centre of the map for it: [(hm_width - 1) / 2],
    [(hm_height - 1) / 2] and, with a depth, [(hm_depth - 1) / 2]. *)
Theorem integral_of_flat_map_is_centre (preds : tensor) (N J x y : nat)
    (z : option nat) (level : nat → R) :
  shape preds !! 0 = Some N → 0 < N → 0 < J →
  0 < positions x y z →
  length (data preds) = N * J * positions x y z →
  (∀ o d, o < N * J → d < positions x y z →
     data preds !!! (o * positions x y z + d) = level o) →
  ∃ out,
    softmax_integral_tensor cuda_comm_broadcast preds J x y z = Ok out
    ∧ ∀ n j, n < N → j < J →
        entry3 out J (coordinates z) n j 0 = Some ((INR x - 1) / 2)%R
        ∧ entry3 out J (coordinates z) n j 1 = Some ((INR y - 1) / 2)%R
        ∧ ∀ depth, z = Some depth →
            entry3 out J (coordinates z) n j 2 = Some ((INR depth - 1) / 2)%R.
Proof using cuda_comm_broadcast_copy.
  intros Hshape HN HJ HD Hlen Hflat.
  destruct (softmax_integral_entries preds N J x y z Hshape HN HJ Hlen)
    as (out & Hrun & Hent).
  exists out. split; [done|]. intros n j Hn Hj.
  destruct (Hent n j Hn Hj) as (Hx & Hy & Hz).
  assert (∀ coord,
    expectation (positions x y z) (joint_prob preds J (positions x y z) n j) coord
    = expectation (positions x y z) (λ _, / INR (positions x y z))%R coord) as Heq.
  { intros coord. apply expectation_ext. intros d Hd.
    apply (joint_prob_uniform preds J _ n j (level (n * J + j))); [|done].
    intros d' Hd'. apply Hflat; [nia|done]. }
  rewrite Heq in Hx, Hy. rewrite Hx, Hy.
  destruct z as [depth|]; cbn [positions] in *.
  - destruct (uniform_expectations x y depth HD) as (-> & -> & Hzc).
    split; [done|]. split; [done|]. intros ? [= <-].
    rewrite Hz by done. by rewrite Heq, Hzc.
  - assert (0 < 1 * y * x) as HD1 by lia.
    destruct (uniform_expectations x y 1 HD1) as (Hxc & Hyc & _).
    rewrite Nat.mul_1_l in Hxc, Hyc. rewrite Hxc, Hyc.
    split; [done|]. split; [done|]. by intros ? [=].
Qed.

End integral_extras.

Lemma integral_coordinates_in_map_witness :
  ∃ out, softmax_integral_tensor broadcast_here pair_map 1 2 1 None = Ok out
         ∧ ∃ cx, entry3 out 1 2 0 0 0 = Some cx ∧ (0 <= cx <= 1)%R.
Proof.
  destruct (integral_coordinates_in_map broadcast_here broadcast_here_copy
              pair_map 1 1 2 1 None) as (out & Hrun & Hin);
    [reflexivity|lia|lia|simpl; lia|reflexivity|].
  exists out. split; [done|].
  destruct (Hin 0 0) as (cx & cy & Hx & _ & Hcx & _); [lia|lia|].
  exists cx. split; [done|]. simpl in Hcx. lra.
Defined.

Lemma integral_rejects_wrong_sizes_witness :
  softmax_integral_tensor broadcast_here pair_map 1 2 2 None = Raise RuntimeError.
Proof.
  apply (integral_rejects_wrong_sizes broadcast_here pair_map 1 1 2 2 None).
  - reflexivity.
  - right. right. simpl. lia.
Defined.


Lemma integral_of_flat_map_is_centre_witness :
  ∃ out, softmax_integral_tensor broadcast_here pair_map 1 2 1 None = Ok out
         ∧ entry3 out 1 2 0 0 0 = Some ((INR 2 - 1) / 2)%R.
Proof.
  destruct (integral_of_flat_map_is_centre broadcast_here broadcast_here_copy
              pair_map 1 1 2 1 None (λ _, 0%R)) as (out & Hrun & Hcentre);
    [reflexivity|lia|lia|simpl; lia|reflexivity| |].
  - intros o d Ho Hd. simpl in Ho, Hd.
    destruct o as [|o]; [|lia]. destruct d as [|[|d]]; [reflexivity..|lia].
  - exists out. split; [done|].
    destruct (Hcentre 0 0) as (Hx & _); [lia|lia|]. exact Hx.
Defined.


(* ===================================================================== *)
(** * [flip_heatmaps] *)
(* ===================================================================== *)

(** ** Channels of rectangular heatmaps *)

Lemma get_plane_fmap (a : arr4) c :
  Forall (λ inst : arr3, c < length inst) a →
  get_plane a c = Ok ((λ inst : arr3, inst !!! c) <$> a).
Proof.
  intros Ha. unfold get_plane.
  assert (mapM (λ inst : arr3, inst !! c) a = Some ((λ inst : arr3, inst !!! c) <$> a)) as ->;
    [|done].
  apply mapM_Some_2. apply Forall2_fmap_r, Forall_Forall2_diag.
  eapply Forall_impl; [exact Ha|]. intros inst Hc. simpl in *.
  by apply list_lookup_lookup_total_lt.
Qed.

Lemma get_plane_out_of_range (a : arr4) c inst :
  inst ∈ a → length inst ≤ c → get_plane a c = Raise IndexError.
Proof.
  intros Hin Hc. unfold get_plane.
  destruct (mapM (λ inst : arr3, inst !! c) a) as [v|] eqn:Hv; [|done].
  apply mapM_Some_1 in Hv. apply list_elem_of_lookup in Hin as [n Hn].
  destruct (Forall2_lookup_l _ _ _ _ _ Hv Hn) as (plane & _ & Hplane).
  apply lookup_lt_Some in Hplane. lia.
Qed.

Lemma permute_channels_length f (inst : arr3) :
  length (permute_channels f inst) = length inst.
Proof. unfold permute_channels. by rewrite length_fmap, length_seq. Qed.

Lemma permute_channels_lookup f (inst : arr3) c :
  c < length inst → permute_channels f inst !! c = Some (inst !!! f c).
Proof.
  intros Hc. unfold permute_channels. by rewrite list_lookup_fmap, lookup_seq_lt.
Qed.

Lemma permute_channels_id (inst : arr3) : permute_channels (λ c, c) inst = inst.
Proof.
  apply list_eq. intros c. destruct (decide (c < length inst)) as [Hc|Hc].
  - rewrite permute_channels_lookup by done. symmetry.
    by apply list_lookup_lookup_total_lt.
  - rewrite !lookup_ge_None_2; [done|lia|rewrite permute_channels_length; lia].
Qed.

Lemma permute_channels_ext f g (inst : arr3) :
  (∀ c, c < length inst → f c = g c) → permute_channels f inst = permute_channels g inst.
Proof.
  intros Hfg. unfold permute_channels. apply list_fmap_ext.
  intros i c Hc%lookup_seq. simpl. rewrite Hfg; [done|lia].
Qed.

(** The two assignments of a pair, on one instance. *)
Lemma permute_channels_swap f lid rid (inst : arr3) :
  lid < length inst → rid < length inst →
  <[lid := inst !!! rid]> (<[rid := inst !!! lid]> (permute_channels f inst))
  = permute_channels (swap_src f lid rid) inst.
Proof.
  intros Hl Hr. apply list_eq. intros c.
  destruct (decide (c < length inst)) as [Hc|Hc].
  - rewrite permute_channels_lookup by done. unfold swap_src.
    rewrite !list_lookup_insert, !length_insert, permute_channels_length.
    rewrite permute_channels_lookup by done.
    repeat case_decide; destruct_and?; subst; try done; exfalso; lia.
  - rewrite !lookup_ge_None_2; [done|..];
      rewrite ?length_insert, permute_channels_length; lia.
Qed.

Lemma zip_with_fmap_same {A B C D} (f : B → C → D) (g : A → B) (h : A → C) (l : list A) :
  zip_with f (g <$> l) (h <$> l) = (λ x, f (g x) (h x)) <$> l.
Proof. induction l as [|x l IH]; [done|]. simpl. f_equal. exact IH. Qed.

(** Every plane of rectangular heatmaps has the same shape. *)
Lemma plane_shape C H W (inst : arr3) (plane : arr2) :
  chw_array C H W inst → plane ∈ inst → length <$> plane = replicate H W.
Proof.
  intros [_ Hplanes] Hin.
  destruct (proj1 (Forall_forall _ _) Hplanes plane Hin) as [<- Hrows].
  clear Hin Hplanes. induction Hrows as [|row plane Hrow _ IH]; [done|].
  rewrite fmap_cons. cbn [length replicate]. by rewrite Hrow, IH.
Qed.

Lemma permute_channels_chw f C H W (inst : arr3) :
  chw_array C H W inst → (∀ c, c < C → f c < C) →
  chw_array C H W (permute_channels f inst).
Proof.
  intros [Hlen Hplanes] Hf. split; [by rewrite permute_channels_length|].
  apply Forall_forall. intros plane Hin. unfold permute_channels in Hin.
  apply list_elem_of_fmap in Hin as (c & -> & Hc%elem_of_seq).
  apply (proj1 (Forall_forall _ _) Hplanes).
  apply list_elem_of_lookup_total_2. rewrite Hlen. apply Hf. lia.
Qed.

Lemma planes_shape3 C H W (m : arr4) (g : arr3 → arr3) c :
  Forall (chw_array C H W) m → (∀ inst, chw_array C H W inst → chw_array C H W (g inst)) →
  c < C →
  shape3 ((λ inst : arr3, g inst !!! c) <$> m) = replicate (length m) (replicate H W).
Proof.
  intros Hm Hg Hc. unfold shape3. rewrite <-list_fmap_compose.
  induction Hm as [|inst m Hinst _ IH]; [done|].
  rewrite fmap_cons. cbn [length replicate]. rewrite IH. f_equal. simpl.
  apply (plane_shape C H W (g inst)); [by apply Hg|].
  apply list_elem_of_lookup_total_2. destruct (Hg inst Hinst) as [-> _]. done.
Qed.

Lemma chw_array_insert C H W (inst : arr3) c (plane : arr2) :
  chw_array C H W inst → matrix_of H W plane → chw_array C H W (<[c := plane]> inst).
Proof.
  intros [Hlen Hplanes] Hplane. split; [by rewrite length_insert|].
  by apply Forall_insert.
Qed.

Lemma chw_array_channel C H W (inst : arr3) c :
  chw_array C H W inst → c < C → matrix_of H W (inst !!! c).
Proof.
  intros [Hlen Hplanes] Hc. apply (proj1 (Forall_forall _ _) Hplanes).
  apply list_elem_of_lookup_total_2. lia.
Qed.

(** [dst[:, c, :, :] = src[:, c', :, :]] on arrays of a common shape. *)
Lemma set_plane_fmap C H W (m : arr4) (g : arr3 → arr3) c c' :
  Forall (chw_array C H W) m →
  (∀ inst, chw_array C H W inst → chw_array C H W (g inst)) →
  c < C → c' < C →
  set_plane (g <$> m) c ((λ inst : arr3, inst !!! c') <$> m)
  = Ok ((λ inst : arr3, <[c := inst !!! c']> (g inst)) <$> m).
Proof.
  intros Hm Hg Hc Hc'. unfold set_plane.
  rewrite get_plane_fmap.
  2:{ apply Forall_fmap. eapply Forall_impl; [exact Hm|].
      intros inst Hinst. simpl. destruct (Hg inst Hinst) as [-> _]. done. }
  unfold rbind, Ok at 1. cbv iota beta. rewrite <-list_fmap_compose.
  rewrite decide_True.
  - by rewrite zip_with_fmap_same.
  - rewrite (planes_shape3 C H W m (λ inst, inst)) by done.
    symmetry. by apply (planes_shape3 C H W m g).
Qed.

(** ** The loop over the flip map *)

(** One iteration: the channels [lid] and [rid] of the copy become the
    channels [rid] and [lid] of the caller's array. *)
Lemma flip_heatmap_pair_run keypoints kp fl lkp rkp lid rid C H W (m : arr4) f (σ : store) :
  list_index keypoints lkp = Ok lid → list_index keypoints rkp = Ok rid →
  lid < C → rid < C → Forall (chw_array C H W) m → (∀ c, c < C → f c < C) → kp ≠ fl →
  σ !! kp = Some (Arr4 m) → σ !! fl = Some (Arr4 (permute_channels f <$> m)) →
  flip_heatmap_pair keypoints kp fl (lkp, rkp) σ
  = (Ok tt, <[fl := Arr4 (permute_channels (swap_src f lid rid) <$> m)]> σ).
Proof.
  intros Hl Hr HlC HrC Hm Hf Hne Hkp Hfl.
  assert (∀ c, c < C → Forall (λ inst : arr3, c < length inst) m) as Hlen.
  { intros c Hc. eapply Forall_impl; [exact Hm|]. intros inst [-> _]. done. }
  set (d1 := (λ inst : arr3, <[rid := inst !!! lid]> (permute_channels f inst)) <$> m).
  assert (∀ inst, chw_array C H W inst →
            chw_array C H W (<[rid := inst !!! lid]> (permute_channels f inst))) as Hd1.
  { intros inst Hinst. apply chw_array_insert; [by apply permute_channels_chw|].
    by apply (chw_array_channel C). }
  unfold flip_heatmap_pair.
  rewrite (mbind_Ok _ _ _ lid σ) by by apply lift_Ok.
  rewrite (mbind_Ok _ _ _ rid σ) by by apply lift_Ok.
  rewrite (mbind_Ok _ _ _ m σ) by by apply load4_Ok.
  rewrite (mbind_Ok _ _ _ ((λ inst : arr3, inst !!! lid) <$> m) σ)
    by (apply lift_Ok, get_plane_fmap; auto).
  rewrite (mbind_Ok _ _ _ (permute_channels f <$> m) σ) by by apply load4_Ok.
  rewrite (mbind_Ok _ _ _ d1 σ).
  2:{ apply lift_Ok. apply (set_plane_fmap C H W); [done| |done..].
      intros inst Hinst. by apply permute_channels_chw. }
  rewrite (mbind_Ok _ _ _ tt (<[fl := Arr4 d1]> σ)) by done.
  rewrite (mbind_Ok _ _ _ m (<[fl := Arr4 d1]> σ))
    by (apply load4_Ok; by rewrite lookup_insert_ne).
  rewrite (mbind_Ok _ _ _ ((λ inst : arr3, inst !!! rid) <$> m) (<[fl := Arr4 d1]> σ))
    by (apply lift_Ok, get_plane_fmap; auto).
  rewrite (mbind_Ok _ _ _ d1 (<[fl := Arr4 d1]> σ))
    by (apply load4_Ok; by rewrite lookup_insert_eq).
  rewrite (mbind_Ok _ _ _ (permute_channels (swap_src f lid rid) <$> m) (<[fl := Arr4 d1]> σ)).
  2:{ apply lift_Ok. unfold d1.
      rewrite (set_plane_fmap C H W m
                 (λ inst, <[rid := inst !!! lid]> (permute_channels f inst))) by done.
      f_equal. apply Forall_fmap_ext. eapply Forall_impl; [exact Hm|].
      intros inst [Hlen' _]. simpl. apply permute_channels_swap; lia. }
  unfold write. by rewrite insert_insert_eq.
Qed.

Lemma swap_src_bound f lid rid C :
  lid < C → rid < C → (∀ c, c < C → f c < C) → ∀ c, c < C → swap_src f lid rid c < C.
Proof. intros Hl Hr Hf c Hc. unfold swap_src. repeat case_decide; auto. Qed.

Lemma src_from_bound C ids :
  Forall (λ p : nat * nat, p.1 < C ∧ p.2 < C) ids →
  ∀ f, (∀ c, c < C → f c < C) → ∀ c, c < C → src_from f ids c < C.
Proof.
  induction 1 as [|[l r] ids [Hl Hr] _ IH]; intros f Hf; [done|].
  unfold src_from. simpl. apply IH. by apply swap_src_bound.
Qed.

(** The whole loop: channel [c] of the copy ends as channel
    [src_from f ids c] of the caller's array. *)
Lemma flip_heatmap_pairs_run keypoints kp fl C H W (m : arr4) items :
  Forall (chw_array C H W) m → kp ≠ fl →
  ∀ ids (σ : store) f,
    joint_ids keypoints items = Ok ids →
    Forall (λ p, p.1 < C ∧ p.2 < C) ids → (∀ c, c < C → f c < C) →
    σ !! kp = Some (Arr4 m) → σ !! fl = Some (Arr4 (permute_channels f <$> m)) →
    for_each items (flip_heatmap_pair keypoints kp fl) σ
    = (Ok tt, <[fl := Arr4 (permute_channels (src_from f ids) <$> m)]> σ).
Proof.
  intros Hm Hne. induction items as [|[lkp rkp] items IH]; intros ids σ f Hids HC Hf Hkp Hfl.
  - simpl in Hids. injection Hids as <-. simpl. unfold mret. by rewrite insert_id.
  - simpl in Hids.
    destruct (list_index keypoints lkp) as [|lid] eqn:Hl; [done|].
    destruct (list_index keypoints rkp) as [|rid] eqn:Hr; [done|].
    destruct (joint_ids keypoints items) as [|ids'] eqn:Hids'; [done|].
    simpl in Hids. injection Hids as <-.
    apply Forall_cons in HC as [[HlC HrC] HC]. simpl in HlC, HrC.
    cbn [for_each].
    rewrite (mbind_Ok _ _ _ tt
               (<[fl := Arr4 (permute_channels (swap_src f lid rid) <$> m)]> σ))
      by by apply (flip_heatmap_pair_run _ _ _ _ _ _ _ C H W).
    rewrite (IH ids' _ (swap_src f lid rid)); [|done|done| | |].
    + by rewrite insert_insert_eq.
    + by apply swap_src_bound.
    + by rewrite lookup_insert_ne.
    + by rewrite lookup_insert_eq.
Qed.

(** One call: a new array that holds the caller's channels in the order
    of the flip map, every row reversed. *)
Lemma flip_heatmaps_run kp C H W (m : arr4) (σ : store) :
  σ !! kp = Some (Arr4 m) → Forall (chw_array C H W) m → 17 ≤ C →
  ∃ l, flip_heatmaps kp σ
       = (Ok l, <[l := Arr4 (reverse_last (permute_channels (src_map coco_ids) <$> m))]>
                  (<[fresh (dom σ) := Arr4 (permute_channels (src_map coco_ids) <$> m)]> σ))
     ∧ (l ∉ dom σ) ∧ l ≠ fresh (dom σ).
Proof.
  intros Hkp Hm HC.
  pose (fl := fresh (dom σ)).
  assert (fl ∉ dom σ) as Hfresh by apply is_fresh.
  assert (kp ≠ fl) as Hne.
  { intros Heq. apply Hfresh. rewrite <-Heq. apply elem_of_dom. eauto. }
  set (d := permute_channels (src_map coco_ids) <$> m).
  pose (l := fresh (dom (<[fl := Arr4 d]> σ))).
  assert (l ∉ dom (<[fl := Arr4 d]> σ)) as Hl by apply is_fresh.
  rewrite dom_insert in Hl.
  exists l. split; [|split; [set_solver|set_solver]].
  unfold flip_heatmaps. change get_keypoints with (get_keypoints.1, get_keypoints.2).
  cbv iota beta. unfold np_copy.
  rewrite (mbind_Ok _ _ _ fl (<[fl := Arr4 m]> σ)).
  2:{ rewrite (mbind_Ok _ _ _ (Arr4 m) σ); [done|]. unfold load. by rewrite Hkp. }
  rewrite (mbind_Ok _ _ _ tt (<[fl := Arr4 d]> σ)).
  2:{ rewrite (flip_heatmap_pairs_run _ kp fl C H W m _ Hm Hne coco_ids _ (λ c, c)).
      - by rewrite insert_insert_eq.
      - apply coco_joint_ids.
      - apply (Forall_impl (λ p : nat * nat, p.1 < 17 ∧ p.2 < 17)); [|intros p Hp; lia].
        apply (bool_decide_unpack _). vm_compute. reflexivity.
      - done.
      - by rewrite lookup_insert_ne.
      - rewrite lookup_insert_eq. do 2 f_equal. symmetry.
        rewrite <-(list_fmap_id m) at 2. apply list_fmap_ext. intros ? inst _.
        apply permute_channels_id. }
  rewrite (mbind_Ok _ _ _ d (<[fl := Arr4 d]> σ))
    by (apply load4_Ok; by rewrite lookup_insert_eq).
  done.
Qed.

(** ** The channel order of the COCO flip map *)

Lemma src_map_coco c : src_map coco_ids c = coco_partner c.
Proof.
  destruct (decide (c < 17)) as [Hc|Hc].
  - do 17 (destruct c as [|c]; [vm_compute; reflexivity|]). lia.
  - unfold coco_partner. rewrite decide_True by lia.
    unfold src_map. apply src_from_notin.
    intros Hin. cbn in Hin.
    repeat (apply elem_of_cons in Hin as [->|Hin]; [lia|]). by apply elem_of_nil in Hin.
Qed.

Lemma coco_ids_NoDup : NoDup (coco_ids.*1 ++ coco_ids.*2).
Proof. apply (bool_decide_unpack _). vm_compute. reflexivity. Qed.

Lemma src_map_coco_bound C c : 17 ≤ C → c < C → src_map coco_ids c < C.
Proof.
  intros HC Hc. apply (src_from_bound C coco_ids); [|done|done].
  apply (Forall_impl (λ p : nat * nat, p.1 < 17 ∧ p.2 < 17)); [|intros p Hp; lia].
  apply (bool_decide_unpack _). vm_compute. reflexivity.
Qed.

(** ** Reversal of the last axis *)

Lemma get4_reverse_last W (a : arr4) n c y x :
  Forall (λ inst : arr3, Forall (λ plane : arr2, Forall (λ row, length row = W) plane) inst) a →
  x < W →
  get4 (reverse_last a) n c y x = get4 a n c y (W - 1 - x).
Proof.
  intros Ha Hx. unfold get4, reverse_last, get3. rewrite list_lookup_fmap.
  destruct (a !! n) as [inst|] eqn:Hinst; [simpl|done].
  rewrite list_lookup_fmap.
  destruct (inst !! c) as [plane|] eqn:Hplane; [simpl|done].
  rewrite list_lookup_fmap.
  destruct (plane !! y) as [row|] eqn:Hrow; [simpl|done].
  assert (length row = W) as Hlen.
  { eapply (Forall_lookup_1 _ _ _ _ (Forall_lookup_1 _ _ _ _
              (Forall_lookup_1 _ _ _ _ Ha Hinst) Hplane) Hrow). }
  rewrite reverse_lookup by lia. f_equal. lia.
Qed.

Lemma reverse_last_involutive (a : arr4) : reverse_last (reverse_last a) = a.
Proof.
  unfold reverse_last. rewrite <-list_fmap_compose.
  rewrite <-(list_fmap_id a) at 2. apply list_fmap_ext. intros ? inst _. simpl.
  rewrite <-list_fmap_compose.
  rewrite <-(list_fmap_id inst) at 2. apply list_fmap_ext. intros ? plane _. simpl.
  rewrite <-list_fmap_compose.
  rewrite <-(list_fmap_id plane) at 2. apply list_fmap_ext. intros ? row _. simpl.
  apply reverse_involutive.
Qed.

Lemma reverse_last_chw C H W (a : arr4) :
  Forall (chw_array C H W) a → Forall (chw_array C H W) (reverse_last a).
Proof.
  intros Ha. unfold reverse_last. apply Forall_fmap.
  eapply Forall_impl; [exact Ha|]. intros inst [Hlen Hplanes]. simpl.
  split; [by rewrite length_fmap|]. apply Forall_fmap.
  eapply Forall_impl; [exact Hplanes|]. intros plane [Hh Hrows]. simpl.
  split; [by rewrite length_fmap|]. apply Forall_fmap.
  eapply Forall_impl; [exact Hrows|]. intros row Hrow. simpl.
  by rewrite length_reverse.
Qed.

Lemma permute_channels_reverse f C H W (a : arr4) :
  Forall (chw_array C H W) a → (∀ c, c < C → f c < C) →
  permute_channels f <$> reverse_last a = reverse_last (permute_channels f <$> a).
Proof.
  intros Ha Hf. unfold reverse_last. rewrite <-!list_fmap_compose.
  apply Forall_fmap_ext. eapply Forall_impl; [exact Ha|]. intros inst [Hlen _]. simpl.
  unfold permute_channels. rewrite length_fmap, <-list_fmap_compose.
  apply list_fmap_ext. intros ? c Hc%lookup_seq. simpl.
  apply (list_lookup_total_fmap _ inst (f c)). rewrite Hlen. apply Hf. lia.
Qed.

Lemma permute_channels_twice f (inst : arr3) :
  (∀ c, c < length inst → f c < length inst) →
  permute_channels f (permute_channels f inst) = permute_channels (λ c, f (f c)) inst.
Proof.
  intros Hf. apply list_eq. intros c.
  destruct (decide (c < length inst)) as [Hc|Hc].
  - rewrite !permute_channels_lookup by (rewrite ?permute_channels_length; done).
    f_equal. apply list_lookup_total_correct.
    rewrite permute_channels_lookup by auto. done.
  - rewrite !lookup_ge_None_2; [done|..]; rewrite !permute_channels_length; lia.
Qed.

(** Two flips of rectangular heatmaps with the COCO channels give the
    array back. *)
Lemma flipped_twice_array C H W (m : arr4) :
  Forall (chw_array C H W) m → 17 ≤ C →
  reverse_last (permute_channels (src_map coco_ids)
                  <$> reverse_last (permute_channels (src_map coco_ids) <$> m)) = m.
Proof.
  intros Hm HC.
  rewrite (permute_channels_reverse _ C H W).
  - rewrite reverse_last_involutive, <-list_fmap_compose.
    rewrite <-(list_fmap_id m) at 2. apply Forall_fmap_ext.
    eapply Forall_impl; [exact Hm|]. intros inst [Hlen _]. simpl.
    rewrite permute_channels_twice.
    + rewrite <-(permute_channels_id inst) at 2. apply permute_channels_ext.
      intros c _. apply src_map_involutive, coco_ids_NoDup.
    + intros c Hc. rewrite Hlen in *. by apply src_map_coco_bound.
  - apply Forall_fmap. eapply Forall_impl; [exact Hm|]. intros inst Hinst. simpl.
    apply permute_channels_chw; [done|]. intros c Hc. by apply src_map_coco_bound.
  - intros c Hc. by apply src_map_coco_bound.
Qed.

Lemma fmap_const_replicate {A B} (f : A → B) (y : B) (l : list A) :
  Forall (λ x, f x = y) l → f <$> l = replicate (length l) y.
Proof.
  induction 1 as [|x l Hx _ IH]; [done|].
  rewrite fmap_cons. cbn [length replicate]. by rewrite Hx, IH.
Qed.

Lemma chw_shape4 C H W (m : arr4) :
  Forall (chw_array C H W) m →
  shape4 m = replicate (length m) (replicate C (replicate H W)).
Proof.
  intros Hm. unfold shape4. apply fmap_const_replicate.
  eapply Forall_impl; [exact Hm|]. intros inst Hinst. simpl.
  destruct Hinst as [Hlen Hplanes] eqn:Heq. rewrite <-Hlen. unfold shape3.
  apply fmap_const_replicate. apply Forall_forall. intros plane Hin.
  by apply (plane_shape C H W inst).
Qed.

Lemma chw_rows C H W (m : arr4) :
  Forall (chw_array C H W) m →
  Forall (λ inst : arr3, Forall (λ plane : arr2, Forall (λ row, length row = W) plane) inst) m.
Proof.
  intros Hm. eapply Forall_impl; [exact Hm|]. intros inst [_ Hplanes]. simpl.
  eapply Forall_impl; [exact Hplanes|]. by intros plane [_ Hrows].
Qed.

Lemma get4_permute_coco C H W (m : arr4) n c y x :
  Forall (chw_array C H W) m → 17 ≤ C →
  get4 (permute_channels (src_map coco_ids) <$> m) n c y x = get4 m n (coco_partner c) y x.
Proof.
  intros Hm HC. unfold get4, get3. rewrite list_lookup_fmap.
  destruct (m !! n) as [inst|] eqn:Hinst; [simpl|done].
  destruct (Forall_lookup_1 _ _ _ _ Hm Hinst) as [Hlen _].
  rewrite <-src_map_coco.
  destruct (decide (c < C)) as [Hc|Hc].
  - rewrite permute_channels_lookup by lia.
    rewrite (list_lookup_lookup_total_lt inst (src_map coco_ids c)); [done|].
    rewrite Hlen. by apply src_map_coco_bound.
  - rewrite src_map_coco. unfold coco_partner. rewrite decide_True by lia.
    rewrite !lookup_ge_None_2; [done|lia|rewrite permute_channels_length; lia].
Qed.

(* ===================================================================== *)
(** * [flip_heatmaps]: what a call returns *)
(* ===================================================================== *)

(** X24.  On heatmaps of shape (N, C, H, W) with at least the 17 COCO
    channels, [flip_heatmaps] returns a new array in which the cell
    [(y, x)] of channel [c] is the cell [(y, W - 1 - x)] of the channel
    the flip map pairs with [c] (the channel itself for the nose and beyond
    the schema); the caller's array is as it was. *)
Theorem flip_heatmaps_mirrors kp C H W (m : arr4) (σ : store) :
  σ !! kp = Some (Arr4 m) → Forall (chw_array C H W) m → 17 ≤ C →
  ∃ l out σ', flip_heatmaps kp σ = (Ok l, σ')
    ∧ (l ∉ dom σ)
    ∧ σ' !! l = Some (Arr4 out)
    ∧ σ' !! kp = Some (Arr4 m)
    ∧ shape4 out = shape4 m
    ∧ ∀ n c y x, x < W → get4 out n c y x = get4 m n (coco_partner c) y (W - 1 - x).
Proof.
  intros Hkp Hm HC.
  destruct (flip_heatmaps_run kp C H W m σ Hkp Hm HC) as (l & Hrun & Hl & Hne).
  assert (kp ∈ dom σ) as Hdom by (apply elem_of_dom; eauto).
  assert (fresh (dom σ) ∉ dom σ) as Hfresh by apply is_fresh.
  assert (Forall (chw_array C H W) (permute_channels (src_map coco_ids) <$> m)) as Hd.
  { apply Forall_fmap. eapply Forall_impl; [exact Hm|]. intros inst Hinst. simpl.
    apply permute_channels_chw; [done|]. intros c Hc. by apply src_map_coco_bound. }
  eexists l, _, _. split; [exact Hrun|]. split; [done|]. split; [by rewrite lookup_insert_eq|].
  split; [|split].
  - rewrite !lookup_insert_ne; [done|congruence..].
  - apply reverse_last_chw in Hd.
    rewrite (chw_shape4 C H W _ Hd), (chw_shape4 C H W _ Hm).
    unfold reverse_last. by rewrite !length_fmap.
  - intros n c y x Hx.
    rewrite (get4_reverse_last W) by (by apply (chw_rows C H W) || done).
    by apply (get4_permute_coco C H W).
Qed.

Lemma coco_heatmaps_chw : Forall (chw_array 17 1 2) coco_heatmaps.
Proof. repeat constructor. Qed.

Lemma flip_heatmaps_mirrors_witness :
  ∃ l out σ', flip_heatmaps 0 {[0 := Arr4 coco_heatmaps]} = (Ok l, σ')
    ∧ σ' !! l = Some (Arr4 out)
    ∧ get4 out 0 1 0 0 = get4 coco_heatmaps 0 2 0 1
    ∧ get4 out 0 0 0 1 = get4 coco_heatmaps 0 0 0 0.
Proof.
  destruct (flip_heatmaps_mirrors 0 17 1 2 coco_heatmaps {[0 := Arr4 coco_heatmaps]})
    as (l & out & σ' & Hrun & _ & Hout & _ & _ & Hcells).
  - apply lookup_singleton_eq.
  - apply coco_heatmaps_chw.
  - lia.
  - exists l, out, σ'. split; [done|]. split; [done|]. split.
    + apply (Hcells 0 1 0 0). lia.
    + apply (Hcells 0 0 0 1). lia.
Defined.

(* ===================================================================== *)
(** * [flip_heatmaps]: two calls in a row *)
(* ===================================================================== *)

(** X25.  Flipping heatmaps of shape (N, C, H, W) with at least 17 channels
    twice gives an array equal to the caller's, in a location other than
    the caller's, which still holds the same array. *)
Theorem flip_heatmaps_twice_restores kp C H W (m : arr4) (σ : store) :
  σ !! kp = Some (Arr4 m) → Forall (chw_array C H W) m → 17 ≤ C →
  ∃ l σ', flip_heatmaps_twice kp σ = (Ok l, σ')
    ∧ l ≠ kp
    ∧ σ' !! l = Some (Arr4 m)
    ∧ σ' !! kp = Some (Arr4 m).
Proof.
  intros Hkp Hm HC.
  destruct (flip_heatmaps_run kp C H W m σ Hkp Hm HC) as (l1 & Hrun1 & Hl1 & Hne1).
  set (d := permute_channels (src_map coco_ids) <$> m) in *.
  set (σ1 := <[l1 := Arr4 (reverse_last d)]> (<[fresh (dom σ) := Arr4 d]> σ)) in *.
  assert (Forall (chw_array C H W) (reverse_last d)) as Hd.
  { apply reverse_last_chw, Forall_fmap. eapply Forall_impl; [exact Hm|].
    intros inst Hinst. simpl.
    apply permute_channels_chw; [done|]. intros c Hc. by apply src_map_coco_bound. }
  assert (σ1 !! l1 = Some (Arr4 (reverse_last d))) as Hσ1 by apply lookup_insert_eq.
  destruct (flip_heatmaps_run l1 C H W (reverse_last d) σ1 Hσ1 Hd HC)
    as (l2 & Hrun2 & Hl2 & Hne2).
  assert (kp ∈ dom σ) as Hdom by (apply elem_of_dom; eauto).
  assert (fresh (dom σ) ∉ dom σ) as Hfresh by apply is_fresh.
  assert (fresh (dom σ1) ∉ dom σ1) as Hfresh1 by apply is_fresh.
  assert (kp ∈ dom σ1) as Hdom1.
  { unfold σ1. rewrite !dom_insert. set_solver. }
  assert (σ1 !! kp = Some (Arr4 m)) as Hkp1.
  { unfold σ1. rewrite !lookup_insert_ne; [done|congruence..]. }
  eexists l2, _. split; [|split; [|split]].
  - unfold flip_heatmaps_twice. rewrite (mbind_Ok _ _ _ l1 σ1) by exact Hrun1. exact Hrun2.
  - congruence.
  - rewrite lookup_insert_eq. do 2 f_equal. by apply (flipped_twice_array C H W).
  - rewrite !lookup_insert_ne; [done|congruence..].
Qed.

Lemma flip_heatmaps_twice_restores_witness :
  ∃ l σ', flip_heatmaps_twice 0 {[0 := Arr4 coco_heatmaps]} = (Ok l, σ')
    ∧ l ≠ 0
    ∧ σ' !! l = Some (Arr4 coco_heatmaps)
    ∧ σ' !! 0 = Some (Arr4 coco_heatmaps).
Proof.
  apply (flip_heatmaps_twice_restores 0 17 1 2 coco_heatmaps {[0 := Arr4 coco_heatmaps]}).
  - apply lookup_singleton_eq.
  - apply coco_heatmaps_chw.
  - lia.
Defined.

(* ===================================================================== *)
(** * [flip_heatmaps]: fewer channels than the schema has joints *)
(* ===================================================================== *)

(** An iteration whose pair names a channel the heatmaps do not have. *)
Lemma flip_heatmap_pair_out_of_range keypoints kp fl lkp rkp lid rid C H W
    (m : arr4) f (σ : store) :
  list_index keypoints lkp = Ok lid → list_index keypoints rkp = Ok rid →
  ¬ (lid < C ∧ rid < C) → Forall (chw_array C H W) m → m ≠ [] →
  σ !! kp = Some (Arr4 m) → σ !! fl = Some (Arr4 (permute_channels f <$> m)) →
  flip_heatmap_pair keypoints kp fl (lkp, rkp) σ = (Raise IndexError, σ).
Proof.
  intros Hl Hr Hout Hm Hnil Hkp Hfl.
  destruct m as [|inst m']; [done|]. set (m := inst :: m') in *.
  assert (inst ∈ m) as Hin by left.
  assert (length inst = C) as Hlen.
  { by destruct (proj1 (Forall_forall _ _) Hm inst Hin). }
  unfold flip_heatmap_pair.
  rewrite (mbind_Ok _ _ _ lid σ) by by apply lift_Ok.
  rewrite (mbind_Ok _ _ _ rid σ) by by apply lift_Ok.
  rewrite (mbind_Ok _ _ _ m σ) by by apply load4_Ok.
  destruct (decide (lid < C)) as [HlC|HlC].
  - rewrite (mbind_Ok _ _ _ ((λ inst : arr3, inst !!! lid) <$> m) σ).
    2:{ apply lift_Ok, get_plane_fmap. eapply Forall_impl; [exact Hm|].
        intros ? [-> _]. done. }
    rewrite (mbind_Ok _ _ _ (permute_channels f <$> m) σ) by by apply load4_Ok.
    unfold mbind at 1, lift, set_plane.
    rewrite (get_plane_out_of_range _ rid (permute_channels f inst)); [done| |].
    + apply list_elem_of_fmap. by exists inst.
    + rewrite permute_channels_length. lia.
  - unfold mbind at 1, lift.
    rewrite (get_plane_out_of_range _ lid inst); [done|done|lia].
Qed.

(** The pair of the COCO flip map at which heatmaps with [C < 17] channels
    run out of channels, and the pairs before it. *)
Lemma coco_pair_out_of_range C :
  C < 17 →
  ∃ pre lkp rkp post ids lid rid,
    get_keypoints.2 = pre ++ (lkp, rkp) :: post
    ∧ joint_ids get_keypoints.1 pre = Ok ids
    ∧ Forall (λ p, p.1 < C ∧ p.2 < C) ids
    ∧ list_index get_keypoints.1 lkp = Ok lid
    ∧ list_index get_keypoints.1 rkp = Ok rid
    ∧ ¬ (lid < C ∧ rid < C).
Proof.
  intros HC.
  pose (i0 := (C - 1) / 2).
  exists (take i0 get_keypoints.2),
    (default ("", "") (get_keypoints.2 !! i0)).1, (default ("", "") (get_keypoints.2 !! i0)).2,
    (drop (S i0) get_keypoints.2),
    (take i0 coco_ids), (2 * i0 + 1), (2 * i0 + 2).
  unfold i0. clear i0.
  do 17 (destruct C as [|C];
    [split; [vm_compute; reflexivity|]; split; [vm_compute; reflexivity|];
     split; [apply (bool_decide_unpack _); vm_compute; reflexivity|];
     split; [vm_compute; reflexivity|]; split; [vm_compute; reflexivity|];
     cbn; lia|]).
  lia.
Qed.

(** X26.  Heatmaps of at least one instance with fewer than 17 channels
    make [flip_heatmaps] raise [IndexError], at the first pair of the flip
    map that names a missing channel; the caller's array is as it was. *)
Theorem flip_heatmaps_few_channels kp C H W (m : arr4) (σ : store) :
  σ !! kp = Some (Arr4 m) → Forall (chw_array C H W) m → m ≠ [] → C < 17 →
  ∃ σ', flip_heatmaps kp σ = (Raise IndexError, σ') ∧ σ' !! kp = Some (Arr4 m).
Proof.
  intros Hkp Hm Hnil HC.
  destruct (coco_pair_out_of_range C HC)
    as (pre & lkp & rkp & post & ids & lid & rid & Hmap & Hids & Hpre & Hl & Hr & Hout).
  pose (fl := fresh (dom σ)).
  assert (fl ∉ dom σ) as Hfresh by apply is_fresh.
  assert (kp ≠ fl) as Hne.
  { intros Heq. apply Hfresh. rewrite <-Heq. apply elem_of_dom. eauto. }
  assert (permute_channels (λ c, c) <$> m = m) as Hid.
  { rewrite <-(list_fmap_id m) at 2. apply list_fmap_ext. intros ? inst _.
    apply permute_channels_id. }
  pose proof (flip_heatmap_pairs_run get_keypoints.1 kp fl C H W m pre Hm Hne ids
                (<[fl := Arr4 m]> σ) (λ c, c) Hids Hpre) as Hloop.
  rewrite insert_insert_eq in Hloop.
  set (d := permute_channels (src_from (λ c, c) ids) <$> m) in *.
  exists (<[fl := Arr4 d]> σ). split; [|by rewrite lookup_insert_ne].
  unfold flip_heatmaps. change get_keypoints with (get_keypoints.1, get_keypoints.2).
  cbv iota beta. unfold np_copy.
  rewrite (mbind_Ok _ _ _ fl (<[fl := Arr4 m]> σ)).
  2:{ rewrite (mbind_Ok _ _ _ (Arr4 m) σ); [done|]. unfold load. by rewrite Hkp. }
  unfold mbind at 1. rewrite Hmap.
  rewrite (for_each_app pre _ _ _ (<[fl := Arr4 d]> σ)).
  2:{ apply Hloop; [done| |].
      - by rewrite lookup_insert_ne.
      - rewrite lookup_insert_eq. by rewrite Hid. }
  cbn [for_each]. unfold mbind at 1.
  rewrite (flip_heatmap_pair_out_of_range _ kp fl lkp rkp lid rid C H W m
             (src_from (λ c, c) ids)); try done.
  - by rewrite lookup_insert_ne.
  - by rewrite lookup_insert_eq.
Qed.

Lemma two_channel_heatmaps_chw : Forall (chw_array 2 1 2) two_channel_heatmaps.
Proof. repeat constructor. Qed.

Lemma flip_heatmaps_few_channels_witness :
  ∃ σ', flip_heatmaps 0 {[0 := Arr4 two_channel_heatmaps]} = (Raise IndexError, σ')
        ∧ σ' !! 0 = Some (Arr4 two_channel_heatmaps).
Proof.
  apply (flip_heatmaps_few_channels 0 2 1 2 two_channel_heatmaps).
  - apply lookup_singleton_eq.
  - apply two_channel_heatmaps_chw.
  - done.
  - lia.
Defined.


(* ===================================================================== *)
(** * [get_max_preds] *)
(* ===================================================================== *)

(** ** Operations along an axis *)

Lemma res_mapM_Ok {A B} (f : A → result B) (g : A → B) (l : list A) :
  Forall (λ x, f x = Ok (g x)) l → res_mapM f l = Ok (g <$> l).
Proof.
  induction 1 as [|x l Hx _ IH]; [done|]. cbn [res_mapM]. by rewrite Hx, IH.
Qed.

Lemma res_mapM_Raise {A B} (f : A → result B) e (l : list A) :
  l ≠ [] → Forall (λ x, f x = Raise e) l → res_mapM f l = Raise e.
Proof.
  intros Hnil Hl. destruct Hl as [|x l Hx _]; [done|]. cbn [res_mapM]. by rewrite Hx.
Qed.

(** ** Index arithmetic on floats *)

Lemma Int_part_quotient (i w : nat) :
  0 < w → Int_part (INR i / INR w) = Z.of_nat (i / w).
Proof.
  intros Hw. symmetry. apply Int_part_spec.
  assert (0 < INR w)%R as Hw' by (apply lt_0_INR; lia).
  rewrite <-INR_IZR_INZ.
  assert (INR i = INR w * INR (i / w) + INR (i mod w))%R as Hi.
  { rewrite <-mult_INR, <-plus_INR. f_equal. apply Nat.div_mod_eq. }
  assert (0 <= INR (i mod w) < INR w)%R as [Hr0 Hr1].
  { split; [apply pos_INR|]. apply lt_INR, Nat.mod_upper_bound. lia. }
  assert (INR i / INR w = INR (i / w) + INR (i mod w) / INR w)%R as ->.
  { rewrite Hi. field. lra. }
  assert (0 <= INR (i mod w) / INR w < 1)%R as [Hq0 Hq1].
  { split.
    - apply Rmult_le_pos; [done|]. left. by apply Rinv_0_lt_compat.
    - apply (Rmult_lt_reg_r (INR w)); [done|]. unfold Rdiv.
      rewrite Rmult_assoc, Rinv_l by lra. lra. }
  lra.
Qed.

Lemma np_floor_div_index (i w : nat) :
  0 < w → np_floor_div (INR i) (INR w) = INR (i / w).
Proof.
  intros Hw. unfold np_floor_div. by rewrite Int_part_quotient, <-INR_IZR_INZ.
Qed.

Lemma np_mod_index (i w : nat) : 0 < w → np_mod (INR i) (INR w) = INR (i mod w).
Proof.
  intros Hw. unfold np_mod. rewrite Int_part_quotient, <-INR_IZR_INZ by done.
  rewrite (Nat.div_mod_eq i w) at 1. rewrite plus_INR, mult_INR. ring.
Qed.

(** The two coordinates of one joint, from the flat index of the maximum
    and the maximum. *)
Lemma max_pred_row (plane : arr2) h w :
  matrix_of h w plane → 0 < h → 0 < w →
  zip_with Rmult
    (alter (λ p, np_floor_div p (INR w)) 1
       (alter (λ p, np_mod p (INR w)) 0
          (INR <$> [argmax_of (concat plane)] ++ [argmax_of (concat plane)])))
    ([greater_0 (max_of (concat plane))] ++ [greater_0 (max_of (concat plane))])
  = max_pred plane w.
Proof.
  intros Hm Hh Hw. cbn. rewrite np_mod_index, np_floor_div_index by done.
  unfold max_pred, greater_0, peak_y, peak_x.
  rewrite flat_index_row by done.
  case_decide; f_equal; try ring; f_equal; try ring; f_equal; ring.
Qed.

(** ** The sizes of rectangular heatmaps *)

Lemma shape_1_chw C H W (m : arr4) :
  Forall (chw_array C H W) m → m ≠ [] → shape_1 m = C.
Proof.
  intros Hm Hnil. destruct Hm as [|inst m [Hlen _] _]; [done|]. done.
Qed.

Lemma shape_3_chw C H W (m : arr4) :
  Forall (chw_array C H W) m → m ≠ [] → 0 < C → 0 < H → shape_3 m = W.
Proof.
  intros Hm Hnil HC HH. destruct Hm as [|inst m [Hlen Hplanes] _]; [done|].
  destruct Hplanes as [|plane inst [Hh Hrows] _]; [simpl in Hlen; lia|].
  destruct Hrows as [|row plane Hrow _]; [simpl in Hh; lia|]. done.
Qed.

(** ** One call *)

Lemma get_max_preds_run l J H W (m : arr4) (σ : store) :
  σ !! l = Some (Arr4 m) → Forall (chw_array J H W) m → m ≠ [] →
  0 < J → 0 < H → 0 < W →
  get_max_preds l σ
  = (Ok (fresh (dom σ),
         fresh (dom (<[fresh (dom σ) :=
                  Arr3 ((λ inst : arr3, (λ plane : arr2, max_pred plane W) <$> inst) <$> m)]> σ))),
     <[fresh (dom (<[fresh (dom σ) :=
                  Arr3 ((λ inst : arr3, (λ plane : arr2, max_pred plane W) <$> inst) <$> m)]> σ)) :=
         Arr3 ((λ inst : arr3, (λ plane : arr2, [max_of (concat plane)]) <$> inst) <$> m)]>
       (<[fresh (dom σ) :=
            Arr3 ((λ inst : arr3, (λ plane : arr2, max_pred plane W) <$> inst) <$> m)]> σ)).
Proof.
  intros Hl Hm Hnil HJ HH HW.
  unfold get_max_preds.
  rewrite (mbind_Ok _ _ _ (Arr4 m) σ) by (unfold load; by rewrite Hl).
  cbv zeta. rewrite (shape_1_chw J H W), (shape_3_chw J H W) by done.
  rewrite (mbind_Ok _ _ _ ((λ inst : arr3, (λ plane : arr2, concat plane) <$> inst) <$> m) σ).
  2:{ apply lift_Ok. unfold reshape_planes. rewrite decide_False; [done|].
      destruct m; [done|]. simpl. lia. }
  rewrite (mbind_Ok _ _ _
    ((λ inst : arr3, (λ plane : arr2, argmax_of (concat plane)) <$> inst) <$> m) σ).
  2:{ apply lift_Ok. rewrite (res_mapM_Ok _ (λ flat, argmax_of <$> flat)).
      - f_equal. rewrite <-list_fmap_compose. apply list_fmap_ext. intros ? inst _. simpl.
        by rewrite <-list_fmap_compose.
      - apply Forall_fmap. eapply Forall_impl; [exact Hm|]. intros inst [_ Hplanes]. simpl.
        apply res_mapM_Ok, Forall_fmap. eapply Forall_impl; [exact Hplanes|].
        intros plane Hplane. simpl. by destruct (peak_of_plane plane H W Hplane HH HW). }
  rewrite (mbind_Ok _ _ _
    ((λ inst : arr3, (λ plane : arr2, max_of (concat plane)) <$> inst) <$> m) σ).
  2:{ apply lift_Ok. rewrite (res_mapM_Ok _ (λ flat, max_of <$> flat)).
      - f_equal. rewrite <-list_fmap_compose. apply list_fmap_ext. intros ? inst _. simpl.
        by rewrite <-list_fmap_compose.
      - apply Forall_fmap. eapply Forall_impl; [exact Hm|]. intros inst [_ Hplanes]. simpl.
        apply res_mapM_Ok, Forall_fmap. eapply Forall_impl; [exact Hplanes|].
        intros plane Hplane. simpl. apply np_max_max_of.
        destruct (peak_of_plane plane H W Hplane HH HW) as [Harg _].
        intros Heq. by rewrite Heq in Harg. }
  assert ((λ inst : arr1, (λ v : R, [v]) <$> inst) <$>
            ((λ inst : arr3, (λ plane : arr2, max_of (concat plane)) <$> inst) <$> m)
          = (λ inst : arr3, (λ plane : arr2, [max_of (concat plane)]) <$> inst) <$> m) as ->.
  { rewrite <-list_fmap_compose. apply list_fmap_ext. intros ? inst _. simpl.
    by rewrite <-list_fmap_compose. }
  assert (mul3
           (map_last 1 (λ p : R, np_floor_div p (INR W))
              (map_last 0 (λ p : R, np_mod p (INR W))
                 ((λ inst : list (list nat), (λ row : list nat, INR <$> row) <$> inst) <$>
                  tile_last
                    ((λ inst : list nat, (λ i : nat, [i]) <$> inst) <$>
                     ((λ inst : arr3, (λ plane : arr2, argmax_of (concat plane)) <$> inst)
                        <$> m)))))
           (tile_last
              ((λ inst : arr2, (λ row : arr1, greater_0 <$> row) <$> inst) <$>
               ((λ inst : arr3, (λ plane : arr2, [max_of (concat plane)]) <$> inst) <$> m)))
          = (λ inst : arr3, (λ plane : arr2, max_pred plane W) <$> inst) <$> m) as ->.
  { unfold mul3, map_last, tile_last. rewrite <-!list_fmap_compose.
    rewrite zip_with_fmap_same. apply Forall_fmap_ext.
    eapply Forall_impl; [exact Hm|]. intros inst [_ Hplanes]. simpl.
    rewrite <-!list_fmap_compose. rewrite zip_with_fmap_same. apply Forall_fmap_ext.
    eapply Forall_impl; [exact Hplanes|]. intros plane Hplane. simpl.
    by apply (max_pred_row plane H W). }
  done.
Qed.

Lemma get2_elem_of_concat (plane : arr2) y x v :
  get2 plane y x = Some v → v ∈ concat plane.
Proof.
  unfold get2. intros Hv. destruct (plane !! y) as [row|] eqn:Hrow; [|done]. simpl in Hv.
  apply list_elem_of_In, in_concat. exists row.
  split; apply list_elem_of_In; by eapply list_elem_of_lookup_2.
Qed.

(* ===================================================================== *)
(** * [get_max_preds]: the position of the largest score *)
(* ===================================================================== *)

(** X27.  On heatmaps of shape (N, J, H, W) without an axis of size 0,
    [get_max_preds] returns two new arrays and leaves the heatmaps as they
    were: for every instance and joint, [maxvals] holds the largest score
    of the heatmap, and [preds] holds the column and the row of a cell of
    the grid with that score when it is positive, and (0, 0) when it is
    not. *)
Theorem get_max_preds_locates_maximum l J H W (m : arr4) (σ : store) :
  σ !! l = Some (Arr4 m) → Forall (chw_array J H W) m → m ≠ [] →
  0 < J → 0 < H → 0 < W →
  ∃ lp lm preds maxvals σ',
    get_max_preds l σ = (Ok (lp, lm), σ')
    ∧ σ' !! lp = Some (Arr3 preds) ∧ σ' !! lm = Some (Arr3 maxvals)
    ∧ lp ≠ lm ∧ (lp ∉ dom σ) ∧ (lm ∉ dom σ)
    ∧ σ' !! l = Some (Arr4 m)
    ∧ ∀ n j plane, m !! n ≫= (λ inst : arr3, inst !! j) = Some plane →
        ∃ top px py,
          maxvals !! n ≫= (λ inst : arr2, inst !! j) = Some [top]
          ∧ (∀ y x v, get2 plane y x = Some v → (v <= top)%R)
          ∧ px < W ∧ py < H ∧ get2 plane py px = Some top
          ∧ preds !! n ≫= (λ inst : arr2, inst !! j)
            = Some (if decide (0 < top)%R then [INR px; INR py] else [0%R; 0%R]).
Proof.
  intros Hl Hm Hnil HJ HH HW.
  pose proof (get_max_preds_run l J H W m σ Hl Hm Hnil HJ HH HW) as Hrun.
  set (preds := (λ inst : arr3, (λ plane : arr2, max_pred plane W) <$> inst) <$> m) in *.
  set (maxvals := (λ inst : arr3, (λ plane : arr2, [max_of (concat plane)]) <$> inst) <$> m)
    in *.
  set (lp := fresh (dom σ)) in *.
  set (lm := fresh (dom (<[lp := Arr3 preds]> σ))) in *.
  assert (lp ∉ dom σ) as Hlp by apply is_fresh.
  assert (lm ∉ dom (<[lp := Arr3 preds]> σ)) as Hlm by apply is_fresh.
  rewrite dom_insert in Hlm.
  assert (l ∈ dom σ) as Hdom by (apply elem_of_dom; eauto).
  exists lp, lm, preds, maxvals, (<[lm := Arr3 maxvals]> (<[lp := Arr3 preds]> σ)).
  split; [exact Hrun|].
  split; [rewrite lookup_insert_ne by set_solver; by rewrite lookup_insert_eq|].
  split; [by rewrite lookup_insert_eq|].
  split; [set_solver|]. split; [done|]. split; [set_solver|].
  split; [rewrite !lookup_insert_ne by set_solver; done|].
  intros n j plane Hplane.
  destruct (m !! n) as [inst|] eqn:Hinst; [simpl in Hplane|done].
  destruct (Forall_lookup_1 _ _ _ _ Hm Hinst) as [_ Hplanes].
  pose proof (Forall_lookup_1 _ _ _ _ Hplanes Hplane) as Hmat.
  destruct (peak_of_plane plane H W Hmat HH HW) as (_ & Hx & Hy & Hpeak).
  exists (max_of (concat plane)), (peak_x plane W), (peak_y plane W).
  split; [|split; [|split; [done|split; [done|split; [done|]]]]].
  - unfold maxvals. rewrite list_lookup_fmap, Hinst. simpl.
    by rewrite list_lookup_fmap, Hplane.
  - intros y x v Hv. by apply max_of_upper, (get2_elem_of_concat plane y x).
  - unfold preds. rewrite list_lookup_fmap, Hinst. simpl.
    by rewrite list_lookup_fmap, Hplane.
Qed.

Lemma two_joint_heatmaps_chw : Forall (chw_array 2 2 3) two_joint_heatmaps.
Proof. repeat constructor. Qed.

Lemma get_max_preds_locates_maximum_witness :
  ∃ lp lm preds maxvals σ',
    get_max_preds 0 {[0 := Arr4 two_joint_heatmaps]} = (Ok (lp, lm), σ')
    ∧ σ' !! lp = Some (Arr3 preds) ∧ σ' !! lm = Some (Arr3 maxvals)
    ∧ σ' !! 0 = Some (Arr4 two_joint_heatmaps).
Proof.
  destruct (get_max_preds_locates_maximum 0 2 2 3 two_joint_heatmaps
              {[0 := Arr4 two_joint_heatmaps]})
    as (lp & lm & preds & maxvals & σ' & Hrun & Hp & Hmv & _ & _ & _ & Hin & _).
  - apply lookup_singleton_eq.
  - apply two_joint_heatmaps_chw.
  - done.
  - lia.
  - lia.
  - lia.
  - by exists lp, lm, preds, maxvals, σ'.
Defined.

(* ===================================================================== *)
(** * [get_max_preds]: heatmaps without cells *)
(* ===================================================================== *)

(** X28.  On heatmaps of shape (N, J, H, W) with an axis of size 0,
    [get_max_preds] raises [ValueError] and changes nothing: there is no
    cell to take a maximum of. *)
Theorem get_max_preds_without_cells l J H W (m : arr4) (σ : store) :
  σ !! l = Some (Arr4 m) → Forall (chw_array J H W) m →
  m = [] ∨ J = 0 ∨ H = 0 ∨ W = 0 →
  get_max_preds l σ = (Raise ValueError, σ).
Proof.
  intros Hl Hm Hzero.
  unfold get_max_preds.
  rewrite (mbind_Ok _ _ _ (Arr4 m) σ) by (unfold load; by rewrite Hl).
  cbv zeta.
  destruct (decide (length m * shape_1 m = 0)) as [Hz|Hnz].
  { unfold mbind at 1, lift, reshape_planes. by rewrite decide_True. }
  assert (m ≠ []) as Hnil by (intros ->; simpl in Hnz; lia).
  assert (0 < J) as HJ.
  { rewrite (shape_1_chw J H W) in Hnz by done. lia. }
  assert (H * W = 0) as Hcells by (destruct Hzero as [?|[?|[?|?]]]; subst; [done|lia..]).
  rewrite (mbind_Ok _ _ _ ((λ inst : arr3, (λ plane : arr2, concat plane) <$> inst) <$> m) σ).
  2:{ apply lift_Ok. unfold reshape_planes. by rewrite decide_False. }
  unfold mbind at 1, lift.
  rewrite (res_mapM_Raise _ ValueError); [done| |].
  - by destruct m.
  - apply Forall_fmap. eapply Forall_impl; [exact Hm|]. intros inst [Hlen Hplanes]. simpl.
    apply res_mapM_Raise.
    + destruct inst; [simpl in Hlen; lia|done].
    + apply Forall_fmap. eapply Forall_impl; [exact Hplanes|]. intros plane Hplane. simpl.
      pose proof (concat_length_matrix H W plane Hplane) as Hlen'.
      destruct (concat plane); [done|simpl in Hlen'; lia].
Qed.

Lemma get_max_preds_without_cells_witness :
  get_max_preds 0 {[0 := Arr4 cellless_heatmaps]}
  = (Raise ValueError, {[0 := Arr4 cellless_heatmaps]}).
Proof.
  apply (get_max_preds_without_cells 0 1 2 0 cellless_heatmaps).
  - apply lookup_singleton_eq.
  - repeat constructor.
  - right. right. by right.
Defined.
